(** * A calculator built on Python's [eval]

    Shallow embedding of [src/calculator.py]: the [Calculator] class keeps one
    string, [self.expression], edited by the button callbacks
    ([append_to_expression], [backspace], [clear]) and evaluated by
    [calculate], which rewrites the three display symbols to ASCII operators,
    hands the text to Python's [eval] and formats what comes back.

    [calculate] is only as precise as the builtins it calls, so the file
    models them for exactly the texts the calculator can hold:
    - [eval]: CPython's tokenizer, the expression grammar and the arithmetic of
      [int] (unbounded, [Z]) and [float] (IEEE binary64, [spec_float]);
    - [round(x, 10)], [int(x)], [str(n)] and [str(x)] (the shortest repr).

    Three things lie outside what the language fixes, and the file says so
    where they occur:
    - a float power that reaches the C library's [pow]: the outcome is then a
      call, [CallPow], that continues from whatever the library returns;
      [run] answers the calls with a given [pow];
    - the keyword [is] (object identity) and a negative float raised to a
      fractional power (a complex number), reported as [Unmodelled]: no text
      the buttons can build gets there;
    - the resources of the interpreter (recursion depth, memory).
    The limit of 4300 digits on conversions between [int] and [str] is
    modelled. *)

From Stdlib Require Import ZArith List Bool Lia.
From Stdlib Require Import SpecFloat.
From Stdlib Require DecimalPos DecimalN.
Import ListNotations.

Local Open Scope Z_scope.

(** ** Characters and strings *)

Inductive digit : Type :=
  D0 | D1 | D2 | D3 | D4 | D5 | D6 | D7 | D8 | D9.

Definition digit_value (d : digit) : Z :=
  match d with
  | D0 => 0 | D1 => 1 | D2 => 2 | D3 => 3 | D4 => 4
  | D5 => 5 | D6 => 6 | D7 => 7 | D8 => 8 | D9 => 9
  end.

(** The characters a calculator text can hold: the button labels, the ASCII
    operators that [str.replace] substitutes, and the characters of the
    results that [str] writes back into the expression ([-], [e] in
    [1e-05], and the letters of [Ellipsis]). *)
Inductive char : Type :=
| Digit (d : digit)
| Dot                 (* "." *)
| Plus                (* "+" *)
| Percent             (* "%" *)
| MinusSign           (* U+2212, the button *)
| TimesSign           (* U+00D7, the button *)
| DivisionSign        (* U+00F7, the button *)
| Hyphen              (* "-" *)
| Star                (* "*" *)
| Slash               (* "/" *)
| LowerE | UpperE | LowerL | LowerI | LowerP | LowerS.

Definition str : Type := list char.

(** Python's [ord]. *)
Definition ord (c : char) : N :=
  match c with
  | Digit d => (48 + Z.to_N (digit_value d))%N
  | Dot => 46%N | Plus => 43%N | Percent => 37%N
  | MinusSign => 8722%N | TimesSign => 215%N | DivisionSign => 247%N
  | Hyphen => 45%N | Star => 42%N | Slash => 47%N
  | LowerE => 101%N | UpperE => 69%N | LowerL => 108%N
  | LowerI => 105%N | LowerP => 112%N | LowerS => 115%N
  end.

Definition char_eqb (a b : char) : bool := N.eqb (ord a) (ord b).

Fixpoint str_eqb (s t : str) : bool :=
  match s, t with
  | [], [] => true
  | a :: s', b :: t' => char_eqb a b && str_eqb s' t'
  | _, _ => false
  end.

(** [s.replace(old, new)] for one-character [old] and [new]. *)
Definition replace (old new : char) (s : str) : str :=
  map (fun c => if char_eqb c old then new else c) s.

(** ** Python values, exceptions and outcomes *)

Definition float : Type := spec_float.

Inductive value : Type :=
| PyInt (n : Z)
| PyFloat (x : float)
| PyEllipsis.

Inductive exn : Type :=
| SyntaxError
| ZeroDivisionError
| OverflowError
| TypeError
| NameError
| AttributeError
| ValueError.

(** Exception classes named by the [except] clauses of [calculate]. *)
Inductive exn_class : Type :=
| ClsZeroDivisionError
| ClsSyntaxError
| ClsException.

(** [isinstance(e, cls)]: every exception of the model derives from
    [Exception]. *)
Definition isinstance_exn (e : exn) (cls : exn_class) : bool :=
  match cls, e with
  | ClsZeroDivisionError, ZeroDivisionError => true
  | ClsSyntaxError, SyntaxError => true
  | ClsException, _ => true
  | _, _ => false
  end.

(** What [errno] holds after a call to the C library. *)
Inductive errno : Type := NoError | ERANGE | OtherError.

(** What running a piece of Python does: it returns, it raises, it leaves
    the fragment this file models, or it calls the C library's [pow] and goes
    on from the value and the [errno] that come back. *)
Inductive outcome (A : Type) : Type :=
| Return (a : A)
| Raise (e : exn)
| Unmodelled
| CallPow (x y : float) (k : float * errno -> outcome A).

Arguments Return {A} a.
Arguments Raise {A} e.
Arguments Unmodelled {A}.
Arguments CallPow {A} x y k.

Fixpoint bind {A B : Type} (m : outcome A) (k : A -> outcome B) : outcome B :=
  match m with
  | Return a => k a
  | Raise e => Raise e
  | Unmodelled => Unmodelled
  | CallPow x y f => CallPow x y (fun r => bind (f r) k)
  end.

(** [try: m except Exception as e: h e]. *)
Fixpoint catch {A : Type} (m : outcome A) (h : exn -> outcome A) : outcome A :=
  match m with
  | Raise e => h e
  | CallPow x y f => CallPow x y (fun r => catch (f r) h)
  | _ => m
  end.

(** The outcome when the C library's [pow] is the function [libm_pow]. *)
Fixpoint run {A : Type} (libm_pow : float -> float -> float * errno)
    (m : outcome A) : outcome A :=
  match m with
  | CallPow x y f => run libm_pow (f (libm_pow x y))
  | _ => m
  end.

Notation "x <- m ;; k" := (bind m (fun x => k))
  (at level 61, m at next level, right associativity).
Notation "' p <- m ;; k" := (bind m (fun x => let p := x in k))
  (at level 61, p pattern, m at next level, right associativity).

(** ** Binary64 *)

Definition prec : Z := 53.
Definition emax : Z := 1024.

Definition fadd : float -> float -> float := SFadd prec emax.
Definition fsub : float -> float -> float := SFsub prec emax.
Definition fmul : float -> float -> float := SFmul prec emax.
Definition fdiv : float -> float -> float := SFdiv prec emax.

Definition pos_zero : float := S754_zero false.
Definition pos_inf : float := S754_infinity false.

Definition float_is_zero (x : float) : bool :=
  match x with S754_zero _ => true | _ => false end.

Definition float_is_neg (x : float) : bool :=      (* x < 0 *)
  SFltb x pos_zero.

Definition float_sign (x : float) : bool :=        (* the sign bit *)
  match x with
  | S754_zero s | S754_infinity s | S754_finite s _ _ => s
  | S754_nan => false
  end.

(** [2 ^ k] for [k >= 0], and [1] below: numerators and denominators of
    [m * 2 ^ e] are [m * pow2 e] and [pow2 (- e)]. *)
Definition pow2 (k : Z) : Z := 2 ^ Z.max 0 k.

(** [n / d] rounded to the nearest integer, ties to even. *)
Definition round_half_even (n d : Z) : Z :=
  let q := n / d in
  match 2 * (n mod d) ?= d with
  | Lt => q
  | Gt => q + 1
  | Eq => if Z.even q then q else q + 1
  end.

(** The floor of the binary logarithm of [n / d] for positive [n], [d]
    (a negative number stands for any quotient below one). *)
Definition binade (n d : Z) : Z :=
  let l0 := Z.log2 n - Z.log2 d in
  if n <? d * 2 ^ l0 then l0 - 1 else l0.

(** [n / d], a number of units, rounded to a significand and a shift,
    [m * 2 ^ sh] units: a quotient below [2 ^ 53] is rounded to a whole
    number of units, a larger one to 53 bits; ties go to the even
    significand, and a significand rounded up to [2 ^ 53] is renormalised. *)
Definition round_units (n d : Z) : Z * Z :=
  let sh := Z.max 0 (binade n d - 52) in
  let m := round_half_even n (d * 2 ^ sh) in
  if m =? 2 ^ 53 then (2 ^ 52, sh + 1) else (m, sh).

(** The binary64 nearest to [n / d] ([n >= 0], [d > 0]) with sign [s], ties
    to even; an infinity when the rounded value exceeds the largest double.
    The unit is [2 ^ -1074], the smallest double. *)
Definition round_ratio (s : bool) (n d : Z) : float :=
  if n <=? 0 then S754_zero s else
  let '(m, sh) := round_units (n * 2 ^ 1074) d in
  match m with
  | Zpos p => if sh <=? 2045 then S754_finite s p (sh - 1074) else S754_infinity s
  | _ => S754_zero s
  end.

(** A decimal [D * 10 ^ k] read as a double: what [strtod] returns. *)
Definition float_of_decimal (s : bool) (D k : Z) : float :=
  if 0 <=? k then round_ratio s (D * 10 ^ k) 1
  else round_ratio s D (10 ^ (- k)).

(** [float(n)] for an int ([PyLong_AsDouble]). *)
Definition float_of_int (n : Z) : outcome float :=
  match round_ratio (n <? 0) (Z.abs n) 1 with
  | S754_infinity _ => Raise OverflowError   (* int too large to convert to float *)
  | x => Return x
  end.

(** The integer part of a finite double, towards zero. *)
Definition trunc_finite (s : bool) (m : positive) (e : Z) : Z :=
  let q := (Zpos m * pow2 e) / pow2 (- e) in
  if s then - q else q.

(** [int(x)]. *)
Definition int_of_float (x : float) : outcome Z :=
  match x with
  | S754_zero _ => Return 0
  | S754_finite s m e => Return (trunc_finite s m e)
  | S754_infinity _ => Raise OverflowError   (* cannot convert float infinity to integer *)
  | S754_nan => Raise ValueError             (* cannot convert float NaN to integer *)
  end.

(** [x == n] for a float and an int: the comparison is exact. *)
Definition float_eq_int (x : float) (n : Z) : bool :=
  match x with
  | S754_zero _ => n =? 0
  | S754_finite s m e =>
      (if s then - (Zpos m * pow2 e) else Zpos m * pow2 e) =? n * pow2 (- e)
  | _ => false
  end.

(** [round(x, ndigits)] for a float and [0 < ndigits <= 323]
    ([float.__round__], [double_round]): the exact value is rounded, ties to
    even, to [ndigits] decimals and the decimal is read back as a double. *)
Definition float_round (x : float) (ndigits : Z) : outcome float :=
  match x with
  | S754_finite s m e =>
      let N := round_half_even (Zpos m * pow2 e * 10 ^ ndigits) (pow2 (- e)) in
      match round_ratio s N (10 ^ ndigits) with
      | S754_infinity _ => Raise OverflowError  (* rounded value too large to represent *)
      | y => Return y
      end
  | _ => Return x       (* zeros, infinities and nans round to themselves *)
  end.

(** ** [str] of numbers *)

Definition digit_of_Z (z : Z) : digit :=
  match z with
  | 0 => D0 | 1 => D1 | 2 => D2 | 3 => D3 | 4 => D4
  | 5 => D5 | 6 => D6 | 7 => D7 | 8 => D8 | _ => D9
  end.

Fixpoint chars_of_uint (u : Decimal.uint) : str :=
  match u with
  | Decimal.Nil => []
  | Decimal.D0 u' => Digit D0 :: chars_of_uint u'
  | Decimal.D1 u' => Digit D1 :: chars_of_uint u'
  | Decimal.D2 u' => Digit D2 :: chars_of_uint u'
  | Decimal.D3 u' => Digit D3 :: chars_of_uint u'
  | Decimal.D4 u' => Digit D4 :: chars_of_uint u'
  | Decimal.D5 u' => Digit D5 :: chars_of_uint u'
  | Decimal.D6 u' => Digit D6 :: chars_of_uint u'
  | Decimal.D7 u' => Digit D7 :: chars_of_uint u'
  | Decimal.D8 u' => Digit D8 :: chars_of_uint u'
  | Decimal.D9 u' => Digit D9 :: chars_of_uint u'
  end.

(** The decimal digits of an int, behind its sign. *)
Definition str_of_int (n : Z) : str :=
  match n with
  | Z0 => [Digit D0]
  | Zpos p => chars_of_uint (Pos.to_uint p)
  | Zneg p => Hyphen :: chars_of_uint (Pos.to_uint p)
  end.

(** [sys.get_int_max_str_digits()]: the most digits a conversion between
    [int] and [str] goes through. *)
Definition max_str_digits : Z := 4300.

(** [str(n)] for an int: the digits, unless there are too many. *)
Definition int_str (n : Z) : outcome str :=
  if max_str_digits <? Z.of_nat (length (str_of_int (Z.abs n)))
  then Raise ValueError      (* Exceeds the limit (4300 digits) for integer string conversion *)
  else Return (str_of_int n).

(** [str] converts the int: it has no more digits than the limit. *)
Definition printable (z : Z) : bool :=
  Z.of_nat (length (str_of_int (Z.abs z))) <=? max_str_digits.

(** The number of decimal digits of [q >= 1]. *)
Fixpoint count_digits (fuel : nat) (q : Z) : Z :=
  match fuel with
  | O => 1
  | S f => if q <? 10 then 1 else 1 + count_digits f (q / 10)
  end.

(** The least [j >= 1] with [n * 10 ^ j >= d], for [0 < n < d]. *)
Fixpoint count_leading_zeros (fuel : nat) (n d : Z) : Z :=
  match fuel with
  | O => 1
  | S f => if d <=? n * 10 then 1 else 1 + count_leading_zeros f (n * 10) d
  end.

(** [floor (log10 (n / d))] for positive [n], [d]. *)
Definition floor_log10_ratio (n d : Z) : Z :=
  if d <=? n
  then count_digits (Z.to_nat (Z.log2 (n / d))) (n / d) - 1
  else - count_leading_zeros (Z.to_nat (Z.log2 d)) n d.

Definition is_lt (c : comparison) : bool := match c with Lt => true | _ => false end.
Definition is_eq (c : comparison) : bool := match c with Eq => true | _ => false end.
Definition is_gt (c : comparison) : bool := match c with Gt => true | _ => false end.

(** The digit loop of [_Py_dg_dtoa] in mode 0.  [b / S] is what is left of
    the value, [mlo / S] and [mhi / S] are half the gaps to the neighbouring
    doubles, all in units of the digit being produced; [acc] holds the
    digits so far, last first.  The result is the digits (last first) and
    whether the loop left through [round_9_up]. *)
Fixpoint dtoa_loop (fuel : nat) (even : bool) (b S mlo mhi : Z) (acc : list Z)
  : list Z * bool :=
  let dig := b / S in
  let b := b mod S in
  let j := b ?= mlo in
  let j1 := if S - mhi <? 0 then Gt else b ?= S - mhi in
  let bump := if dig =? 9 then (9 :: acc, true) else ((dig + 1) :: acc, false) in
  if is_eq j1 && even then
    if dig =? 9 then (9 :: acc, true)
    else ((if is_gt j then dig + 1 else dig) :: acc, false)
  else if is_lt j || (is_eq j && even) then
    if b =? 0 then (dig :: acc, false)
    else if is_gt j1 then
      match 2 * b ?= S with
      | Gt => bump
      | Eq => if Z.odd dig then bump else (dig :: acc, false)
      | Lt => (dig :: acc, false)
      end
    else (dig :: acc, false)
  else if is_gt j1 then bump
  else
    match fuel with
    | O => (dig :: acc, false)
    | S f => dtoa_loop f even (10 * b) S (10 * mlo) (10 * mhi) (dig :: acc)
    end.

(** [roundoff]: drop the trailing nines and add one to the digit before
    them; when every digit was a nine the result is [1] one place up. *)
Fixpoint roundoff (racc : list Z) : list Z * bool :=
  match racc with
  | [] => ([1], true)
  | d :: r => if d =? 9 then roundoff r else ((d + 1) :: r, false)
  end.

(** The shortest digit string that reads back as the double [m * 2 ^ e], and
    the position [decpt] of the decimal point: the value printed is
    [0.d1d2...dn * 10 ^ decpt]. *)
Definition shortest_digits (m : positive) (e : Z) : list Z * Z :=
  let boundary := (Zpos m =? 2 ^ 52) && (-1074 <? e) in
  let R0 := 4 * Zpos m * pow2 e in
  let S0 := 4 * pow2 (- e) in
  let mhi0 := 2 * pow2 e in
  let mlo0 := if boundary then pow2 e else 2 * pow2 e in
  let k := floor_log10_ratio R0 S0 in
  let up := 10 ^ Z.max 0 (- k) in
  let fuel := Z.to_nat (Z.max 0 (- e) + Z.max 0 k) in
  let '(racc, nine) :=
    dtoa_loop fuel (Z.even (Zpos m)) (R0 * up) (S0 * 10 ^ Z.max 0 k)
              (mlo0 * up) (mhi0 * up) [] in
  if nine then
    let '(racc', carry) := roundoff racc in
    (rev racc', if carry then k + 2 else k + 1)
  else (rev racc, k + 1).

(** The exponent of the [repr] format, [printf("%+.02d")]. *)
Definition exponent_chars (x : Z) : str :=
  let ds := match Z.abs x with
            | Zpos p => chars_of_uint (Pos.to_uint p)
            | _ => [Digit D0]
            end in
  (if x <? 0 then Hyphen else Plus)
    :: (match ds with [d] => [Digit D0; d] | _ => ds end).

(** [repr] of a finite non-zero double ([format_float_short], code ['r']):
    positional notation when [-4 < decpt <= 16], scientific otherwise. *)
Definition float_repr_finite (s : bool) (m : positive) (e : Z) : str :=
  let '(ds, decpt) := shortest_digits m e in
  let digs := map (fun d => Digit (digit_of_Z d)) ds in
  let n := Z.of_nat (length ds) in
  let body :=
    if (decpt <=? -4) || (16 <? decpt) then
      match digs with
      | [] => []
      | d :: rest =>
          d :: (match rest with [] => [] | _ => Dot :: rest end)
            ++ LowerE :: exponent_chars (decpt - 1)
      end
    else if decpt <=? 0 then
      Digit D0 :: Dot :: repeat (Digit D0) (Z.to_nat (- decpt)) ++ digs
    else if decpt <? n then
      firstn (Z.to_nat decpt) digs ++ Dot :: skipn (Z.to_nat decpt) digs
    else
      digs ++ repeat (Digit D0) (Z.to_nat (decpt - n)) ++ [Dot; Digit D0] in
  if s then Hyphen :: body else body.

(** [str(x)] for a float.  The texts [inf] and [nan] fall outside [char];
    [calculate] never prints them, [int(result)] raises before. *)
Definition str_of_float (x : float) : outcome str :=
  match x with
  | S754_zero s =>
      Return ((if s then [Hyphen] else []) ++ [Digit D0; Dot; Digit D0])
  | S754_finite s m e => Return (float_repr_finite s m e)
  | _ => Unmodelled
  end.

Definition Ellipsis_name : str :=
  [UpperE; LowerL; LowerL; LowerI; LowerP; LowerS; LowerI; LowerS].

(** [str(v)]. *)
Definition py_str (v : value) : outcome str :=
  match v with
  | PyInt n => int_str n
  | PyFloat x => str_of_float x
  | PyEllipsis => Return Ellipsis_name
  end.

(** ** [eval]: the tokenizer *)

Inductive token : Type :=
| NUMBER (v : value)
| NAME (id : str)
| KW_IS | KW_ELSE
| ELLIPSIS | DOT
| PLUS | MINUS | STAR | SLASH | PERCENT | DOUBLESTAR | DOUBLESLASH.

Fixpoint span_digits (s : str) : list digit * str :=
  match s with
  | Digit d :: r => let '(ds, r') := span_digits r in (d :: ds, r')
  | _ => ([], s)
  end.

Definition digits_value (ds : list digit) : Z :=
  fold_left (fun acc d => 10 * acc + digit_value d) ds 0.

Definition is_letter (c : char) : bool :=
  match c with
  | LowerE | UpperE | LowerL | LowerI | LowerP | LowerS => true
  | _ => false
  end.

Definition is_identifier_char (c : char) : bool :=
  match c with Digit _ => true | _ => is_letter c end.

Fixpoint span_identifier (s : str) : str * str :=
  match s with
  | c :: r =>
      if is_identifier_char c
      then let '(id, r') := span_identifier r in (c :: id, r')
      else ([], s)
  | [] => ([], [])
  end.

(** [verify_end_of_number]: a number may be followed at once by a keyword
    ([else], [is] here), by no other identifier character. *)
Definition verify_end_of_number (s : str) : bool :=
  match s with
  | LowerE :: LowerL :: LowerS :: LowerE :: _ => true
  | LowerI :: LowerS :: _ => true
  | c :: _ => negb (is_identifier_char c)
  | [] => true
  end.

(** An integer literal with a leading zero must be all zeros. *)
Definition leading_zeros_ok (ds : list digit) : bool :=
  match ds with
  | D0 :: _ => forallb (fun d => digit_value d =? 0) ds
  | _ => true
  end.

(** A number literal at the head of [s], which starts with a digit or with a
    dot and a digit: integer part, fraction, exponent.  An exponent marker
    that no digits follow ends in [SyntaxError]: the tokenizer either
    rejects it or returns the number with a name behind it, which no rule of
    the grammar accepts.  An integer literal is converted when it is read: one
    that starts with a zero is all zeros and comes out of C's [strtoul]; any
    other goes to [int] and its digit limit, whose [ValueError] the parser
    turns into a [SyntaxError]. *)
Definition lex_number (s : str) : outcome (token * str) :=
  let '(ip, r1) := span_digits s in
  let '(fp, r2, dotted) :=
    match r1 with
    | Dot :: r => let '(fp, r') := span_digits r in (fp, r', true)
    | _ => ([], r1, false)
    end in
  let mantissa := digits_value (ip ++ fp) in
  let scale := - Z.of_nat (length fp) in
  let finish (v : value) (r : str) : outcome (token * str) :=
    if verify_end_of_number r then Return (NUMBER v, r) else Raise SyntaxError in
  let exponent (neg : bool) (r : str) : outcome (token * str) :=
    match span_digits r with
    | ([], _) => Raise SyntaxError
    | (xs, r') =>
        let x := digits_value xs in
        finish (PyFloat (float_of_decimal false mantissa
                           (scale + (if neg then - x else x)))) r'
    end in
  match r2 with
  | LowerE :: Plus :: r | UpperE :: Plus :: r => exponent false r
  | LowerE :: Hyphen :: r | UpperE :: Hyphen :: r => exponent true r
  | LowerE :: r | UpperE :: r => exponent false r
  | _ =>
      if dotted then finish (PyFloat (float_of_decimal false mantissa scale)) r2
      else if leading_zeros_ok ip then
        match ip with
        | D0 :: _ => finish (PyInt mantissa) r2
        | _ =>
            if max_str_digits <? Z.of_nat (length ip)
            then Raise SyntaxError   (* Exceeds the limit (4300 digits) for integer string conversion *)
            else finish (PyInt mantissa) r2
        end
      else Raise SyntaxError
  end.

Definition keyword_is : str := [LowerI; LowerS].
Definition keyword_else : str := [LowerE; LowerL; LowerS; LowerE].

Definition name_token (id : str) : token :=
  if str_eqb id keyword_is then KW_IS
  else if str_eqb id keyword_else then KW_ELSE
  else NAME id.

Fixpoint tokenize (fuel : nat) (s : str) : outcome (list token) :=
  match fuel with
  | O => Unmodelled
  | S f =>
      let emit (t : token) (r : str) : outcome (list token) :=
        ts <- tokenize f r ;; Return (t :: ts) in
      let number : outcome (list token) :=
        ' (t, r) <- lex_number s ;; emit t r in
      match s with
      | [] => Return []
      | Digit _ :: _ => number
      | Dot :: Digit _ :: _ => number
      | Dot :: Dot :: Dot :: r => emit ELLIPSIS r
      | Dot :: r => emit DOT r
      | Plus :: r => emit PLUS r
      | Hyphen :: r => emit MINUS r
      | Star :: Star :: r => emit DOUBLESTAR r
      | Star :: r => emit STAR r
      | Slash :: Slash :: r => emit DOUBLESLASH r
      | Slash :: r => emit SLASH r
      | Percent :: r => emit PERCENT r
      | MinusSign :: _ | TimesSign :: _ | DivisionSign :: _ =>
          Raise SyntaxError                       (* invalid character *)
      | _ => let '(id, r) := span_identifier s in emit (name_token id) r
      end
  end.

(** ** [eval]: the grammar *)

Inductive unaryop : Type := UAdd | USub.
Inductive operator : Type := Add | Sub | Mult | Div | FloorDiv | Mod | Pow.

Inductive expr : Type :=
| Constant (v : value)
| Name (id : str)
| Attribute (e : expr) (attr : str)
| UnaryOp (op : unaryop) (operand : expr)
| BinOp (left : expr) (op : operator) (right : expr).

(** [atom: NUMBER | NAME | '...'] *)
Definition parse_atom (ts : list token) : outcome (expr * list token) :=
  match ts with
  | NUMBER v :: r => Return (Constant v, r)
  | NAME id :: r => Return (Name id, r)
  | ELLIPSIS :: r => Return (Constant PyEllipsis, r)
  | _ => Raise SyntaxError
  end.

(** [primary: primary '.' NAME | atom] *)
Fixpoint parse_trailers (e : expr) (ts : list token) : outcome (expr * list token) :=
  match ts with
  | DOT :: NAME id :: r => parse_trailers (Attribute e id) r
  | DOT :: _ => Raise SyntaxError
  | _ => Return (e, ts)
  end.

Definition parse_primary (ts : list token) : outcome (expr * list token) :=
  ' (e, r) <- parse_atom ts ;; parse_trailers e r.

(** [factor: '+' factor | '-' factor | power]
    [power: primary '**' factor | primary] *)
Fixpoint parse_factor (fuel : nat) (ts : list token) : outcome (expr * list token) :=
  match fuel with
  | O => Unmodelled
  | S f =>
      match ts with
      | PLUS :: r => ' (e, r') <- parse_factor f r ;; Return (UnaryOp UAdd e, r')
      | MINUS :: r => ' (e, r') <- parse_factor f r ;; Return (UnaryOp USub e, r')
      | _ =>
          ' (e, r) <- parse_primary ts ;;
          match r with
          | DOUBLESTAR :: r1 =>
              ' (x, r2) <- parse_factor f r1 ;; Return (BinOp e Pow x, r2)
          | _ => Return (e, r)
          end
      end
  end.

Definition term_operator (t : token) : option operator :=
  match t with
  | STAR => Some Mult
  | SLASH => Some Div
  | DOUBLESLASH => Some FloorDiv
  | PERCENT => Some Mod
  | _ => None
  end.

Definition sum_operator (t : token) : option operator :=
  match t with
  | PLUS => Some Add
  | MINUS => Some Sub
  | _ => None
  end.

(** [term: term ('*' | '/' | '//' | '%') factor | factor], from the left. *)
Fixpoint parse_term_rest (fuel : nat) (lhs : expr) (ts : list token)
  : outcome (expr * list token) :=
  match fuel with
  | O => Unmodelled
  | S f =>
      match ts with
      | t :: r =>
          match term_operator t with
          | Some op =>
              ' (rhs, r') <- parse_factor f r ;;
              parse_term_rest f (BinOp lhs op rhs) r'
          | None => Return (lhs, ts)
          end
      | [] => Return (lhs, ts)
      end
  end.

Definition parse_term (fuel : nat) (ts : list token) : outcome (expr * list token) :=
  ' (e, r) <- parse_factor fuel ts ;; parse_term_rest fuel e r.

(** [sum: sum ('+' | '-') term | term], from the left. *)
Fixpoint parse_sum_rest (fuel : nat) (lhs : expr) (ts : list token)
  : outcome (expr * list token) :=
  match fuel with
  | O => Unmodelled
  | S f =>
      match ts with
      | t :: r =>
          match sum_operator t with
          | Some op =>
              ' (rhs, r') <- parse_term f r ;;
              parse_sum_rest f (BinOp lhs op rhs) r'
          | None => Return (lhs, ts)
          end
      | [] => Return (lhs, ts)
      end
  end.

Definition parse_sum (fuel : nat) (ts : list token) : outcome (expr * list token) :=
  ' (e, r) <- parse_term fuel ts ;; parse_sum_rest fuel e r.

Definition is_kw_is (t : token) : bool :=
  match t with KW_IS => true | _ => false end.

(** [compile(source, "<string>", "eval")]: the whole text must be one
    expression.  A text that tokenizes and holds the keyword [is] is left
    unmodelled. *)
Definition py_compile (source : str) : outcome expr :=
  ts <- tokenize (S (length source)) source ;;
  if existsb is_kw_is ts then Unmodelled
  else
    ' (e, r) <- parse_sum (S (length ts)) ts ;;
    match r with
    | [] => Return e
    | _ => Raise SyntaxError
    end.

(** ** [eval]: arithmetic *)

Definition half : float := S754_finite false 4503599627370496 (-53).
Definition one : float := S754_finite false 4503599627370496 (-52).
Definition two : float := S754_finite false 4503599627370496 (-51).

Definition float_is_nan (x : float) : bool :=
  match x with S754_nan => true | _ => false end.

Definition float_is_inf (x : float) : bool :=
  match x with S754_infinity _ => true | _ => false end.

(** C's [fmod]: the remainder has the sign of [x] and is exact. *)
Definition fmod (x y : float) : float :=
  match x, y with
  | S754_nan, _ | _, S754_nan => S754_nan
  | S754_infinity _, _ | _, S754_zero _ => S754_nan
  | _, S754_infinity _ => x
  | S754_zero _, _ => x
  | S754_finite sx mx ex, S754_finite _ my ey =>
      let e := Z.min ex ey in
      let r := (Zpos mx * 2 ^ (ex - e)) mod (Zpos my * 2 ^ (ey - e)) in
      round_ratio sx (r * pow2 e) (pow2 (- e))
  end.

(** C's [floor]. *)
Definition ffloor (x : float) : float :=
  match x with
  | S754_finite s m e =>
      if 0 <=? e then x
      else
        let q := Zpos m / pow2 (- e) in
        if s then round_ratio true (if Zpos m mod pow2 (- e) =? 0 then q else q + 1) 1
        else round_ratio false q 1
  | _ => x
  end.

(** [float_rem]: the remainder takes the sign of the divisor. *)
Definition float_rem (vx wx : float) : outcome float :=
  if float_is_zero wx then Raise ZeroDivisionError      (* float modulo *)
  else
    let md := fmod vx wx in
    Return (if float_is_zero md then S754_zero (float_sign wx)
            else if xorb (float_is_neg wx) (float_is_neg md) then fadd md wx
            else md).

(** [float_floor_div], through [_float_div_mod]. *)
Definition float_floor_div (vx wx : float) : outcome float :=
  if float_is_zero wx then Raise ZeroDivisionError      (* float floor division by zero *)
  else
    let md := fmod vx wx in
    let div := fdiv (fsub vx md) wx in
    let div :=
      if float_is_zero md then div
      else if xorb (float_is_neg wx) (float_is_neg md) then fsub div one
      else div in
    Return (if float_is_zero div then S754_zero (float_sign (fdiv vx wx))
            else
              let floordiv := ffloor div in
              if SFltb half (fsub div floordiv) then fadd floordiv one
              else floordiv).

(** [DOUBLE_IS_ODD_INTEGER]. *)
Definition is_odd_integer (x : float) : bool :=
  SFeqb (fmod (SFabs x) two) one.

(** [_Py_ADJUST_ERANGE1]: an infinite result is a range error whether the
    library said so or not; a range error on a zero result is dropped. *)
Definition adjust_erange (ix : float) (err : errno) : errno :=
  match err with
  | NoError => if float_is_inf ix then ERANGE else NoError
  | ERANGE => if float_is_zero ix then NoError else ERANGE
  | OtherError => OtherError
  end.

(** The end of [float_pow]: [errno = 0; ix = pow(iv, iw)], the adjustment,
    the sign, and the exception for what [errno] holds. *)
Definition call_pow (negate_result : bool) (iv iw : float) : outcome float :=
  CallPow iv iw
    (fun r =>
       let '(ix, err) := r in
       match adjust_erange ix err with
       | NoError => Return (if negate_result then SFopp ix else ix)
       | ERANGE => Raise OverflowError     (* (34, 'Numerical result out of range') *)
       | OtherError => Raise ValueError
       end).

(** [float_pow]: the special cases CPython decides itself; what is left,
    finite operands with a positive base other than one, goes to the C
    library's [pow]. *)
Definition float_pow (iv iw : float) : outcome float :=
  if float_is_zero iw then Return one
  else if float_is_nan iv then Return iv
  else if float_is_nan iw then Return (if SFeqb iv one then one else iw)
  else if float_is_inf iw then
    let a := SFabs iv in
    if SFeqb a one then Return one
    else if Bool.eqb (SFltb pos_zero iw) (SFltb one a) then Return (SFabs iw)
    else Return pos_zero
  else if float_is_inf iv then
    if SFltb pos_zero iw
    then Return (if is_odd_integer iw then iv else SFabs iv)
    else Return (if is_odd_integer iw then S754_zero (float_sign iv) else pos_zero)
  else if float_is_zero iv then
    if SFltb iw pos_zero
    then Raise ZeroDivisionError     (* 0.0 cannot be raised to a negative power *)
    else Return (if is_odd_integer iw then iv else pos_zero)
  else if SFltb iv pos_zero then
    if negb (SFeqb iw (ffloor iw)) then Unmodelled             (* a complex number *)
    else if SFeqb (SFopp iv) one
    then Return (if is_odd_integer iw then SFopp one else one)
    else call_pow (is_odd_integer iw) (SFopp iv) iw
  else if SFeqb iv one then Return one
  else call_pow false iv iw.

Definition float_binop (op : operator) (a b : float) : outcome float :=
  match op with
  | Add => Return (fadd a b)
  | Sub => Return (fsub a b)
  | Mult => Return (fmul a b)
  | Div =>
      if float_is_zero b then Raise ZeroDivisionError   (* float division by zero *)
      else Return (fdiv a b)
  | FloorDiv => float_floor_div a b
  | Mod => float_rem a b
  | Pow => float_pow a b
  end.

(** [int] with [int]: exact, except [/], which returns the double nearest
    to the quotient. *)
Definition int_binop (op : operator) (a b : Z) : outcome value :=
  match op with
  | Add => Return (PyInt (a + b))
  | Sub => Return (PyInt (a - b))
  | Mult => Return (PyInt (a * b))
  | Div =>
      if b =? 0 then Raise ZeroDivisionError            (* division by zero *)
      else
        match round_ratio (xorb (a <? 0) (b <? 0)) (Z.abs a) (Z.abs b) with
        | S754_infinity _ => Raise OverflowError        (* integer division result too large for a float *)
        | x => Return (PyFloat x)
        end
  | FloorDiv =>
      if b =? 0 then Raise ZeroDivisionError            (* integer division or modulo by zero *)
      else Return (PyInt (a / b))
  | Mod =>
      if b =? 0 then Raise ZeroDivisionError            (* integer modulo by zero *)
      else Return (PyInt (a mod b))
  | Pow =>
      if b <? 0 then
        x <- float_of_int a ;; y <- float_of_int b ;;
        z <- float_pow x y ;; Return (PyFloat z)
      else Return (PyInt (a ^ b))
  end.

(** [CONVERT_TO_DOUBLE]. *)
Definition as_float (v : value) : outcome float :=
  match v with
  | PyInt n => float_of_int n
  | PyFloat x => Return x
  | PyEllipsis => Raise TypeError
  end.

Definition binary_op (op : operator) (v w : value) : outcome value :=
  match v, w with
  | PyEllipsis, _ | _, PyEllipsis => Raise TypeError   (* unsupported operand type(s) *)
  | PyInt a, PyInt b => int_binop op a b
  | _, _ =>
      x <- as_float v ;; y <- as_float w ;;
      z <- float_binop op x y ;; Return (PyFloat z)
  end.

Definition unary_op (op : unaryop) (v : value) : outcome value :=
  match v, op with
  | PyEllipsis, _ => Raise TypeError                    (* bad operand type for unary *)
  | PyInt n, UAdd => Return (PyInt n)
  | PyInt n, USub => Return (PyInt (- n))
  | PyFloat x, UAdd => Return (PyFloat x)
  | PyFloat x, USub => Return (PyFloat (SFopp x))
  end.

(** Operands are evaluated from the left; the first exception wins. *)
Fixpoint eval_expr (e : expr) : outcome value :=
  match e with
  | Constant v => Return v
  | Name id =>
      if str_eqb id Ellipsis_name then Return PyEllipsis
      else Raise NameError
  | Attribute e' _ => _ <- eval_expr e' ;; Raise AttributeError
  | UnaryOp op e' => v <- eval_expr e' ;; unary_op op v
  | BinOp l op r => v <- eval_expr l ;; w <- eval_expr r ;; binary_op op v w
  end.

(** [eval(source)]. *)
Definition py_eval (source : str) : outcome value :=
  e <- py_compile source ;; eval_expr e.

(** ** The calculator *)

(** [self.expression] and the text of the display label. *)
Record Calculator : Type := {
  expression : str;
  display : str
}.

(** The texts [messagebox.showerror("Error", ...)] is called with. *)
Inductive message : Type :=
| DivisionByZeroIsNotAllowed     (* "Division by zero is not allowed!" *)
| CannotDivideByZero             (* "Cannot divide by zero!" *)
| InvalidExpressionCheckInput    (* "Invalid expression! Please check your input." *)
| AnErrorOccurred (e : exn).     (* f"An error occurred: {str(e)}" *)

(** The error classes of the specification. *)
Inductive error_class : Type :=
| DivisionByZero
| InvalidExpression
| EvaluationError.

Definition classify (m : message) : error_class :=
  match m with
  | DivisionByZeroIsNotAllowed | CannotDivideByZero => DivisionByZero
  | InvalidExpressionCheckInput => InvalidExpression
  | AnErrorOccurred _ => EvaluationError
  end.

Definition update_display (self : Calculator) : Calculator :=
  {| expression := expression self;
     display := match expression self with
                | [] => [Digit D0]
                | _ => expression self
                end |}.

Definition set_expression (self : Calculator) (s : str) : Calculator :=
  {| expression := s; display := display self |}.

Definition append_to_expression (self : Calculator) (value : str) : Calculator :=
  update_display (set_expression self (expression self ++ value)).

Definition clear (self : Calculator) : Calculator :=
  update_display (set_expression self []).

(** [self.expression[:-1]]. *)
Definition backspace (self : Calculator) : Calculator :=
  update_display (set_expression self (removelast (expression self))).

(** [self.expression.replace("÷", "/").replace("×", "*").replace("−", "-")] *)
Definition calculation (self : Calculator) : str :=
  replace MinusSign Hyphen
    (replace TimesSign Star
       (replace DivisionSign Slash (expression self))).

(** The [try] block of [calculate]. *)
Definition calculate_try (self : Calculator) : outcome (Calculator * option message) :=
  result <- py_eval (calculation self) ;;
  ' (self', shown) <-
    match result with
    | PyFloat x =>
        if SFeqb x pos_inf
        then Return (set_expression self [], Some DivisionByZeroIsNotAllowed)
        else
          r <- float_round x 10 ;;
          n <- int_of_float r ;;
          if float_eq_int r n
          then s <- int_str n ;; Return (set_expression self s, None)
          else s <- str_of_float r ;; Return (set_expression self s, None)
    | _ => s <- py_str result ;; Return (set_expression self s, None)
    end ;;
  Return (update_display self', shown).

(** [calculate]: the [except] clauses in their order. *)
Definition calculate (self : Calculator) : outcome (Calculator * option message) :=
  catch (calculate_try self)
    (fun e =>
       let failed (m : message) :=
         Return (update_display (set_expression self []), Some m) in
       if isinstance_exn e ClsZeroDivisionError then failed CannotDivideByZero
       else if isinstance_exn e ClsSyntaxError then failed InvalidExpressionCheckInput
       else if isinstance_exn e ClsException then failed (AnErrorOccurred e)
       else Raise e).

(** The calculator after [Calculator.__init__], and after pressing keys. *)
Definition initial : Calculator := {| expression := []; display := [Digit D0] |}.

Definition press (self : Calculator) (keys : str) : Calculator :=
  fold_left (fun c k => append_to_expression c [k]) keys self.

(** The buttons of [create_buttons]: the keys, whose text is appended to the
    expression, and [C], the backspace arrow and [=]. *)
Inductive button : Type :=
| Key (c : char)
| ButtonClear
| ButtonBackspace
| ButtonEquals.

(** The grid of [create_buttons], row by row. *)
Definition buttons : list (list button) :=
  [[ButtonClear; ButtonBackspace; Key Percent; Key DivisionSign];
   [Key (Digit D7); Key (Digit D8); Key (Digit D9); Key TimesSign];
   [Key (Digit D4); Key (Digit D5); Key (Digit D6); Key MinusSign];
   [Key (Digit D1); Key (Digit D2); Key (Digit D3); Key Plus];
   [Key (Digit D0); Key Dot; ButtonEquals]].

(** The command [create_button] binds to a button, when the C library's
    [pow] is [libm_pow]; the message box of [calculate] is shown and closed. *)
Definition click (libm_pow : float -> float -> float * errno)
    (self : Calculator) (b : button) : outcome Calculator :=
  match b with
  | Key c => Return (append_to_expression self [c])
  | ButtonClear => Return (clear self)
  | ButtonBackspace => Return (backspace self)
  | ButtonEquals => ' (self', _) <- run libm_pow (calculate self) ;; Return self'
  end.

(** A session: the buttons clicked one after the other. *)
Fixpoint session (libm_pow : float -> float -> float * errno)
    (self : Calculator) (bs : list button) : outcome Calculator :=
  match bs with
  | [] => Return self
  | b :: bs' => self' <- click libm_pow self b ;; session libm_pow self' bs'
  end.

(** A [pow] that overflows, as the C library's does on [10.0 ** 400]: the
    result is [HUGE_VAL] and [errno] is [ERANGE]. *)
Definition overflowing_pow (x y : float) : float * errno :=
  (S754_infinity false, ERANGE).

(** * Definitions of the specification *)

(** ** What the specification calls the formatted result

    A definition after the words of the specification: an integer is written
    as it is; a decimal result is rounded to 10 places and written without a
    decimal point when the rounded value is a whole number, by [str]
    otherwise. *)
Definition formatted (v : value) : outcome str :=
  match v with
  | PyInt n => Return (str_of_int n)
  | PyFloat x =>
      r <- float_round x 10 ;;
      n <- int_of_float r ;;
      if float_eq_int r n then Return (str_of_int n) else str_of_float r
  | PyEllipsis => Return Ellipsis_name
  end.

(** What lines 188 to 196 write for a result: [formatted], through the [str]
    of the code and its digit limit. *)
Definition result_text (v : value) : outcome str :=
  match v with
  | PyFloat x =>
      r <- float_round x 10 ;;
      n <- int_of_float r ;;
      if float_eq_int r n then int_str n else str_of_float r
  | _ => py_str v
  end.

(** The calculator showing [s]. *)
Definition showing (s : str) : Calculator :=
  update_display {| expression := s; display := [] |}.

Definition reset : Calculator := showing [].

(** ** Numerals *)

Fixpoint digits_of_uint (u : Decimal.uint) : list digit :=
  match u with
  | Decimal.Nil => []
  | Decimal.D0 u' => D0 :: digits_of_uint u'
  | Decimal.D1 u' => D1 :: digits_of_uint u'
  | Decimal.D2 u' => D2 :: digits_of_uint u'
  | Decimal.D3 u' => D3 :: digits_of_uint u'
  | Decimal.D4 u' => D4 :: digits_of_uint u'
  | Decimal.D5 u' => D5 :: digits_of_uint u'
  | Decimal.D6 u' => D6 :: digits_of_uint u'
  | Decimal.D7 u' => D7 :: digits_of_uint u'
  | Decimal.D8 u' => D8 :: digits_of_uint u'
  | Decimal.D9 u' => D9 :: digits_of_uint u'
  end.

(** A natural number as it is typed, without leading zeros. *)
Definition numeral (n : N) : str := chars_of_uint (N.to_uint n).

Definition starts_with_digit (s : str) : bool :=
  match s with Digit _ :: _ => true | _ => false end.

(** A numeral followed by nothing, or by something that is neither a digit,
    a dot nor a letter, is one integer token. *)
Definition ends_number (r : str) : bool :=
  match r with
  | [] => true
  | c :: _ =>
      match c with
      | Digit _ | Dot => false
      | _ => negb (is_letter c)
      end
  end.

(** ** Well-formed expressions

    An expression in the usual reading: a sum of terms, each term a chain of
    operands joined by [×], [÷] or [%].  The grouping into terms is what
    "[×], [÷], [%] bind before [+] and [−]" means, and the left-to-right
    folds below are what "associate left-to-right" means.  An operand is
    typed as digits, or as digits, a point and digits. *)

Inductive operand : Type :=
| Whole (ip : list digit)
| Decimal (ip fp : list digit).

(** The operand typed for a natural number, without leading zeros. *)
Definition natural (n : N) : operand := Whole (digits_of_uint (N.to_uint n)).

Definition operand_text (o : operand) : str :=
  match o with
  | Whole ip => map Digit ip
  | Decimal ip fp => map Digit ip ++ Dot :: map Digit fp
  end.

(** There are digits on each side of the point. *)
Definition written (o : operand) : bool :=
  match o with
  | Whole (_ :: _) => true
  | Decimal (_ :: _) (_ :: _) => true
  | _ => false
  end.

(** The operands Python reads: a decimal, or a whole number that is zero or
    has no leading zero and no more digits than [int] converts. *)
Definition accepted (o : operand) : bool :=
  match o with
  | Whole ip =>
      leading_zeros_ok ip
      && match ip with
         | D0 :: _ => true
         | _ => Z.of_nat (length ip) <=? max_str_digits
         end
  | Decimal _ _ => true
  end.

(** The value of an operand as a literal of Python. *)
Definition operand_value (o : operand) : value :=
  match o with
  | Whole ip => PyInt (digits_value ip)
  | Decimal ip fp =>
      PyFloat (float_of_decimal false (digits_value (ip ++ fp))
                 (- Z.of_nat (length fp)))
  end.

Definition operand_int (o : operand) : option Z :=
  match o with
  | Whole ip => Some (digits_value ip)
  | Decimal _ _ => None
  end.

Inductive mulop : Type := MulOp | DivOp | ModOp.
Inductive addop : Type := AddOp | SubOp.

Definition term : Type := (operand * list (mulop * operand))%type.
Definition sum : Type := (term * list (addop * term))%type.

Definition term_operands (t : term) : list operand := fst t :: map snd (snd t).

Definition operands (s : sum) : list operand :=
  term_operands (fst s) ++ flat_map (fun p => term_operands (snd p)) (snd s).

Section Rendering.

(** The character of each operator: the buttons, or their ASCII form. *)
Variable mul_char : mulop -> char.
Variable add_char : addop -> char.

Definition render_term_with (t : term) : str :=
  operand_text (fst t)
    ++ flat_map (fun p => mul_char (fst p) :: operand_text (snd p)) (snd t).

Definition render_with (s : sum) : str :=
  render_term_with (fst s)
    ++ flat_map (fun p => add_char (fst p) :: render_term_with (snd p)) (snd s).

End Rendering.

Definition mulop_button (o : mulop) : char :=
  match o with MulOp => TimesSign | DivOp => DivisionSign | ModOp => Percent end.

Definition addop_button (o : addop) : char :=
  match o with AddOp => Plus | SubOp => MinusSign end.

(** The expression as the buttons type it. *)
Definition render : sum -> str := render_with mulop_button addop_button.

Definition mulop_operator (o : mulop) : operator :=
  match o with MulOp => Mult | DivOp => Div | ModOp => Mod end.

Definition addop_operator (o : addop) : operator :=
  match o with AddOp => Add | SubOp => Sub end.

Definition number (o : operand) : expr := Constant (operand_value o).

(** The syntax tree of the usual reading. *)
Definition term_tree (t : term) : expr :=
  fold_left (fun e p => BinOp e (mulop_operator (fst p)) (number (snd p)))
            (snd t) (number (fst t)).

Definition sum_tree (s : sum) : expr :=
  fold_left (fun e p => BinOp e (addop_operator (fst p)) (term_tree (snd p)))
            (snd s) (term_tree (fst s)).

(** The exact value of an expression built from whole numbers with [+], [−]
    and [×]; [None] when it holds a decimal, [÷] or [%]. *)
Definition term_value (t : term) : option Z :=
  fold_left (fun v p => match v, fst p, operand_int (snd p) with
                        | Some x, MulOp, Some y => Some (x * y)
                        | _, _, _ => None
                        end)
            (snd t) (operand_int (fst t)).

Definition sum_value (s : sum) : option Z :=
  fold_left (fun v p => match v, term_value (snd p), fst p with
                        | Some x, Some y, AddOp => Some (x + y)
                        | Some x, Some y, SubOp => Some (x - y)
                        | _, _, _ => None
                        end)
            (snd s) (term_value (fst s)).

(** The operators a scan of the keys meets, and the sum of terms that the
    operands between them make: [×], [÷] and [%] extend the term at hand,
    [+] and [−] start the next one. *)
Definition operator_of_key (c : char) : option (mulop + addop) :=
  match c with
  | TimesSign => Some (inl MulOp)
  | DivisionSign => Some (inl DivOp)
  | Percent => Some (inl ModOp)
  | Plus => Some (inr AddOp)
  | MinusSign => Some (inr SubOp)
  | _ => None
  end.

Definition grouped (first : operand) (rest : list ((mulop + addop) * operand)) : sum :=
  let step (p : (mulop + addop) * operand)
           (acc : list (mulop * operand) * list (addop * term)) :=
    match fst p with
    | inl m => ((m, snd p) :: fst acc, snd acc)
    | inr a => ([], (a, (snd p, fst acc)) :: snd acc)
    end in
  let acc := fold_right step ([], []) rest in
  ((first, fst acc), snd acc).

(** The text of operands and the keys between them, as typed. *)
Definition key_of_operator (o : mulop + addop) : char :=
  match o with inl m => mulop_button m | inr a => addop_button a end.

Definition typed (first : operand) (rest : list ((mulop + addop) * operand)) : str :=
  operand_text first
    ++ flat_map (fun p => key_of_operator (fst p) :: operand_text (snd p)) rest.

Definition to_ascii (c : char) : char :=
  match c with
  | MinusSign => Hyphen
  | TimesSign => Star
  | DivisionSign => Slash
  | _ => c
  end.

Definition mulop_ascii (o : mulop) : char := to_ascii (mulop_button o).
Definition addop_ascii (o : addop) : char := to_ascii (addop_button o).

Definition mulop_token (o : mulop) : token :=
  match o with MulOp => STAR | DivOp => SLASH | ModOp => PERCENT end.

Definition addop_token (o : addop) : token :=
  match o with AddOp => PLUS | SubOp => MINUS end.

Definition number_token (o : operand) : token := NUMBER (operand_value o).

Definition term_tokens (t : term) : list token :=
  number_token (fst t)
    :: flat_map (fun p => [mulop_token (fst p); number_token (snd p)]) (snd t).

Definition sum_tokens (s : sum) : list token :=
  term_tokens (fst s)
    ++ flat_map (fun p => addop_token (fst p) :: term_tokens (snd p)) (snd s).

(** [s] tokenizes to [ts] with any fuel above its length; [s] is rejected
    by the tokenizer with any such fuel. *)
Definition tokenizes (s : str) (ts : list token) : Prop :=
  forall fuel : nat, (length s < fuel)%nat -> tokenize fuel s = Return ts.

Definition rejected (s : str) : Prop :=
  forall fuel : nat, (length s < fuel)%nat -> tokenize fuel s = Raise SyntaxError.

(** What may follow an atom that ends a factor. *)
Definition ends_atom (r : list token) : bool :=
  match r with
  | DOUBLESTAR :: _ | DOT :: _ => false
  | _ => true
  end.

(** What may follow a term: nothing, or [+] or [-]. *)
Definition ends_term (r : list token) : bool :=
  match r with
  | [] | PLUS :: _ | MINUS :: _ => true
  | _ => false
  end.

Definition mul_tokens (l : list (mulop * operand)) : list token :=
  flat_map (fun p => [mulop_token (fst p); number_token (snd p)]) l.

Definition add_tokens (l : list (addop * term)) : list token :=
  flat_map (fun p => addop_token (fst p) :: term_tokens (snd p)) l.

(** ** Division by zero *)

Definition is_zero (v : value) : bool :=
  match v with
  | PyInt 0 => true
  | PyFloat (S754_zero _) => true
  | _ => false
  end.

(** The dividend is a number that reaches the division: two ints are
    divided as ints; otherwise the dividend is, or converts to, a double. *)
Definition dividend_converts (v w : value) : bool :=
  match v, w with
  | PyEllipsis, _ => false
  | PyInt _, PyInt _ => true
  | _, _ => match as_float v with Return _ => true | _ => false end
  end.

(** The evaluation of an expression reaches an application of [op] whose
    right operand is zero, nothing having been raised before. *)
Inductive reaches_zero_divisor (op : operator) : expr -> Prop :=
| zero_divisor_here (a b : expr) (va vb : value) :
    eval_expr a = Return va -> eval_expr b = Return vb ->
    is_zero vb = true -> dividend_converts va vb = true ->
    reaches_zero_divisor op (BinOp a op b)
| zero_divisor_left (a b : expr) (o : operator) :
    reaches_zero_divisor op a -> reaches_zero_divisor op (BinOp a o b)
| zero_divisor_right (a b : expr) (o : operator) (va : value) :
    eval_expr a = Return va -> reaches_zero_divisor op b ->
    reaches_zero_divisor op (BinOp a o b)
| zero_divisor_operand (a : expr) (o : unaryop) :
    reaches_zero_divisor op a -> reaches_zero_divisor op (UnaryOp o a)
| zero_divisor_object (a : expr) (attr : str) :
    reaches_zero_divisor op a -> reaches_zero_divisor op (Attribute a attr).

(** A text of digits, with at most a sign and a decimal point: no exponent. *)
Definition plain_decimal (s : str) : bool :=
  forallb (fun c => match c with Digit _ | Dot | Hyphen => true | _ => false end) s.

(** ** Tokens that end an operand *)

(** The tokens an operand can end with; every other token is an operator or
    a dot, after which the grammar expects more. *)
Definition atom_end (t : token) : bool :=
  match t with
  | NUMBER _ | NAME _ | ELLIPSIS => true
  | _ => false
  end.

(** A parser that read [ts] down to [r] stopped behind an [atom_end]. *)
Definition consumes (ts r : list token) : Prop :=
  exists pre t, ts = pre ++ t :: r /\ atom_end t = true.

(** A step of [compile] that, given enough fuel, returns or raises
    [SyntaxError]. *)
Definition syntactic {A : Type} (m : outcome A) : Prop :=
  match m with
  | Return _ => True
  | Raise e => e = SyntaxError
  | Unmodelled | CallPow _ _ _ => False
  end.

(** ** Typed texts *)

(** The characters of the buttons. *)
Definition is_key (c : char) : bool :=
  match c with
  | Digit _ | Dot | Plus | Percent | MinusSign | TimesSign | DivisionSign => true
  | _ => false
  end.

(** The five operator buttons. *)
Definition is_operator_key (c : char) : bool :=
  match c with
  | Plus | Percent | MinusSign | TimesSign | DivisionSign => true
  | _ => false
  end.

(** What the buttons become in [calculation]. *)
Definition is_plain (c : char) : bool :=
  match c with
  | Digit _ | Dot | Plus | Percent | Hyphen | Star | Slash => true
  | _ => false
  end.

Definition is_plain_operator (c : char) : bool :=
  match c with
  | Plus | Percent | Hyphen | Star | Slash => true
  | _ => false
  end.

(** The text ends with an operator; the tokens end with an operator or a dot. *)
Definition op_last (s : str) : bool := is_plain_operator (last s Dot).
Definition tok_last (ts : list token) : bool := negb (atom_end (last ts ELLIPSIS)).

(** The text starts a number literal. *)
Definition number_start (s : str) : bool :=
  match s with
  | Digit _ :: _ | Dot :: Digit _ :: _ => true
  | _ => false
  end.

(** What [tokenize] owes on a plain text [s]: no keyword [is], and an
    operator at the end of the tokens when one ends the text. *)
Definition tokenize_ok (s : str) (m : outcome (list token)) : Prop :=
  match m with
  | Return ts =>
      existsb is_kw_is ts = false /\ (op_last s = true -> tok_last ts = true)
  | Raise e => e = SyntaxError
  | Unmodelled | CallPow _ _ _ => False
  end.

(** ** Well-formed typed texts *)

(** Where a scan of a typed text stands: before an operand, inside its
    integer part, behind its decimal point, inside its fraction. *)
Inductive scan_state : Type := BeforeOperand | InInteger | BehindPoint | InFraction.

(** Operands ([digits] or [digits.digits]) and operator keys alternate,
    starting and ending with an operand. *)
Fixpoint scan (st : scan_state) (s : str) : bool :=
  match s with
  | [] => match st with InInteger | InFraction => true | _ => false end
  | Digit _ :: r =>
      scan (match st with
            | BeforeOperand | InInteger => InInteger
            | BehindPoint | InFraction => InFraction
            end) r
  | Dot :: r => match st with InInteger => scan BehindPoint r | _ => false end
  | c :: r =>
      is_operator_key c
      && match st with InInteger | InFraction => scan BeforeOperand r | _ => false end
  end.

Definition well_formed (s : str) : bool := scan BeforeOperand s.

(** The operands of a typed text and the operators between them, read by
    the same scan: [ip] and [fp] are the digits of the operand at hand. *)
Fixpoint read (st : scan_state) (ip fp : list digit) (s : str)
  : option (operand * list ((mulop + addop) * operand)) :=
  match s with
  | [] =>
      match st with
      | InInteger => Some (Whole ip, [])
      | InFraction => Some (Decimal ip fp, [])
      | _ => None
      end
  | Digit d :: r =>
      match st with
      | BeforeOperand => read InInteger [d] [] r
      | InInteger => read InInteger (ip ++ [d]) [] r
      | BehindPoint => read InFraction ip [d] r
      | InFraction => read InFraction ip (fp ++ [d]) r
      end
  | Dot :: r => match st with InInteger => read BehindPoint ip [] r | _ => None end
  | c :: r =>
      match operator_of_key c with
      | Some op =>
          match st, read BeforeOperand [] [] r with
          | InInteger, Some (o, rest) => Some (Whole ip, (op, o) :: rest)
          | InFraction, Some (o, rest) => Some (Decimal ip fp, (op, o) :: rest)
          | _, _ => None
          end
      | None => None
      end
  end.

(** The usual reading of a typed text. *)
Definition reading (s : str) : option sum :=
  match read BeforeOperand [] [] s with
  | Some (first, rest) => Some (grouped first rest)
  | None => None
  end.

(** [p] holds the operands of [text], each with its digits, and the
    operators between them. *)
Definition reads (p : option (operand * list ((mulop + addop) * operand)))
    (text : str) : Prop :=
  exists first rest,
    p = Some (first, rest) /\ text = typed first rest /\
    forallb written (first :: map snd rest) = true.

(** ** Rounding intervals and digit strings

    The doubles are [m * 2 ^ sh] units of [2 ^ -1074] with [m] below
    [2 ^ 53], and [m] at least [2 ^ 52] unless [sh] is zero (a subnormal). *)
Definition normal (m sh : Z) : Prop :=
  0 <= sh /\ 0 <= m < 2 ^ 53 /\ (sh = 0 \/ 2 ^ 52 <= m).

(** Four times the lower end of the rounding interval of [m * 2 ^ sh], in
    units of [2 ^ sh]: the double below is half as far when [m] is the least
    significand of its binade. *)
Definition lower_quarter (m sh : Z) : Z :=
  if (m =? 2 ^ 52) && (0 <? sh) then 4 * m - 1 else 4 * m - 2.

(** [n / d] units lie in the rounding interval of [m * 2 ^ sh] units: at most
    half a gap away, and less than that when [m] is odd. *)
Definition within (m sh n d : Z) : Prop :=
  (lower_quarter m sh * (d * 2 ^ sh) <= 4 * n <= (4 * m + 2) * (d * 2 ^ sh)) /\
  (Z.even m = false ->
   lower_quarter m sh * (d * 2 ^ sh) < 4 * n < (4 * m + 2) * (d * 2 ^ sh)).

(** The same for the number [n / d] and the double [m * 2 ^ e], with the
    integers of [shortest_digits]. *)
Definition in_gap (m e n d : Z) : Prop :=
  (lower_quarter m (e + 1074) * pow2 e * d <= 4 * n * pow2 (- e)
     <= (4 * m + 2) * pow2 e * d) /\
  (Z.even m = false ->
   lower_quarter m (e + 1074) * pow2 e * d < 4 * n * pow2 (- e)
     < (4 * m + 2) * pow2 e * d).

Definition is_digit (d : Z) : Prop := 0 <= d <= 9.

(** The number written by digits given last first. *)
Fixpoint racc_value (racc : list Z) : Z :=
  match racc with
  | [] => 0
  | d :: r => d + 10 * racc_value r
  end.

(** What the digit loop returns: [i] more digits, all decimal, whose number
    (one more when the loop left through [round_9_up]) lies within [mlo]
    below and [mhi] above the value, strictly unless the significand is
    even. *)
Definition loop_result (even : bool) (b S mlo mhi : Z) (acc : list Z)
    (res : list Z * bool) : Prop :=
  exists i : Z,
    0 <= i /\
    Forall is_digit (fst res) /\
    Z.of_nat (length (fst res)) = Z.of_nat (length acc) + 1 + i /\
    let V := racc_value (fst res) + (if snd res then 1 else 0) in
    let T := 10 * racc_value acc * S + b in
    ((T - mlo) * 10 ^ i <= V * S <= (T + mhi) * 10 ^ i) /\
    (even = false -> (T - mlo) * 10 ^ i < V * S < (T + mhi) * 10 ^ i).

(** [abs(x) >= 0.0001], exactly. *)
Definition ten_thousandth_or_more (x : float) : bool :=
  match x with
  | S754_finite _ m e => pow2 (- e) <=? Zpos m * pow2 e * 10 ^ 4
  | S754_infinity _ => true
  | _ => false
  end.

(** A decimal written out with no superfluous zero: at most a sign, digits,
    a point, and digits of which the last is not a zero. *)
Definition trimmed_decimal (s : str) : bool :=
  let body := match s with Hyphen :: r => r | _ => s end in
  let '(ip, r1) := span_digits body in
  match ip, r1 with
  | _ :: _, Dot :: r =>
      let '(fp, r2) := span_digits r in
      match r2 with
      | [] => negb (digit_value (last fp D0) =? 0)
      | _ => false
      end
  | _, _ => false
  end.

(** ** Every run of an outcome

    [always P Q m]: whatever the C library answers, [m] ends by returning a
    value that satisfies [P] or by raising an exception that satisfies [Q];
    it does not leave the model. *)
Fixpoint always {A : Type} (P : A -> Prop) (Q : exn -> Prop) (m : outcome A) : Prop :=
  match m with
  | Return a => P a
  | Raise e => Q e
  | Unmodelled => False
  | CallPow _ _ k => forall r, always P Q (k r)
  end.

(** A number that is not below zero, as every literal is. *)
Definition nonneg (v : value) : bool :=
  match v with
  | PyInt n => 0 <=? n
  | PyFloat x => negb (SFltb x pos_zero)
  | PyEllipsis => true
  end.

Definition literal_token (t : token) : bool :=
  match t with NUMBER v => nonneg v | _ => true end.

(** What the grammar puts to the left of [**]: a primary. *)
Definition pow_base (e : expr) : bool :=
  match e with
  | Constant v => nonneg v
  | Name _ | Attribute _ _ => true
  | _ => false
  end.

(** The trees the parser builds from literal tokens: the base of a power
    is a primary. *)
Fixpoint well_parsed (e : expr) : bool :=
  match e with
  | Constant _ | Name _ => true
  | Attribute a _ | UnaryOp _ a => well_parsed a
  | BinOp a op b =>
      well_parsed a && well_parsed b
      && match op with Pow => pow_base a | _ => true end
  end.

(** ** The expressions of a session *)

Definition on_keypad (b : button) : bool :=
  match b with Key c => is_key c | _ => true end.

Definition no_letter_i (s : str) : bool :=
  forallb (fun c => match c with LowerI => false | _ => true end) s.

(** The texts a session leaves in the expression: texts without the letter
    [i], among them the keys and the numbers [calculate] writes, and what is
    left of [Ellipsis] with keys behind it. *)
Definition expression_ok (s : str) : Prop :=
  no_letter_i s = true \/
  exists (k : nat) (keys : str),
    s = firstn k Ellipsis_name ++ keys /\ forallb is_key keys = true.

(** [r] is what is left of [s] behind a part of it. *)
Definition proper_suffix (s r : str) : Prop :=
  exists pre, s = pre ++ r /\ pre <> [].

(** What [lex_number] owes at the head of [s]: a literal and the rest of the
    text, or a [SyntaxError]. *)
Definition lex_number_good (s : str) (m : outcome (token * str)) : Prop :=
  match m with
  | Return (t, r) =>
      literal_token t = true /\ is_kw_is t = false /\ proper_suffix s r
  | Raise e => e = SyntaxError
  | Unmodelled | CallPow _ _ _ => False
  end.

(** What the tokenizer owes on a text, given fuel above its length. *)
Definition tokenize_good (s : str) (m : outcome (list token)) : Prop :=
  match m with
  | Return ts =>
      forallb literal_token ts = true /\
      (no_letter_i s = true -> existsb is_kw_is ts = false)
  | Raise e => e = SyntaxError
  | Unmodelled | CallPow _ _ _ => False
  end.

(** What [calculate] owes: a result written into the expression, or a
    message and the calculator reset. *)
Definition reported (r : Calculator * option message) : Prop :=
  match snd r with
  | Some _ => fst r = reset
  | None => exists v s, result_text v = Return s /\ fst r = showing s
  end.

(** * Properties *)

(** ** Helper lemmas *)

Lemma bind_Return_inv {A B : Type} (m : outcome A) (k : A -> outcome B) (b : B) :
  bind m k = Return b -> exists a, m = Return a /\ k a = Return b.
Proof.
  destruct m as [a | e | | x y f]; simpl; intros H; try discriminate.
  exists a; split; [reflexivity | exact H].
Qed.

Lemma int_str_Return (n : Z) (s : str) :
  int_str n = Return s ->
  s = str_of_int n /\ Z.of_nat (length (str_of_int (Z.abs n))) <= max_str_digits.
Proof.
  unfold int_str.
  destruct (Z.ltb_spec max_str_digits (Z.of_nat (length (str_of_int (Z.abs n)))));
    intros E; [discriminate |].
  injection E as <-. split; [reflexivity | assumption].
Qed.

Lemma int_str_short (n : Z) :
  Z.of_nat (length (str_of_int (Z.abs n))) <= max_str_digits ->
  int_str n = Return (str_of_int n).
Proof.
  intros H. unfold int_str.
  destruct (Z.ltb_spec max_str_digits (Z.of_nat (length (str_of_int (Z.abs n)))));
    [lia | reflexivity].
Qed.

Lemma result_text_formatted (v : value) (s : str) :
  result_text v = Return s -> formatted v = Return s.
Proof.
  destruct v as [n | x |]; cbn [result_text formatted py_str]; intros H.
  - apply int_str_Return in H. destruct H as [-> _]. reflexivity.
  - apply bind_Return_inv in H. destruct H as [r [Hr H]].
    apply bind_Return_inv in H. destruct H as [n [Hn H]].
    rewrite Hr. cbn [bind]. rewrite Hn. cbn [bind].
    destruct (float_eq_int r n); [| exact H].
    apply int_str_Return in H. destruct H as [-> _]. reflexivity.
  - exact H.
Qed.

Lemma update_display_set (self : Calculator) (s : str) :
  update_display (set_expression self s) = showing s.
Proof. reflexivity. Qed.

Lemma showing_expression (s : str) : expression (showing s) = s.
Proof. reflexivity. Qed.

Lemma showing_display_nonempty (s : str) :
  s <> [] -> display (showing s) = s.
Proof. destruct s; [congruence | reflexivity]. Qed.

(** What [calculate_try] returned, read backwards. *)
Lemma calculate_try_Return_text (self c : Calculator) (shown : option message) :
  calculate_try self = Return (c, shown) ->
  exists v, py_eval (calculation self) = Return v /\
    ((shown = Some DivisionByZeroIsNotAllowed /\ c = reset /\
      exists x, v = PyFloat x /\ SFeqb x pos_inf = true) \/
     (shown = None /\ exists s, result_text v = Return s /\ c = showing s /\
      match v with PyFloat x => SFeqb x pos_inf = false | _ => True end)).
Proof.
  unfold calculate_try. intros H.
  apply bind_Return_inv in H. destruct H as [v [Hv H]].
  exists v. split; [exact Hv |].
  apply bind_Return_inv in H. destruct H as [[c' shown'] [H Hc]].
  injection Hc as Hc Hs. subst c shown'.
  destruct v as [n | x |]; cbn [py_str result_text] in *.
  - apply bind_Return_inv in H. destruct H as [s [Hs H]].
    injection H as H1 H2. subst c' shown. right. split; [reflexivity |].
    exists s. split; [exact Hs | split; [apply update_display_set | exact I]].
  - destruct (SFeqb x pos_inf) eqn:Hinf.
    + injection H as H1 H2. subst c' shown. left.
      split; [reflexivity |]. split; [apply update_display_set |].
      exists x. split; [reflexivity | exact Hinf].
    + apply bind_Return_inv in H. destruct H as [r [Hr H]].
      apply bind_Return_inv in H. destruct H as [n [Hn H]].
      right. rewrite Hr. cbn [bind]. rewrite Hn. cbn [bind].
      destruct (float_eq_int r n).
      * apply bind_Return_inv in H. destruct H as [s [Hs H]].
        injection H as H1 H2. subst c' shown. split; [reflexivity |].
        exists s.
        split; [exact Hs | split; [apply update_display_set | reflexivity]].
      * apply bind_Return_inv in H. destruct H as [s [Hs H]].
        injection H as H1 H2. subst c' shown. split; [reflexivity |].
        exists s.
        split; [exact Hs | split; [apply update_display_set | reflexivity]].
  - cbn [bind] in H.
    injection H as H1 H2. subst c' shown. right. split; [reflexivity |].
    exists Ellipsis_name.
    split; [reflexivity | split; [apply update_display_set | exact I]].
Qed.

Lemma calculate_try_Return (self c : Calculator) (shown : option message) :
  calculate_try self = Return (c, shown) ->
  exists v, py_eval (calculation self) = Return v /\
    ((shown = Some DivisionByZeroIsNotAllowed /\ c = reset /\
      exists x, v = PyFloat x /\ SFeqb x pos_inf = true) \/
     (shown = None /\ exists s, formatted v = Return s /\ c = showing s /\
      match v with PyFloat x => SFeqb x pos_inf = false | _ => True end)).
Proof.
  intros H. apply calculate_try_Return_text in H.
  destruct H as [v [Hv [H | (Hn & s & Hs & Hc & Hm)]]].
  - exists v. split; [exact Hv | left; exact H].
  - exists v. split; [exact Hv | right].
    split; [exact Hn |]. exists s.
    split; [apply result_text_formatted, Hs | split; assumption].
Qed.

(** What [calculate] does with an exception of the [try] block. *)
Lemma calculate_Raise (self : Calculator) (e : exn) :
  calculate_try self = Raise e ->
  calculate self =
    Return (reset,
            Some (match e with
                  | ZeroDivisionError => CannotDivideByZero
                  | SyntaxError => InvalidExpressionCheckInput
                  | _ => AnErrorOccurred e
                  end)).
Proof.
  intros H. unfold calculate. rewrite H.
  destruct e; reflexivity.
Qed.

Lemma calculate_try_Raise (self : Calculator) (e : exn) :
  py_eval (calculation self) = Raise e -> calculate_try self = Raise e.
Proof. intros H. unfold calculate_try. rewrite H. reflexivity. Qed.

Lemma calculate_Return (self c : Calculator) (shown : option message) :
  calculate_try self = Return (c, shown) -> calculate self = Return (c, shown).
Proof. intros H. unfold calculate. rewrite H. reflexivity. Qed.

(** Every way [calculate] can end without a call to the C library. *)
Lemma calculate_cases (self : Calculator) :
  (exists c shown, calculate_try self = Return (c, shown) /\
                   calculate self = Return (c, shown)) \/
  (exists e, calculate_try self = Raise e /\
             exists m, calculate self = Return (reset, Some m)) \/
  ((forall r, calculate_try self <> Return r) /\
   forall r, calculate self <> Return r).
Proof.
  destruct (calculate_try self) as [[c shown] | e | | x y f] eqn:H.
  - left. exists c, shown. split; [reflexivity | apply calculate_Return, H].
  - right. left. exists e. split; [reflexivity |].
    eexists. apply calculate_Raise, H.
  - right. right. split; [discriminate |]. unfold calculate. rewrite H. discriminate.
  - right. right. split; [discriminate |]. unfold calculate. rewrite H. discriminate.
Qed.

Lemma calculate_success (self c : Calculator) :
  calculate self = Return (c, None) -> calculate_try self = Return (c, None).
Proof.
  intros H. unfold calculate in H.
  destruct (calculate_try self) as [r | e | | x y f]; [exact H | | discriminate | discriminate].
  destruct e; discriminate.
Qed.

Lemma press_cons (k : char) (keys : str) (self : Calculator) :
  press self (k :: keys) = press (append_to_expression self [k]) keys.
Proof. reflexivity. Qed.

Lemma press_expression (keys : str) (self : Calculator) :
  expression (press self keys) = expression self ++ keys.
Proof.
  revert self. induction keys as [| k keys IH]; intros self.
  - symmetry. apply app_nil_r.
  - rewrite press_cons, IH. simpl. rewrite <- app_assoc. reflexivity.
Qed.

Lemma press_showing (keys s : str) : press (showing s) keys = showing (s ++ keys).
Proof.
  revert s. induction keys as [| k keys IH]; intros s.
  - rewrite app_nil_r. reflexivity.
  - rewrite press_cons.
    change (append_to_expression (showing s) [k]) with (showing (s ++ [k])).
    rewrite IH, <- app_assoc. reflexivity.
Qed.

Lemma press_initial (keys : str) : press initial keys = showing keys.
Proof. apply (press_showing keys []). Qed.

Lemma chars_of_uint_nonempty (u : Decimal.uint) :
  u <> Decimal.Nil -> chars_of_uint u <> [].
Proof. destruct u; simpl; congruence. Qed.

Lemma str_of_int_nonempty (n : Z) : str_of_int n <> [].
Proof.
  destruct n as [| p | p]; simpl; try discriminate.
  apply chars_of_uint_nonempty, DecimalPos.Unsigned.to_uint_nonnil.
Qed.

Lemma dtoa_loop_nonempty (fuel : nat) (even : bool) (b S mlo mhi : Z) (acc : list Z) :
  fst (dtoa_loop fuel even b S mlo mhi acc) <> [].
Proof.
  revert b mlo mhi acc. induction fuel as [| f IH]; intros b mlo mhi acc; simpl;
    repeat match goal with
           | |- context [if ?c then _ else _] => destruct c
           | |- context [match ?c with Eq => _ | Lt => _ | Gt => _ end] => destruct c
           end; simpl; try discriminate; apply IH.
Qed.

Lemma roundoff_nonempty (racc : list Z) : fst (roundoff racc) <> [].
Proof.
  induction racc as [| d r IH]; simpl; [discriminate |].
  destruct (d =? 9); [exact IH | discriminate].
Qed.

Lemma rev_nonempty {A : Type} (l : list A) : l <> [] -> rev l <> [].
Proof.
  destruct l as [| a l]; [congruence |]. intros _ H.
  apply (f_equal (@length A)) in H. rewrite length_rev in H. discriminate.
Qed.

Lemma shortest_digits_nonempty (m : positive) (e : Z) :
  fst (shortest_digits m e) <> [].
Proof.
  unfold shortest_digits.
  match goal with |- context [dtoa_loop ?f ?ev ?b ?s ?lo ?hi ?acc] =>
    pose proof (dtoa_loop_nonempty f ev b s lo hi acc) as H;
    destruct (dtoa_loop f ev b s lo hi acc) as [racc nine] end.
  simpl in H. destruct nine.
  - pose proof (roundoff_nonempty racc) as H'.
    destruct (roundoff racc) as [racc' carry]. simpl in *.
    apply rev_nonempty, H'.
  - simpl. apply rev_nonempty, H.
Qed.

Lemma float_repr_finite_nonempty (s : bool) (m : positive) (e : Z) :
  float_repr_finite s m e <> [].
Proof.
  unfold float_repr_finite.
  pose proof (shortest_digits_nonempty m e) as H.
  destruct (shortest_digits m e) as [ds decpt]. simpl in H.
  destruct s; [discriminate |].
  destruct ds as [| d ds]; [congruence |]. simpl map.
  destruct ((decpt <=? -4) || (16 <? decpt)); [discriminate |].
  destruct (decpt <=? 0); [discriminate |].
  destruct (decpt <? Z.of_nat (length (d :: ds))).
  - destruct (firstn (Z.to_nat decpt) _); discriminate.
  - discriminate.
Qed.

Lemma formatted_nonempty (v : value) (s : str) :
  formatted v = Return s -> s <> [].
Proof.
  destruct v as [n | x |]; simpl; intros H.
  - injection H as <-. apply str_of_int_nonempty.
  - apply bind_Return_inv in H. destruct H as [r [_ H]].
    apply bind_Return_inv in H. destruct H as [n [_ H]].
    destruct (float_eq_int r n).
    + injection H as <-. apply str_of_int_nonempty.
    + destruct r as [sg | sg | | sg m e]; simpl in H; try discriminate.
      * injection H as <-. destruct sg; discriminate.
      * injection H as <-. apply float_repr_finite_nonempty.
  - injection H as <-. discriminate.
Qed.

(** ** Editing the expression *)

(** C8: [backspace] removes the last character of a non-empty expression;
    on the empty expression it changes nothing and, being a slice, cannot
    raise: the expression stays empty and the display shows [0]. *)
Theorem backspace_removes_last_character :
  (forall (s : str) (c : char) (d : str),
      backspace {| expression := s ++ [c]; display := d |} = showing s) /\
  (forall d : str,
      backspace {| expression := []; display := d |} = reset) /\
  backspace initial = initial.
Proof.
  split; [| split]; try reflexivity.
  intros s c d. unfold backspace. simpl. rewrite removelast_last. reflexivity.
Qed.

(** ** Chaining *)



Lemma chars_of_uint_digits (u : Decimal.uint) :
  chars_of_uint u = map Digit (digits_of_uint u).
Proof. induction u; simpl; congruence. Qed.

Lemma str_of_int_numeral (n : N) : str_of_int (Z.of_N n) = numeral n.
Proof. destruct n; reflexivity. Qed.

Lemma span_digits_app (ds : list digit) (r : str) :
  starts_with_digit r = false ->
  span_digits (map Digit ds ++ r) = (ds, r).
Proof.
  intros Hr. induction ds as [| d ds IH]; simpl.
  - destruct r as [| [] r]; simpl in *; congruence.
  - rewrite IH. reflexivity.
Qed.

Lemma fold_digits_acc (u : Decimal.uint) (acc : positive) :
  fold_left (fun a d => 10 * a + digit_value d) (digits_of_uint u) (Zpos acc)
  = Zpos (Pos.of_uint_acc u acc).
Proof.
  revert acc.
  induction u; intros acc; cbn [digits_of_uint fold_left Pos.of_uint_acc];
    try reflexivity;
    rewrite <- IHu; f_equal; cbn [digit_value]; lia.
Qed.

Lemma digits_value_of_uint (u : Decimal.uint) :
  digits_value (digits_of_uint u) = Z.of_N (Pos.of_uint u).
Proof.
  unfold digits_value.
  induction u; cbn [digits_of_uint fold_left Pos.of_uint]; try reflexivity;
    try exact IHu; apply (fold_digits_acc u).
Qed.

Lemma digits_value_numeral (n : N) :
  digits_value (digits_of_uint (N.to_uint n)) = Z.of_N n.
Proof.
  rewrite digits_value_of_uint.
  change (Pos.of_uint (N.to_uint n)) with (N.of_uint (N.to_uint n)).
  rewrite DecimalN.Unsigned.of_to. reflexivity.
Qed.

Lemma nzhead_not_zero (u : Decimal.uint) :
  match Decimal.nzhead u with Decimal.D0 _ => False | _ => True end.
Proof. induction u; simpl; auto. Qed.

Lemma numeral_no_leading_zero (n : N) :
  leading_zeros_ok (digits_of_uint (N.to_uint n)) = true.
Proof.
  assert (H : N.to_uint n = Decimal.unorm (N.to_uint n)).
  { rewrite <- DecimalN.Unsigned.to_of, DecimalN.Unsigned.of_to. reflexivity. }
  rewrite H. unfold Decimal.unorm.
  pose proof (nzhead_not_zero (N.to_uint n)) as Hz.
  destruct (Decimal.nzhead (N.to_uint n)); simpl; try reflexivity.
  contradiction.
Qed.

(** *** The operand of a natural number *)

Lemma natural_text (n : N) : operand_text (natural n) = numeral n.
Proof. unfold natural, numeral. cbn [operand_text]. symmetry. apply chars_of_uint_digits. Qed.

Lemma numeral_length (n : N) :
  length (numeral n) = length (digits_of_uint (N.to_uint n)).
Proof. unfold numeral. rewrite chars_of_uint_digits. apply length_map. Qed.

Lemma natural_written (n : N) : written (natural n) = true.
Proof.
  unfold natural, written.
  destruct (digits_of_uint (N.to_uint n)) as [| d ds] eqn:E; [| reflexivity].
  exfalso. destruct n as [| p]; [discriminate |].
  simpl in E. pose proof (DecimalPos.Unsigned.to_uint_nonnil p) as Hn.
  destruct (Pos.to_uint p); simpl in E; congruence.
Qed.

Lemma natural_accepted (n : N) :
  Z.of_nat (length (numeral n)) <= max_str_digits -> accepted (natural n) = true.
Proof.
  intros H. rewrite numeral_length in H. unfold natural, accepted.
  rewrite numeral_no_leading_zero. cbn [andb].
  destruct (digits_of_uint (N.to_uint n)) as [| [] ds]; try reflexivity;
    apply Z.leb_le, H.
Qed.

Lemma natural_value (n : N) : operand_value (natural n) = PyInt (Z.of_N n).
Proof. unfold natural. cbn [operand_value]. rewrite digits_value_numeral. reflexivity. Qed.

Lemma natural_int (n : N) : operand_int (natural n) = Some (Z.of_N n).
Proof. unfold natural. cbn [operand_int]. rewrite digits_value_numeral. reflexivity. Qed.

Lemma operand_head (o : operand) :
  written o = true -> exists d r, operand_text o = Digit d :: r.
Proof.
  destruct o as [[| d ip] | [| d ip] fp]; simpl; try discriminate; intros _; eauto.
Qed.

Lemma numeral_head (n : N) : exists d ds, numeral n = Digit d :: ds.
Proof. rewrite <- natural_text. apply operand_head, natural_written. Qed.

(** *** Reading an operand *)

Lemma ends_number_no_digit (r : str) :
  ends_number r = true -> starts_with_digit r = false.
Proof. destruct r as [| [] r]; simpl; congruence. Qed.

(** What [lex_number] makes of a whole number that something other than a
    digit, a point or a letter follows. *)
Lemma lex_number_whole (ip : list digit) (r : str) :
  ends_number r = true ->
  lex_number (map Digit ip ++ r)
  = if leading_zeros_ok ip then
      match ip with
      | D0 :: _ => Return (NUMBER (PyInt (digits_value ip)), r)
      | _ => if max_str_digits <? Z.of_nat (length ip)
             then Raise SyntaxError
             else Return (NUMBER (PyInt (digits_value ip)), r)
      end
    else Raise SyntaxError.
Proof.
  intros Hr. unfold lex_number.
  rewrite span_digits_app by (apply ends_number_no_digit, Hr).
  destruct r as [| c r].
  - cbv beta iota zeta. rewrite app_nil_r. cbn [verify_end_of_number].
    reflexivity.
  - destruct c; simpl in Hr; try discriminate; cbv beta iota zeta;
      rewrite app_nil_r; cbn [verify_end_of_number is_identifier_char is_letter negb];
      reflexivity.
Qed.

Lemma lex_number_decimal (ip fp : list digit) (r : str) :
  ends_number r = true ->
  lex_number (map Digit ip ++ Dot :: map Digit fp ++ r)
  = Return (NUMBER (operand_value (Decimal ip fp)), r).
Proof.
  intros Hr. unfold lex_number.
  rewrite span_digits_app by reflexivity.
  rewrite span_digits_app by (apply ends_number_no_digit, Hr).
  destruct r as [| c r].
  - reflexivity.
  - destruct c; simpl in Hr; try discriminate; reflexivity.
Qed.

Lemma lex_number_operand (o : operand) (r : str) :
  written o = true -> ends_number r = true ->
  lex_number (operand_text o ++ r)
  = if accepted o then Return (number_token o, r) else Raise SyntaxError.
Proof.
  intros Hw Hr. destruct o as [ip | ip fp].
  - cbn [operand_text]. rewrite lex_number_whole by exact Hr.
    unfold accepted, number_token. cbn [operand_value].
    destruct (leading_zeros_ok ip); [| reflexivity]. cbn [andb].
    destruct ip as [| [] ip]; try reflexivity;
      rewrite Z.leb_antisym; destruct (max_str_digits <? _); reflexivity.
  - cbn [operand_text accepted]. rewrite <- app_assoc. cbn [app].
    apply lex_number_decimal, Hr.
Qed.

Lemma lex_number_numeral (n : N) (r : str) :
  Z.of_nat (length (numeral n)) <= max_str_digits ->
  ends_number r = true ->
  lex_number (numeral n ++ r) = Return (NUMBER (PyInt (Z.of_N n)), r).
Proof.
  intros Hn Hr. rewrite <- natural_text.
  rewrite lex_number_operand by (try apply natural_written; exact Hr).
  rewrite natural_accepted by exact Hn.
  unfold number_token. rewrite natural_value. reflexivity.
Qed.

(** *** From buttons to ASCII *)

Lemma calculation_map (self : Calculator) :
  calculation self = map to_ascii (expression self).
Proof.
  unfold calculation, replace. rewrite !map_map.
  apply map_ext. intros c. destruct c as [d | | | | | | | | | | | | | | |];
    try reflexivity.
  destruct d; reflexivity.
Qed.

Lemma to_ascii_digits (ds : list digit) : map to_ascii (map Digit ds) = map Digit ds.
Proof. rewrite map_map. apply map_ext. reflexivity. Qed.

Lemma to_ascii_operand (o : operand) : map to_ascii (operand_text o) = operand_text o.
Proof.
  destruct o as [ip | ip fp]; cbn [operand_text].
  - apply to_ascii_digits.
  - rewrite map_app. cbn [map to_ascii]. rewrite !to_ascii_digits. reflexivity.
Qed.

Lemma to_ascii_numeral (n : N) : map to_ascii (numeral n) = numeral n.
Proof. rewrite <- natural_text. apply to_ascii_operand. Qed.

Lemma to_ascii_render_term (mc : mulop -> char) (t : term) :
  map to_ascii (render_term_with mc t)
  = render_term_with (fun o => to_ascii (mc o)) t.
Proof.
  unfold render_term_with. destruct t as [n l]. simpl fst; simpl snd.
  rewrite map_app, to_ascii_operand. f_equal.
  induction l as [| [o k] l IH]; [reflexivity |].
  cbn [flat_map fst snd]. rewrite map_app. cbn [map].
  rewrite to_ascii_operand, IH. reflexivity.
Qed.

Lemma to_ascii_render (mc : mulop -> char) (ac : addop -> char) (s : sum) :
  map to_ascii (render_with mc ac s)
  = render_with (fun o => to_ascii (mc o)) (fun o => to_ascii (ac o)) s.
Proof.
  unfold render_with. destruct s as [t l]. simpl fst; simpl snd.
  rewrite map_app, to_ascii_render_term. f_equal.
  induction l as [| [o k] l IH]; [reflexivity |].
  cbn [flat_map fst snd]. rewrite map_app. cbn [map].
  rewrite to_ascii_render_term, IH. reflexivity.
Qed.

Lemma calculation_render (s : sum) :
  calculation (showing (render s)) = render_with mulop_ascii addop_ascii s.
Proof. rewrite calculation_map. apply to_ascii_render. Qed.

(** *** Tokens of a well-formed expression *)

Lemma tokenizes_nil : tokenizes [] [].
Proof. intros [| f] H; [inversion H | reflexivity]. Qed.

Lemma tokenize_number (f : nat) (s : str) :
  starts_with_digit s = true ->
  tokenize (S f) s
  = bind (lex_number s)
         (fun x => let '(t, r) := x in ts <- tokenize f r ;; Return (t :: ts)).
Proof. destruct s as [| [] s]; simpl; try discriminate. reflexivity. Qed.

Lemma starts_with_digit_operand (o : operand) (r : str) :
  written o = true -> starts_with_digit (operand_text o ++ r) = true.
Proof. intros H. destruct (operand_head o H) as [d [ds ->]]. reflexivity. Qed.

Lemma operand_text_length (o : operand) :
  written o = true -> (0 < length (operand_text o))%nat.
Proof. intros H. destruct (operand_head o H) as [d [ds ->]]. simpl. lia. Qed.

(** The tokenizer behind an operand: it reads the operand, then the rest. *)
Lemma tokenize_operand (o : operand) (r : str) (f : nat) :
  written o = true -> ends_number r = true ->
  tokenize (S f) (operand_text o ++ r)
  = if accepted o
    then ts <- tokenize f r ;; Return (number_token o :: ts)
    else Raise SyntaxError.
Proof.
  intros Hw Hr.
  rewrite tokenize_number by (apply starts_with_digit_operand, Hw).
  rewrite lex_number_operand by assumption.
  destruct (accepted o); reflexivity.
Qed.

Lemma tokenizes_operand (o : operand) (r : str) (ts : list token) :
  written o = true -> accepted o = true ->
  ends_number r = true -> tokenizes r ts ->
  tokenizes (operand_text o ++ r) (number_token o :: ts).
Proof.
  intros Hw Ha Hr Ht [| f] Hf; [inversion Hf |].
  rewrite tokenize_operand, Ha by assumption.
  rewrite Ht; [reflexivity |].
  pose proof (operand_text_length o Hw). rewrite length_app in Hf. lia.
Qed.

Lemma rejected_operand (o : operand) (r : str) :
  written o = true -> accepted o = false ->
  ends_number r = true -> rejected (operand_text o ++ r).
Proof.
  intros Hw Ha Hr [| f] Hf; [inversion Hf |].
  rewrite tokenize_operand, Ha by assumption. reflexivity.
Qed.

Lemma rejected_behind_operand (o : operand) (r : str) :
  written o = true -> ends_number r = true -> rejected r ->
  rejected (operand_text o ++ r).
Proof.
  intros Hw Hr Ht [| f] Hf; [inversion Hf |].
  rewrite tokenize_operand by assumption.
  destruct (accepted o); [| reflexivity].
  rewrite Ht; [reflexivity |].
  pose proof (operand_text_length o Hw). rewrite length_app in Hf. lia.
Qed.

Lemma tokenize_mulop (o : mulop) (r : str) (f : nat) :
  starts_with_digit r = true ->
  tokenize (S f) (mulop_ascii o :: r)
  = ts <- tokenize f r ;; Return (mulop_token o :: ts).
Proof.
  intros Hr. destruct r as [| [] r]; simpl in Hr; try discriminate.
  destruct o; reflexivity.
Qed.

Lemma tokenize_addop (o : addop) (r : str) (f : nat) :
  tokenize (S f) (addop_ascii o :: r)
  = ts <- tokenize f r ;; Return (addop_token o :: ts).
Proof. destruct o; reflexivity. Qed.

Lemma tokenizes_mulop (o : mulop) (r : str) (ts : list token) :
  starts_with_digit r = true -> tokenizes r ts ->
  tokenizes (mulop_ascii o :: r) (mulop_token o :: ts).
Proof.
  intros Hr Ht [| f] Hf; [inversion Hf |].
  rewrite tokenize_mulop by exact Hr. simpl in Hf.
  rewrite Ht by lia. reflexivity.
Qed.

Lemma rejected_behind_mulop (o : mulop) (r : str) :
  starts_with_digit r = true -> rejected r -> rejected (mulop_ascii o :: r).
Proof.
  intros Hr Ht [| f] Hf; [inversion Hf |].
  rewrite tokenize_mulop by exact Hr. simpl in Hf.
  rewrite Ht by lia. reflexivity.
Qed.

Lemma tokenizes_addop (o : addop) (r : str) (ts : list token) :
  tokenizes r ts -> tokenizes (addop_ascii o :: r) (addop_token o :: ts).
Proof.
  intros Ht [| f] Hf; [inversion Hf |].
  rewrite tokenize_addop. simpl in Hf.
  rewrite Ht by lia. reflexivity.
Qed.

Lemma rejected_behind_addop (o : addop) (r : str) :
  rejected r -> rejected (addop_ascii o :: r).
Proof.
  intros Ht [| f] Hf; [inversion Hf |].
  rewrite tokenize_addop. simpl in Hf.
  rewrite Ht by lia. reflexivity.
Qed.

Lemma ends_number_mulop (o : mulop) (r : str) : ends_number (mulop_ascii o :: r) = true.
Proof. destruct o; reflexivity. Qed.

Lemma ends_number_addop (o : addop) (r : str) : ends_number (addop_ascii o :: r) = true.
Proof. destruct o; reflexivity. Qed.

Lemma tokenizes_term (t : term) (r : str) (ts : list token) :
  forallb written (term_operands t) = true ->
  forallb accepted (term_operands t) = true ->
  ends_number r = true -> tokenizes r ts ->
  tokenizes (render_term_with mulop_ascii t ++ r) (term_tokens t ++ ts).
Proof.
  intros Hw Ha Hr Ht. destruct t as [n l].
  unfold render_term_with, term_tokens, term_operands in *.
  cbn [fst snd] in *. revert n Hw Ha.
  induction l as [| [o k] l IH]; intros n Hw Ha;
    cbn [map forallb snd] in Hw, Ha;
    apply andb_prop in Hw; destruct Hw as [Hw Hws];
    apply andb_prop in Ha; destruct Ha as [Ha Has].
  - cbn [flat_map]. rewrite app_nil_r. apply tokenizes_operand; assumption.
  - cbn [flat_map fst snd]. rewrite <- !app_assoc. cbn [app].
    apply tokenizes_operand; [assumption | assumption | apply ends_number_mulop |].
    apply tokenizes_mulop.
    + apply andb_prop in Hws. apply starts_with_digit_operand, Hws.
    + specialize (IH k Hws Has). rewrite <- app_assoc in IH. exact IH.
Qed.

Lemma forallb_operands (p : operand -> bool) (t : term) (l : list (addop * term)) :
  forallb p (operands (t, l))
  = forallb p (term_operands t)
    && forallb (fun q => forallb p (term_operands (snd q))) l.
Proof.
  unfold operands. cbn [fst snd]. rewrite forallb_app. f_equal.
  induction l as [| q l IH]; [reflexivity |].
  cbn [flat_map forallb]. rewrite forallb_app, IH. reflexivity.
Qed.

Lemma tokenizes_sum (s : sum) :
  forallb written (operands s) = true ->
  forallb accepted (operands s) = true ->
  tokenizes (render_with mulop_ascii addop_ascii s) (sum_tokens s).
Proof.
  destruct s as [t l]. rewrite !forallb_operands.
  unfold render_with, sum_tokens. cbn [fst snd].
  revert t. induction l as [| [o u] l IH]; intros t Hw Ha;
    apply andb_prop in Hw; destruct Hw as [Hw Hws];
    apply andb_prop in Ha; destruct Ha as [Ha Has].
  - cbn [flat_map]. apply tokenizes_term; [exact Hw | exact Ha | reflexivity | apply tokenizes_nil].
  - cbn [flat_map fst snd]. cbn [forallb snd] in Hws, Has.
    apply tokenizes_term; [exact Hw | exact Ha | apply ends_number_addop |].
    apply tokenizes_addop. apply IH; assumption.
Qed.


(** *** The operands and keys of a typed text *)

Lemma grouped_typed (first : operand) (rest : list ((mulop + addop) * operand)) :
  render (grouped first rest) = typed first rest.
Proof.
  unfold render, render_with, render_term_with, grouped, typed. cbn [fst snd].
  rewrite <- app_assoc. f_equal.
  induction rest as [| [[m | a] o] rest IH]; [reflexivity | |];
    cbn [fold_right flat_map fst snd app key_of_operator].
  - rewrite <- !app_assoc. cbn [app]. rewrite IH. reflexivity.
  - rewrite <- !app_assoc. rewrite IH. reflexivity.
Qed.

Lemma grouped_operands (first : operand) (rest : list ((mulop + addop) * operand)) :
  operands (grouped first rest) = first :: map snd rest.
Proof.
  unfold operands, term_operands, grouped. cbn [fst snd app]. f_equal.
  induction rest as [| [[m | a] o] rest IH]; [reflexivity | |];
    cbn [fold_right flat_map map fst snd app].
  - rewrite IH. reflexivity.
  - rewrite IH. reflexivity.
Qed.

Lemma to_ascii_typed (first : operand) (rest : list ((mulop + addop) * operand)) :
  map to_ascii (typed first rest)
  = operand_text first
      ++ flat_map (fun p => to_ascii (key_of_operator (fst p)) :: operand_text (snd p))
                  rest.
Proof.
  unfold typed. rewrite map_app, to_ascii_operand. f_equal.
  induction rest as [| [op o] rest IH]; [reflexivity |].
  cbn [flat_map fst snd]. rewrite map_app. cbn [map].
  rewrite to_ascii_operand, IH. reflexivity.
Qed.

(** An operand that Python does not read makes the tokenizer reject the
    whole text. *)
Lemma rejected_typed (rest : list ((mulop + addop) * operand)) :
  forall first : operand,
    forallb written (first :: map snd rest) = true ->
    forallb accepted (first :: map snd rest) = false ->
    rejected (map to_ascii (typed first rest)).
Proof.
  induction rest as [| [op o] rest IH]; intros first Hw Ha;
    rewrite to_ascii_typed; cbn [map forallb snd] in Hw, Ha;
    apply andb_prop in Hw; destruct Hw as [Hw Hws].
  - cbn [flat_map]. apply rejected_operand; [exact Hw | | reflexivity].
    destruct (accepted first); [discriminate | reflexivity].
  - cbn [flat_map fst snd].
    assert (Hr : ends_number
                   (to_ascii (key_of_operator op)
                      :: operand_text o
                      ++ flat_map (fun p => to_ascii (key_of_operator (fst p))
                                              :: operand_text (snd p)) rest) = true)
      by (destruct op as [[] | []]; reflexivity).
    destruct (accepted first) eqn:Hf.
    + apply rejected_behind_operand; [exact Hw | exact Hr |].
      cbn [andb] in Ha. specialize (IH o Hws Ha). rewrite to_ascii_typed in IH.
      destruct op as [m | a].
      * apply (rejected_behind_mulop m); [| exact IH].
        apply andb_prop in Hws. apply starts_with_digit_operand, Hws.
      * apply (rejected_behind_addop a), IH.
    + apply rejected_operand; [exact Hw | exact Hf | exact Hr].
Qed.

Lemma typed_cons (ip : list digit) (c : char) (op : mulop + addop)
    (o : operand) (rest : list ((mulop + addop) * operand)) :
  key_of_operator op = c ->
  typed (Whole ip) ((op, o) :: rest) = map Digit ip ++ c :: typed o rest.
Proof. intros <-. reflexivity. Qed.

Lemma typed_cons_decimal (ip fp : list digit) (c : char) (op : mulop + addop)
    (o : operand) (rest : list ((mulop + addop) * operand)) :
  key_of_operator op = c ->
  typed (Decimal ip fp) ((op, o) :: rest)
  = map Digit ip ++ Dot :: map Digit fp ++ c :: typed o rest.
Proof.
  intros <-. unfold typed. cbn [operand_text flat_map fst snd].
  rewrite <- !app_assoc. reflexivity.
Qed.

Lemma operator_key_inv (c : char) :
  is_operator_key c = true ->
  exists op, operator_of_key c = Some op /\ key_of_operator op = c.
Proof.
  destruct c; try discriminate; intros _; eexists; split; reflexivity.
Qed.

Lemma read_operator (c : char) (op : mulop + addop) (st : scan_state)
    (ip fp : list digit) (r : str) :
  operator_of_key c = Some op ->
  read st ip fp (c :: r)
  = match st, read BeforeOperand [] [] r with
    | InInteger, Some (o, rest) => Some (Whole ip, (op, o) :: rest)
    | InFraction, Some (o, rest) => Some (Decimal ip fp, (op, o) :: rest)
    | _, _ => None
    end.
Proof. intros H. destruct c; try discriminate H; cbn [read]; rewrite H; reflexivity. Qed.

(** What a scan accepts is operands with operator keys between them. *)
Lemma scan_read (s : str) :
  (scan BeforeOperand s = true ->
   forall ip fp, reads (read BeforeOperand ip fp s) s) /\
  (scan InInteger s = true ->
   forall ip fp, ip <> [] -> reads (read InInteger ip fp s) (map Digit ip ++ s)) /\
  (scan BehindPoint s = true ->
   forall ip fp, ip <> [] ->
                 reads (read BehindPoint ip fp s) (map Digit ip ++ Dot :: s)) /\
  (scan InFraction s = true ->
   forall ip fp, ip <> [] -> fp <> [] ->
                 reads (read InFraction ip fp s)
                       (map Digit ip ++ Dot :: map Digit fp ++ s)).
Proof.
  induction s as [| c s (IHb & IHi & IHp & IHf)].
  - repeat split; try discriminate.
    + intros _ ip fp Hip. exists (Whole ip), []. repeat split.
      destruct ip; [congruence | reflexivity].
    + intros _ ip fp Hip Hfp. exists (Decimal ip fp), []. repeat split.
      * unfold typed. cbn [operand_text flat_map].
        rewrite <- app_assoc. reflexivity.
      * destruct ip; [congruence |]. destruct fp; [congruence | reflexivity].
  - assert (Hop : forall st,
               is_operator_key c = true ->
               scan st (c :: s)
               = match st with
                 | InInteger | InFraction => scan BeforeOperand s
                 | _ => false
                 end).
    { intros st Hc. destruct c; try discriminate; reflexivity. }
    destruct (is_operator_key c) eqn:Hc.
    + rewrite !Hop by reflexivity.
      destruct (operator_key_inv c Hc) as (op & Ho & Hk).
      repeat split; try discriminate.
      * intros H ip fp Hip. rewrite (read_operator c op) by exact Ho.
        destruct (IHb H [] []) as (o & rest & -> & -> & Hw).
        exists (Whole ip), ((op, o) :: rest). repeat split.
        -- symmetry. apply typed_cons, Hk.
        -- cbn [map forallb snd] in *. rewrite Hw.
           destruct ip; [congruence | reflexivity].
      * intros H ip fp Hip Hfp. rewrite (read_operator c op) by exact Ho.
        destruct (IHb H [] []) as (o & rest & -> & -> & Hw).
        exists (Decimal ip fp), ((op, o) :: rest). repeat split.
        -- symmetry. apply typed_cons_decimal, Hk.
        -- cbn [map forallb snd] in *. rewrite Hw.
           destruct ip; [congruence |]. destruct fp; [congruence | reflexivity].
    + destruct c; try discriminate Hc; cbn [scan read is_operator_key andb];
        repeat split; try discriminate.
      * intros H ip fp. apply (IHi H [d] []). discriminate.
      * intros H ip fp Hip.
        replace (map Digit ip ++ Digit d :: s) with (map Digit (ip ++ [d]) ++ s)
          by (rewrite map_app, <- app_assoc; reflexivity).
        apply (IHi H). destruct ip; discriminate.
      * intros H ip fp Hip. apply (IHf H ip [d] Hip). discriminate.
      * intros H ip fp Hip Hfp.
        replace (map Digit fp ++ Digit d :: s) with (map Digit (fp ++ [d]) ++ s)
          by (rewrite map_app, <- app_assoc; reflexivity).
        apply (IHf H ip _ Hip). destruct fp; discriminate.
      * intros H ip fp Hip. apply (IHp H ip [] Hip).
Qed.

(** Every well-formed text has a usual reading, which is typed as the text. *)
Lemma well_formed_reading (text : str) :
  well_formed text = true ->
  exists s : sum,
    reading text = Some s /\ render s = text /\
    forallb written (operands s) = true /\
    (forallb accepted (operands s) = false ->
     rejected (calculation (showing text))).
Proof.
  intros H. destruct (proj1 (scan_read text) H [] []) as (first & rest & Hr & Ht & Hw).
  exists (grouped first rest). unfold reading. rewrite Hr.
  rewrite grouped_typed, grouped_operands.
  repeat split; [symmetry; exact Ht | exact Hw |].
  intros Ha. rewrite calculation_map. subst text.
  apply rejected_typed; assumption.
Qed.

(** *** Parsing a well-formed expression *)

Lemma parse_factor_number (f : nat) (n : operand) (r : list token) :
  ends_atom r = true ->
  parse_factor (S f) (number_token n :: r) = Return (number n, r).
Proof.
  intros Hr. destruct r as [| t r]; [reflexivity |].
  destruct t; simpl in Hr; try discriminate; reflexivity.
Qed.

Lemma ends_atom_mul_tokens (l : list (mulop * operand)) (r : list token) :
  ends_term r = true -> ends_atom (mul_tokens l ++ r) = true.
Proof.
  intros Hr. destruct l as [| [o k] l].
  - destruct r as [| t r]; [reflexivity |].
    destruct t; simpl in Hr; try discriminate; reflexivity.
  - destruct o; reflexivity.
Qed.

Lemma parse_term_rest_cons (f : nat) (lhs : expr) (t : token) (r : list token) :
  parse_term_rest (S f) lhs (t :: r)
  = match term_operator t with
    | Some op =>
        ' (rhs, r') <- parse_factor f r ;;
        parse_term_rest f (BinOp lhs op rhs) r'
    | None => Return (lhs, t :: r)
    end.
Proof. reflexivity. Qed.

Lemma parse_sum_rest_cons (f : nat) (lhs : expr) (t : token) (r : list token) :
  parse_sum_rest (S f) lhs (t :: r)
  = match sum_operator t with
    | Some op =>
        ' (rhs, r') <- parse_term f r ;;
        parse_sum_rest f (BinOp lhs op rhs) r'
    | None => Return (lhs, t :: r)
    end.
Proof. reflexivity. Qed.

Lemma parse_term_rest_tokens (l : list (mulop * operand)) :
  forall (lhs : expr) (r : list token) (fuel : nat),
    ends_term r = true ->
    (length (mul_tokens l ++ r) < fuel)%nat ->
    parse_term_rest fuel lhs (mul_tokens l ++ r)
    = Return (fold_left (fun e p => BinOp e (mulop_operator (fst p)) (number (snd p)))
                        l lhs, r).
Proof.
  induction l as [| [o k] l IH]; intros lhs r fuel Hr Hf.
  - destruct fuel as [| f]; [inversion Hf |].
    destruct r as [| t r]; [reflexivity |].
    destruct t; simpl in Hr; try discriminate; reflexivity.
  - change (mul_tokens ((o, k) :: l) ++ r)
      with (mulop_token o :: number_token k :: (mul_tokens l ++ r)) in *.
    cbn [length] in Hf.
    destruct fuel as [| [| f]]; try lia.
    rewrite parse_term_rest_cons.
    replace (term_operator (mulop_token o)) with (Some (mulop_operator o))
      by (destruct o; reflexivity).
    rewrite parse_factor_number by (apply ends_atom_mul_tokens, Hr).
    cbn [bind fold_left fst snd]. cbv beta iota zeta.
    apply IH; [exact Hr | lia].
Qed.

Lemma parse_term_tokens (t : term) (r : list token) (fuel : nat) :
  ends_term r = true ->
  (length (term_tokens t ++ r) < fuel)%nat ->
  parse_term fuel (term_tokens t ++ r) = Return (term_tree t, r).
Proof.
  intros Hr Hf. destruct t as [n l]. unfold parse_term, term_tokens, term_tree in *.
  cbn [fst snd] in *. fold (mul_tokens l) in *.
  destruct fuel as [| f]; [inversion Hf |].
  change ((number_token n :: mul_tokens l) ++ r)
    with (number_token n :: (mul_tokens l ++ r)) in *.
  rewrite parse_factor_number by (apply ends_atom_mul_tokens, Hr).
  cbn [bind]. cbv beta iota zeta. apply parse_term_rest_tokens; [exact Hr |].
  cbn [length] in Hf. lia.
Qed.

Lemma ends_term_add_tokens (l : list (addop * term)) :
  ends_term (add_tokens l) = true.
Proof. destruct l as [| [[] t] l]; reflexivity. Qed.

Lemma parse_sum_rest_tokens (l : list (addop * term)) :
  forall (lhs : expr) (fuel : nat),
    (length (add_tokens l) < fuel)%nat ->
    parse_sum_rest fuel lhs (add_tokens l)
    = Return (fold_left (fun e p => BinOp e (addop_operator (fst p)) (term_tree (snd p)))
                        l lhs, []).
Proof.
  induction l as [| [o t] l IH]; intros lhs fuel Hf.
  - destruct fuel as [| f]; [inversion Hf | reflexivity].
  - destruct fuel as [| f]; [inversion Hf |].
    change (add_tokens ((o, t) :: l))
      with (addop_token o :: (term_tokens t ++ add_tokens l)) in *.
    rewrite parse_sum_rest_cons.
    replace (sum_operator (addop_token o)) with (Some (addop_operator o))
      by (destruct o; reflexivity).
    cbn [length] in Hf.
    rewrite parse_term_tokens by (try apply ends_term_add_tokens; lia).
    cbn [bind fold_left fst snd]. cbv beta iota zeta.
    apply IH. rewrite length_app in Hf. lia.
Qed.

Lemma parse_sum_tokens (s : sum) (fuel : nat) :
  (length (sum_tokens s) < fuel)%nat ->
  parse_sum fuel (sum_tokens s) = Return (sum_tree s, []).
Proof.
  intros Hf. destruct s as [t l]. unfold parse_sum, sum_tokens, sum_tree in *.
  cbn [fst snd] in *. fold (add_tokens l) in *.
  rewrite parse_term_tokens by (try apply ends_term_add_tokens; exact Hf).
  cbn [bind]. cbv beta iota zeta. apply parse_sum_rest_tokens.
  rewrite length_app in Hf. lia.
Qed.

Lemma no_kw_is_term (t : term) : existsb is_kw_is (term_tokens t) = false.
Proof.
  destruct t as [n l]. unfold term_tokens. cbn [fst snd existsb is_kw_is number_token orb].
  induction l as [| [o k] l IH]; [reflexivity |].
  cbn [flat_map app existsb fst snd]. rewrite IH. destruct o; reflexivity.
Qed.

Lemma no_kw_is_sum (s : sum) : existsb is_kw_is (sum_tokens s) = false.
Proof.
  destruct s as [t l]. unfold sum_tokens. cbn [fst snd].
  rewrite existsb_app, no_kw_is_term. cbn [orb].
  induction l as [| [o u] l IH]; [reflexivity |].
  cbn [flat_map app existsb fst snd]. rewrite existsb_app, no_kw_is_term, IH.
  destruct o; reflexivity.
Qed.

(** The parser reads a well-formed expression as the usual reading does. *)
Lemma py_compile_render (s : sum) :
  forallb written (operands s) = true ->
  forallb accepted (operands s) = true ->
  py_compile (calculation (showing (render s))) = Return (sum_tree s).
Proof.
  intros Hw Ha. rewrite calculation_render. unfold py_compile.
  rewrite (tokenizes_sum s Hw Ha) by lia.
  cbn [bind]. rewrite no_kw_is_sum, parse_sum_tokens by lia.
  reflexivity.
Qed.

Lemma py_compile_rejected (self : Calculator) :
  rejected (calculation self) -> py_compile (calculation self) = Raise SyntaxError.
Proof. intros H. unfold py_compile. rewrite H by lia. reflexivity. Qed.

(** *** Evaluating the usual reading *)

Lemma operand_int_value (o : operand) (y : Z) :
  operand_int o = Some y -> operand_value o = PyInt y.
Proof. destruct o; simpl; congruence. Qed.

Lemma term_value_None (l : list (mulop * operand)) :
  fold_left (fun v p => match v, fst p, operand_int (snd p) with
                        | Some x, MulOp, Some y => Some (x * y)
                        | _, _, _ => None
                        end) l None = None.
Proof. induction l as [| p l IH]; [reflexivity | exact IH]. Qed.

Lemma eval_term_fold (l : list (mulop * operand)) :
  forall (e : expr) (x v : Z),
    eval_expr e = Return (PyInt x) ->
    fold_left (fun v p => match v, fst p, operand_int (snd p) with
                          | Some x, MulOp, Some y => Some (x * y)
                          | _, _, _ => None
                          end) l (Some x) = Some v ->
    eval_expr (fold_left (fun e p => BinOp e (mulop_operator (fst p)) (number (snd p)))
                         l e) = Return (PyInt v).
Proof.
  induction l as [| [o k] l IH]; intros e x v He Hv; cbn [fold_left fst snd] in *.
  - injection Hv as <-. exact He.
  - destruct o; try (rewrite term_value_None in Hv; discriminate).
    destruct (operand_int k) as [y |] eqn:Hk;
      [| rewrite term_value_None in Hv; discriminate].
    apply (IH _ (x * y)); [| exact Hv].
    cbn [eval_expr mulop_operator number].
    rewrite He, (operand_int_value k y Hk). reflexivity.
Qed.

Lemma eval_term_tree (t : term) (v : Z) :
  term_value t = Some v -> eval_expr (term_tree t) = Return (PyInt v).
Proof.
  destruct t as [n l]. unfold term_value, term_tree. cbn [fst snd]. intros H.
  destruct (operand_int n) as [x |] eqn:Hn;
    [| rewrite term_value_None in H; discriminate].
  apply (eval_term_fold l _ x); [| exact H].
  unfold number. rewrite (operand_int_value n x Hn). reflexivity.
Qed.

Lemma sum_value_None (l : list (addop * term)) :
  fold_left (fun v p => match v, term_value (snd p), fst p with
                        | Some x, Some y, AddOp => Some (x + y)
                        | Some x, Some y, SubOp => Some (x - y)
                        | _, _, _ => None
                        end) l None = None.
Proof. induction l as [| p l IH]; [reflexivity | exact IH]. Qed.

Lemma eval_sum_fold (l : list (addop * term)) :
  forall (e : expr) (x v : Z),
    eval_expr e = Return (PyInt x) ->
    fold_left (fun v p => match v, term_value (snd p), fst p with
                          | Some x, Some y, AddOp => Some (x + y)
                          | Some x, Some y, SubOp => Some (x - y)
                          | _, _, _ => None
                          end) l (Some x) = Some v ->
    eval_expr (fold_left (fun e p => BinOp e (addop_operator (fst p)) (term_tree (snd p)))
                         l e) = Return (PyInt v).
Proof.
  induction l as [| [o t] l IH]; intros e x v He Hv; cbn [fold_left fst snd] in *.
  - injection Hv as <-. exact He.
  - destruct (term_value t) as [y |] eqn:Ht;
      [| rewrite sum_value_None in Hv; discriminate].
    apply eval_term_tree in Ht.
    destruct o.
    + apply (IH _ (x + y)); [| exact Hv].
      cbn [eval_expr addop_operator]. rewrite He, Ht. reflexivity.
    + apply (IH _ (x - y)); [| exact Hv].
      cbn [eval_expr addop_operator]. rewrite He, Ht. reflexivity.
Qed.

Lemma eval_sum_tree (s : sum) (v : Z) :
  sum_value s = Some v -> eval_expr (sum_tree s) = Return (PyInt v).
Proof.
  destruct s as [t l]. unfold sum_value, sum_tree. cbn [fst snd]. intros H.
  destruct (term_value t) as [x |] eqn:Ht;
    [| rewrite sum_value_None in H; discriminate].
  apply (eval_sum_fold l _ x); [apply eval_term_tree, Ht | exact H].
Qed.

Lemma int_str_printable (z : Z) :
  int_str z = if printable z then Return (str_of_int z) else Raise ValueError.
Proof.
  unfold int_str, printable. rewrite Z.leb_antisym.
  destruct (max_str_digits <? _); reflexivity.
Qed.

Lemma calculate_int (self : Calculator) (z : Z) :
  py_eval (calculation self) = Return (PyInt z) ->
  calculate self
  = if printable z
    then Return (showing (str_of_int z), None)
    else Return (reset, Some (AnErrorOccurred ValueError)).
Proof.
  intros H. unfold calculate, calculate_try. rewrite H.
  cbn [bind py_str]. rewrite int_str_printable.
  destruct (printable z); reflexivity.
Qed.

Lemma calculate_raises (self : Calculator) (e : exn) :
  py_eval (calculation self) = Raise e ->
  calculate self =
    Return (reset,
            Some (match e with
                  | ZeroDivisionError => CannotDivideByZero
                  | SyntaxError => InvalidExpressionCheckInput
                  | _ => AnErrorOccurred e
                  end)).
Proof. intros H. apply calculate_Raise, calculate_try_Raise, H. Qed.

Lemma calculate_rejected (self : Calculator) :
  rejected (calculation self) ->
  calculate self = Return (reset, Some InvalidExpressionCheckInput).
Proof.
  intros H. apply (calculate_raises self SyntaxError).
  unfold py_eval. rewrite py_compile_rejected by exact H. reflexivity.
Qed.

(** ** Precedence *)

(** C1 (as amended): every well-formed expression, whole or decimal operands
    joined by the five operators, has a usual reading, [×], [÷] and [%]
    before [+] and [−] and each level from the left.  When Python reads every
    operand (a whole number is zero, or has no leading zero and at most 4300
    digits) the parser builds the tree of that reading; when moreover the
    expression is built from whole numbers with [+], [−] and [×] alone,
    [calculate] leaves its exact value in the expression, unless that value
    has more than 4300 digits, which [str] refuses.  When Python does not
    read an operand, [calculate] reports an invalid expression. *)
Theorem calculate_standard_precedence (text : str) :
  well_formed text = true ->
  exists s : sum,
    reading text = Some s /\ render s = text /\
    if forallb accepted (operands s)
    then py_compile (calculation (showing text)) = Return (sum_tree s) /\
         forall z : Z,
           sum_value s = Some z ->
           calculate (showing text)
           = if printable z
             then Return (showing (str_of_int z), None)
             else Return (reset, Some (AnErrorOccurred ValueError))
    else calculate (showing text) = Return (reset, Some InvalidExpressionCheckInput).
Proof.
  intros H. destruct (well_formed_reading text H) as (s & Hs & Hr & Hw & Hrej).
  exists s. split; [exact Hs |]. split; [exact Hr |].
  destruct (forallb accepted (operands s)) eqn:Ha.
  - assert (Hc : py_compile (calculation (showing text)) = Return (sum_tree s))
      by (rewrite <- Hr; apply py_compile_render; assumption).
    split; [exact Hc |].
    intros z Hz. apply calculate_int.
    unfold py_eval. rewrite Hc. cbn [bind].
    apply eval_sum_tree, Hz.
  - apply calculate_rejected, Hrej. reflexivity.
Qed.

(** "2+3×4" is read as 2+(3×4) and yields 14. *)
Lemma calculate_standard_precedence_witness :
  well_formed [Digit D2; Plus; Digit D3; TimesSign; Digit D4] = true /\
  reading [Digit D2; Plus; Digit D3; TimesSign; Digit D4]
    = Some ((natural 2, []), [(AddOp, (natural 3, [(MulOp, natural 4)]))]) /\
  sum_value ((natural 2, []), [(AddOp, (natural 3, [(MulOp, natural 4)]))]) = Some 14 /\
  py_compile (calculation (showing [Digit D2; Plus; Digit D3; TimesSign; Digit D4]))
    = Return (BinOp (Constant (PyInt 2)) Add
                    (BinOp (Constant (PyInt 3)) Mult (Constant (PyInt 4)))) /\
  calculate (showing [Digit D2; Plus; Digit D3; TimesSign; Digit D4])
    = Return (showing [Digit D1; Digit D4], None).
Proof.
  split; [reflexivity |]. split; [reflexivity |]. split; [reflexivity |].
  destruct (calculate_standard_precedence
              [Digit D2; Plus; Digit D3; TimesSign; Digit D4] eq_refl)
    as (s & Hs & _ & H).
  injection Hs as <-.
  destruct H as [Hc Hv]. split; [exact Hc | exact (Hv 14 eq_refl)].
Defined.

(** C1 fails as stated: [9007199254740993÷1] is a well-formed expression
    whose value is 9007199254740993, and [calculate] leaves
    9007199254740992, the nearest double; and [007+1], a number written with
    leading zeros, is rejected. *)
Lemma calculate_division_is_rounded :
  well_formed (numeral 9007199254740993 ++ [DivisionSign; Digit D1]) = true /\
  reading (numeral 9007199254740993 ++ [DivisionSign; Digit D1])
    = Some ((natural 9007199254740993, [(DivOp, natural 1)]), []) /\
  calculate (showing (numeral 9007199254740993 ++ [DivisionSign; Digit D1]))
    = Return (showing (numeral 9007199254740992), None) /\
  (9007199254740992 * 1 <> 9007199254740993)%N /\
  well_formed [Digit D0; Digit D0; Digit D7; Plus; Digit D1] = true /\
  calculate (showing [Digit D0; Digit D0; Digit D7; Plus; Digit D1])
    = Return (reset, Some InvalidExpressionCheckInput).
Proof.
  split; [reflexivity |].
  split; [reflexivity |].
  split; [vm_compute; reflexivity |].
  split; [discriminate |].
  split; [reflexivity | vm_compute; reflexivity].
Qed.

(** ** Division by zero *)

Lemma float_of_int_zero : float_of_int 0 = Return pos_zero.
Proof. reflexivity. Qed.

Lemma binary_op_zero_divisor (op : operator) (v w : value) :
  op = Div \/ op = FloorDiv \/ op = Mod ->
  is_zero w = true -> dividend_converts v w = true ->
  binary_op op v w = Raise ZeroDivisionError.
Proof.
  intros Hop Hw Hv.
  destruct w as [b | y |]; simpl in Hw; try discriminate.
  - destruct b; try discriminate.
    destruct v as [a | x |]; simpl in Hv; try discriminate.
    + destruct Hop as [-> | [-> | ->]]; reflexivity.
    + destruct Hop as [-> | [-> | ->]]; reflexivity.
  - destruct y as [sy | | |]; try discriminate.
    destruct v as [a | x |]; simpl in Hv; try discriminate.
    + unfold binary_op. cbn [as_float].
      destruct (float_of_int a) as [x | e | | x0 y0 k0]; try discriminate.
      destruct Hop as [-> | [-> | ->]]; reflexivity.
    + destruct Hop as [-> | [-> | ->]]; reflexivity.
Qed.

Lemma reaches_zero_divisor_raises (op : operator) (e : expr) :
  op = Div \/ op = FloorDiv \/ op = Mod ->
  reaches_zero_divisor op e -> eval_expr e = Raise ZeroDivisionError.
Proof.
  intros Hop H.
  induction H as [a b va vb Ha Hb Hz Hc | a b o _ IH | a b o va Ha _ IH
                 | a o _ IH | a attr _ IH]; cbn [eval_expr].
  - rewrite Ha, Hb. cbn [bind]. apply binary_op_zero_divisor; assumption.
  - rewrite IH. reflexivity.
  - rewrite Ha, IH. reflexivity.
  - rewrite IH. reflexivity.
  - rewrite IH. reflexivity.
Qed.

Lemma calculate_zero_divisor (op : operator) (self : Calculator) (e : expr) :
  op = Div \/ op = FloorDiv \/ op = Mod ->
  py_compile (calculation self) = Return e ->
  reaches_zero_divisor op e ->
  calculate self = Return (reset, Some CannotDivideByZero).
Proof.
  intros Hop Hc H.
  apply (calculate_raises self ZeroDivisionError).
  unfold py_eval. rewrite Hc. cbn [bind].
  apply (reaches_zero_divisor_raises op); assumption.
Qed.







(** ** What the parser consumes *)

Lemma consumes_cons (t : token) (ts r : list token) :
  consumes ts r -> consumes (t :: ts) r.
Proof.
  intros [pre [u [-> Hu]]]. exists (t :: pre), u. split; [reflexivity | exact Hu].
Qed.

Lemma consumes_trans (a b c : list token) :
  consumes a b -> b = c \/ consumes b c -> consumes a c.
Proof.
  intros Hab [-> | [pre [u [-> Hu]]]]; [exact Hab |].
  destruct Hab as [pre' [u' [-> Hu']]].
  exists (pre' ++ u' :: pre), u. split; [| exact Hu].
  rewrite <- app_assoc. reflexivity.
Qed.

Lemma consumes_length (ts r : list token) :
  consumes ts r -> (length r < length ts)%nat.
Proof.
  intros [pre [u [-> _]]]. rewrite length_app. simpl. lia.
Qed.

Lemma consumes_all_last (ts : list token) (t : token) :
  consumes (ts ++ [t]) [] -> atom_end t = true.
Proof.
  intros [pre [u [E Hu]]].
  change (pre ++ [u]) with (pre ++ [u]) in E.
  apply app_inj_tail in E. destruct E as [_ ->]. exact Hu.
Qed.

Lemma parse_atom_consumes (ts r : list token) (e : expr) :
  parse_atom ts = Return (e, r) -> consumes ts r.
Proof.
  destruct ts as [| t ts]; [discriminate |].
  destruct t; simpl; intros H; try discriminate; injection H as _ <-;
    eexists [], _; split; reflexivity.
Qed.

Lemma parse_trailers_consumes (n : nat) :
  forall (ts r : list token) (e e' : expr),
    (length ts <= n)%nat ->
    parse_trailers e ts = Return (e', r) -> ts = r \/ consumes ts r.
Proof.
  induction n as [| n IH]; intros ts r e e' Hn H.
  - destruct ts; [| simpl in Hn; lia]. injection H as _ <-. left. reflexivity.
  - destruct ts as [| t ts]; [injection H as _ <-; left; reflexivity |].
    destruct t; try (injection H as _ <-; left; reflexivity).
    destruct ts as [| u ts]; [discriminate |].
    destruct u; try discriminate.
    cbn [parse_trailers] in H. cbn [length] in Hn. right.
    apply (consumes_trans _ ts).
    + exists [DOT], (NAME id). split; reflexivity.
    + apply (IH ts r (Attribute e id) e'); [lia | exact H].
Qed.

Lemma parse_primary_consumes (ts r : list token) (e : expr) :
  parse_primary ts = Return (e, r) -> consumes ts r.
Proof.
  unfold parse_primary. intros H.
  apply bind_Return_inv in H. destruct H as [[a r0] [Ha H]].
  apply (consumes_trans _ r0).
  - apply (parse_atom_consumes _ _ _ Ha).
  - apply (parse_trailers_consumes (length r0) _ _ _ _ (le_n _) H).
Qed.

Lemma parse_factor_consumes (fuel : nat) :
  forall (ts r : list token) (e : expr),
    parse_factor fuel ts = Return (e, r) -> consumes ts r.
Proof.
  induction fuel as [| f IH]; intros ts r e H; [discriminate |].
  cbn [parse_factor] in H.
  assert (Hpow : bind (parse_primary ts)
                   (fun x => let '(e0, r0) := x in
                      match r0 with
                      | DOUBLESTAR :: r1 =>
                          bind (parse_factor f r1)
                               (fun y => let '(x0, r2) := y in Return (BinOp e0 Pow x0, r2))
                      | _ => Return (e0, r0)
                      end) = Return (e, r) -> consumes ts r).
  { intros Hp. apply bind_Return_inv in Hp. destruct Hp as [[e0 r0] [Hp Hq]].
    apply parse_primary_consumes in Hp.
    destruct r0 as [| t r0]; [injection Hq as _ <-; exact Hp |].
    destruct t; try (injection Hq as _ <-; exact Hp).
    apply bind_Return_inv in Hq. destruct Hq as [[x0 r2] [Hq Hr]].
    injection Hr as _ <-. apply IH in Hq.
    apply (consumes_trans _ (DOUBLESTAR :: r0)); [exact Hp | right].
    apply consumes_cons, Hq. }
  destruct ts as [| t ts]; [apply Hpow, H |].
  destruct t; try (apply Hpow, H).
  - apply bind_Return_inv in H. destruct H as [[e0 r0] [H Hr]].
    injection Hr as _ <-. apply consumes_cons, (IH _ _ _ H).
  - apply bind_Return_inv in H. destruct H as [[e0 r0] [H Hr]].
    injection Hr as _ <-. apply consumes_cons, (IH _ _ _ H).
Qed.

Lemma parse_term_rest_consumes (fuel : nat) :
  forall (lhs : expr) (ts r : list token) (e : expr),
    parse_term_rest fuel lhs ts = Return (e, r) -> ts = r \/ consumes ts r.
Proof.
  induction fuel as [| f IH]; intros lhs ts r e H; [discriminate |].
  destruct ts as [| t ts]; [injection H as _ <-; left; reflexivity |].
  rewrite parse_term_rest_cons in H.
  destruct (term_operator t) as [op |]; [| injection H as _ <-; left; reflexivity].
  apply bind_Return_inv in H. destruct H as [[rhs r'] [Hf H]].
  right. apply consumes_cons.
  apply (consumes_trans _ r'); [apply (parse_factor_consumes _ _ _ _ Hf) |].
  apply (IH _ _ _ _ H).
Qed.

Lemma parse_term_consumes (fuel : nat) (ts r : list token) (e : expr) :
  parse_term fuel ts = Return (e, r) -> consumes ts r.
Proof.
  unfold parse_term. intros H.
  apply bind_Return_inv in H. destruct H as [[e0 r0] [Hf H]].
  apply (consumes_trans _ r0); [apply (parse_factor_consumes _ _ _ _ Hf) |].
  apply (parse_term_rest_consumes _ _ _ _ _ H).
Qed.

Lemma parse_sum_rest_consumes (fuel : nat) :
  forall (lhs : expr) (ts r : list token) (e : expr),
    parse_sum_rest fuel lhs ts = Return (e, r) -> ts = r \/ consumes ts r.
Proof.
  induction fuel as [| f IH]; intros lhs ts r e H; [discriminate |].
  destruct ts as [| t ts]; [injection H as _ <-; left; reflexivity |].
  rewrite parse_sum_rest_cons in H.
  destruct (sum_operator t) as [op |]; [| injection H as _ <-; left; reflexivity].
  apply bind_Return_inv in H. destruct H as [[rhs r'] [Hf H]].
  right. apply consumes_cons.
  apply (consumes_trans _ r'); [apply (parse_term_consumes _ _ _ _ Hf) |].
  apply (IH _ _ _ _ H).
Qed.

Lemma parse_sum_consumes (fuel : nat) (ts r : list token) (e : expr) :
  parse_sum fuel ts = Return (e, r) -> consumes ts r.
Proof.
  unfold parse_sum. intros H.
  apply bind_Return_inv in H. destruct H as [[e0 r0] [Hf H]].
  apply (consumes_trans _ r0); [apply (parse_term_consumes _ _ _ _ Hf) |].
  apply (parse_sum_rest_consumes _ _ _ _ _ H).
Qed.

(** ** The parser fails with [SyntaxError] only *)

Lemma syntactic_bind {A B : Type} (m : outcome A) (k : A -> outcome B) :
  syntactic m -> (forall a, m = Return a -> syntactic (k a)) -> syntactic (bind m k).
Proof.
  destruct m as [a | e | | px py pk]; simpl; intros Hm Hk;
    [apply Hk; reflexivity | exact Hm | exact Hm | exact Hm].
Qed.

Lemma parse_atom_syntactic (ts : list token) : syntactic (parse_atom ts).
Proof. destruct ts as [| [] ts]; simpl; auto. Qed.

Lemma parse_trailers_syntactic (n : nat) :
  forall (ts : list token) (e : expr),
    (length ts <= n)%nat -> syntactic (parse_trailers e ts).
Proof.
  induction n as [| n IH]; intros ts e Hn.
  - destruct ts; [exact I | simpl in Hn; lia].
  - destruct ts as [| t ts]; [exact I |].
    destruct t; try exact I.
    destruct ts as [| u ts]; [reflexivity |].
    destruct u; try reflexivity.
    cbn [parse_trailers]. cbn [length] in Hn. apply IH. lia.
Qed.

Lemma parse_primary_syntactic (ts : list token) : syntactic (parse_primary ts).
Proof.
  unfold parse_primary. apply syntactic_bind; [apply parse_atom_syntactic |].
  intros [e r] _. apply (parse_trailers_syntactic (length r)). apply le_n.
Qed.

Lemma parse_factor_syntactic (fuel : nat) :
  forall ts : list token,
    (length ts < fuel)%nat -> syntactic (parse_factor fuel ts).
Proof.
  induction fuel as [| f IH]; intros ts Hf; [inversion Hf |].
  cbn [parse_factor].
  assert (Hpow : syntactic
            (bind (parse_primary ts)
               (fun x => let '(e0, r0) := x in
                  match r0 with
                  | DOUBLESTAR :: r1 =>
                      bind (parse_factor f r1)
                           (fun y => let '(x0, r2) := y in Return (BinOp e0 Pow x0, r2))
                  | _ => Return (e0, r0)
                  end))).
  { apply syntactic_bind; [apply parse_primary_syntactic |].
    intros [e0 r0] Hp. apply parse_primary_consumes, consumes_length in Hp.
    destruct r0 as [| t r0]; [exact I |].
    destruct t; try exact I.
    apply syntactic_bind; [apply IH; cbn [length] in Hp; lia |].
    intros [x0 r2] _. exact I. }
  destruct ts as [| t ts]; [exact Hpow |].
  destruct t; try exact Hpow.
  - apply syntactic_bind; [apply IH; cbn [length] in Hf; lia |].
    intros [e0 r0] _. exact I.
  - apply syntactic_bind; [apply IH; cbn [length] in Hf; lia |].
    intros [e0 r0] _. exact I.
Qed.

Lemma parse_term_rest_syntactic (fuel : nat) :
  forall (lhs : expr) (ts : list token),
    (length ts < fuel)%nat -> syntactic (parse_term_rest fuel lhs ts).
Proof.
  induction fuel as [| f IH]; intros lhs ts Hf; [inversion Hf |].
  destruct ts as [| t ts]; [exact I |].
  rewrite parse_term_rest_cons. cbn [length] in Hf.
  destruct (term_operator t) as [op |]; [| exact I].
  apply syntactic_bind; [apply parse_factor_syntactic; lia |].
  intros [rhs r'] Hp. apply parse_factor_consumes, consumes_length in Hp.
  apply IH. cbn [snd]. lia.
Qed.

Lemma parse_term_syntactic (fuel : nat) (ts : list token) :
  (length ts < fuel)%nat -> syntactic (parse_term fuel ts).
Proof.
  intros Hf. unfold parse_term.
  apply syntactic_bind; [apply parse_factor_syntactic, Hf |].
  intros [e r] Hp. apply parse_factor_consumes, consumes_length in Hp.
  apply parse_term_rest_syntactic. lia.
Qed.

Lemma parse_sum_rest_syntactic (fuel : nat) :
  forall (lhs : expr) (ts : list token),
    (length ts < fuel)%nat -> syntactic (parse_sum_rest fuel lhs ts).
Proof.
  induction fuel as [| f IH]; intros lhs ts Hf; [inversion Hf |].
  destruct ts as [| t ts]; [exact I |].
  rewrite parse_sum_rest_cons. cbn [length] in Hf.
  destruct (sum_operator t) as [op |]; [| exact I].
  apply syntactic_bind; [apply parse_term_syntactic; lia |].
  intros [rhs r'] Hp. apply parse_term_consumes, consumes_length in Hp.
  apply IH. cbn [snd]. lia.
Qed.

Lemma parse_sum_syntactic (fuel : nat) (ts : list token) :
  (length ts < fuel)%nat -> syntactic (parse_sum fuel ts).
Proof.
  intros Hf. unfold parse_sum.
  apply syntactic_bind; [apply parse_term_syntactic, Hf |].
  intros [e r] Hp. apply parse_term_consumes, consumes_length in Hp.
  apply parse_sum_rest_syntactic. lia.
Qed.

(** A token list that ends with an operator or a dot is no expression. *)
Lemma parse_trailing_operator (ts : list token) (t : token) :
  atom_end t = false ->
  bind (parse_sum (S (length (ts ++ [t]))) (ts ++ [t]))
       (fun x => let '(e, r) := x in
                 match r with [] => Return e | _ => Raise SyntaxError end)
  = Raise SyntaxError.
Proof.
  intros Ht.
  pose proof (parse_sum_syntactic (S (length (ts ++ [t]))) (ts ++ [t]) (le_n _)) as Hs.
  destruct (parse_sum (S (length (ts ++ [t]))) (ts ++ [t])) as [[e r] | e | | px py pk] eqn:H;
    simpl in Hs; [| subst e; reflexivity | contradiction | contradiction].
  cbn [bind]. destruct r as [| u r]; [| reflexivity].
  apply parse_sum_consumes, consumes_all_last in H. congruence.
Qed.

(** ** Tokenizing a typed text *)

Lemma span_digits_spec (s : str) :
  forall (ds : list digit) (r : str),
    span_digits s = (ds, r) ->
    s = map Digit ds ++ r /\ starts_with_digit r = false.
Proof.
  induction s as [| c s IH]; intros ds r H; simpl in H.
  - injection H as <- <-. split; reflexivity.
  - destruct c; try (injection H as <- <-; split; reflexivity).
    destruct (span_digits s) as [ds' r'] eqn:E. injection H as <- <-.
    destruct (IH ds' r' eq_refl) as [-> Hr]. split; [reflexivity | exact Hr].
Qed.

Lemma last_app_nonempty {A : Type} (l r : list A) (d : A) :
  r <> [] -> last (l ++ r) d = last r d.
Proof.
  intros Hr. induction l as [| a l IH]; [reflexivity |].
  simpl. destruct (l ++ r) eqn:E; [| exact IH].
  apply app_eq_nil in E. destruct E as [_ E]. congruence.
Qed.

Lemma last_digits (ds : list digit) (c : char) :
  is_plain_operator c = false ->
  is_plain_operator (last (map Digit ds) c) = false.
Proof.
  intros Hc. induction ds as [| d ds IH]; [exact Hc |].
  simpl. destruct (map Digit ds) eqn:E; [reflexivity | exact IH].
Qed.

Lemma op_last_digits_app (ds : list digit) (r : str) :
  op_last (map Digit ds ++ r) = true -> op_last r = true.
Proof.
  unfold op_last. destruct r as [| c r].
  - rewrite app_nil_r, last_digits by reflexivity. discriminate.
  - rewrite last_app_nonempty by discriminate. auto.
Qed.

Lemma op_last_cons (c : char) (r : str) :
  is_plain_operator c = false -> op_last (c :: r) = true -> op_last r = true.
Proof.
  unfold op_last. destruct r as [| c' r]; simpl; [congruence | auto].
Qed.

Lemma op_last_cons_cases (c : char) (r : str) :
  op_last (c :: r) = true -> r = [] \/ op_last r = true.
Proof.
  unfold op_last. destruct r as [| c' r]; simpl; auto.
Qed.

Lemma plain_app (a b : str) :
  forallb is_plain (a ++ b) = true -> forallb is_plain b = true.
Proof. rewrite forallb_app. intros H. apply andb_prop in H. apply H. Qed.

(** What [lex_number] does at the head of a plain text. *)
Lemma lex_number_plain (s : str) :
  forallb is_plain s = true -> number_start s = true ->
  match lex_number s with
  | Return (t, r) =>
      atom_end t = true /\ is_kw_is t = false /\
      forallb is_plain r = true /\ (length r < length s)%nat /\
      (op_last s = true -> op_last r = true)
  | Raise e => e = SyntaxError
  | Unmodelled | CallPow _ _ _ => False
  end.
Proof.
  intros Hp Hs. unfold lex_number.
  destruct (span_digits s) as [ip r1] eqn:E1.
  apply span_digits_spec in E1. destruct E1 as [E1 Hd1].
  assert (Hfinish : forall (v : value) (r : str),
             forallb is_plain r = true -> (length r < length s)%nat ->
             (op_last s = true -> op_last r = true) ->
             match (if verify_end_of_number r
                    then Return (NUMBER v, r) else Raise SyntaxError) with
             | Return (t, r) =>
                 atom_end t = true /\ is_kw_is t = false /\
                 forallb is_plain r = true /\ (length r < length s)%nat /\
                 (op_last s = true -> op_last r = true)
             | Raise e => e = SyntaxError
             | Unmodelled | CallPow _ _ _ => False
             end).
  { intros v r H1 H2 H3. destruct (verify_end_of_number r); [| reflexivity].
    repeat split; assumption. }
  assert (Hr1 : forallb is_plain r1 = true) by (subst s; apply (plain_app _ _ Hp)).
  assert (Hop1 : op_last s = true -> op_last r1 = true)
    by (intros H; subst s; apply op_last_digits_app in H; exact H).
  assert (Hlen1 : r1 = [] \/ (exists c r, r1 = c :: r /\ c <> Dot) ->
                  (length r1 < length s)%nat).
  { intros Hc. subst s. rewrite length_app, length_map.
    destruct ip; [| simpl; lia]. simpl in Hs.
    destruct Hc as [-> | [c [r [-> Hc]]]]; [discriminate |].
    destruct c; try discriminate. congruence. }
  destruct r1 as [| c1 r1'].
  - cbv beta iota zeta. destruct (leading_zeros_ok ip); [| reflexivity].
      destruct ip as [| [] ?];
        try (destruct (max_str_digits <? _); [reflexivity |]);
        apply Hfinish; auto.
  - destruct c1; simpl in Hr1, Hd1; try discriminate.
    + (* a fraction *)
      destruct (span_digits r1') as [fp r2] eqn:E2.
      apply span_digits_spec in E2. destruct E2 as [E2 _].
      assert (Hr2 : forallb is_plain r2 = true)
        by (subst r1'; apply (plain_app _ _ Hr1)).
      assert (Hlen2 : (length r2 < length s)%nat).
      { subst s r1'. rewrite !length_app. simpl. rewrite length_app. lia. }
      assert (Hop2 : op_last s = true -> op_last r2 = true).
      { intros H. apply Hop1 in H. subst r1'.
        apply op_last_cons in H; [| reflexivity].
        apply op_last_digits_app in H. exact H. }
      destruct r2 as [| c2 r2']; [apply Hfinish; assumption |].
      destruct c2; simpl in Hr2; try discriminate; apply Hfinish; assumption.
    + cbv beta iota zeta. destruct (leading_zeros_ok ip); [| reflexivity].
      destruct ip as [| [] ?];
        try (destruct (max_str_digits <? _); [reflexivity |]);
        apply Hfinish; auto; apply Hlen1; right; eexists _, _;
        (split; [reflexivity | discriminate]).
    + cbv beta iota zeta. destruct (leading_zeros_ok ip); [| reflexivity].
      destruct ip as [| [] ?];
        try (destruct (max_str_digits <? _); [reflexivity |]);
        apply Hfinish; auto; apply Hlen1; right; eexists _, _;
        (split; [reflexivity | discriminate]).
    + cbv beta iota zeta. destruct (leading_zeros_ok ip); [| reflexivity].
      destruct ip as [| [] ?];
        try (destruct (max_str_digits <? _); [reflexivity |]);
        apply Hfinish; auto; apply Hlen1; right; eexists _, _;
        (split; [reflexivity | discriminate]).
    + cbv beta iota zeta. destruct (leading_zeros_ok ip); [| reflexivity].
      destruct ip as [| [] ?];
        try (destruct (max_str_digits <? _); [reflexivity |]);
        apply Hfinish; auto; apply Hlen1; right; eexists _, _;
        (split; [reflexivity | discriminate]).
    + cbv beta iota zeta. destruct (leading_zeros_ok ip); [| reflexivity].
      destruct ip as [| [] ?];
        try (destruct (max_str_digits <? _); [reflexivity |]);
        apply Hfinish; auto; apply Hlen1; right; eexists _, _;
        (split; [reflexivity | discriminate]).
Qed.

Lemma tokenize_number_start (f : nat) (s : str) :
  number_start s = true ->
  tokenize (S f) s
  = bind (lex_number s)
         (fun x => let '(t, r) := x in ts <- tokenize f r ;; Return (t :: ts)).
Proof.
  intros Hs.
  destruct s as [| [] s]; simpl in Hs; try discriminate; [reflexivity |].
  destruct s as [| [] s]; simpl in Hs; try discriminate. reflexivity.
Qed.

Lemma emit_ok (s r : str) (t : token) (f : nat) :
  tokenize_ok r (tokenize f r) ->
  is_kw_is t = false ->
  (op_last s = true -> (r = [] /\ atom_end t = false) \/ op_last r = true) ->
  tokenize_ok s (bind (tokenize f r) (fun ts => Return (t :: ts))).
Proof.
  intros Hr Ht Hop.
  destruct (tokenize f r) as [ts | e | | px py pk] eqn:E; simpl in *; try assumption.
  destruct Hr as [Hk Hl]. split; [rewrite Ht, Hk; reflexivity |].
  intros H. destruct (Hop H) as [[-> Ha] | Hr'].
  - destruct f; simpl in E; [discriminate |]. injection E as <-.
    unfold tok_last. simpl. rewrite Ha. reflexivity.
  - specialize (Hl Hr'). unfold tok_last in *.
    destruct ts as [| u ts]; [discriminate | exact Hl].
Qed.

Ltac emit_side :=
  auto; try (simpl; lia); try lia;
  try (let H := fresh in intros H; discriminate H);
  try apply op_last_cons_cases.

Lemma tokenize_plain (fuel : nat) :
  forall s : str,
    forallb is_plain s = true -> (length s < fuel)%nat ->
    tokenize_ok s (tokenize fuel s).
Proof.
  induction fuel as [| f IH]; intros s Hp Hf; [inversion Hf |].
  assert (Hnum : number_start s = true -> tokenize_ok s (tokenize (S f) s)).
  { intros Hs. rewrite tokenize_number_start by exact Hs.
    pose proof (lex_number_plain s Hp Hs) as Hl.
    destruct (lex_number s) as [[t r] | e | | px py pk]; simpl in *; try assumption.
    destruct Hl as [Ha [Hk [Hpr [Hlen Hop]]]].
    apply emit_ok; [apply IH; [exact Hpr | lia] | exact Hk |].
    intros H. right. apply Hop, H. }
  assert (Hemit : forall (t : token) (r : str),
             (length r < f)%nat -> forallb is_plain r = true ->
             is_kw_is t = false -> atom_end t = false ->
             (op_last s = true -> r = [] \/ op_last r = true) ->
             tokenize_ok s (bind (tokenize f r) (fun ts => Return (t :: ts)))).
  { intros t r Hlen Hpr Hk Ha Hop.
    apply emit_ok; [apply IH; assumption | exact Hk |].
    intros H. destruct (Hop H) as [-> | Hr]; auto. }
  destruct s as [| c s]; [split; [reflexivity | discriminate] |].
  cbn [length] in Hf.
  assert (Hps : forallb is_plain s = true)
    by (simpl in Hp; apply andb_prop in Hp; apply Hp).
  destruct c; simpl in Hp; try discriminate.
  - apply Hnum. reflexivity.
  - (* a dot *)
    destruct s as [| c2 s2]; [apply (Hemit DOT []); emit_side |].
    assert (Hp2 : forallb is_plain s2 = true)
      by (simpl in Hps; apply andb_prop in Hps; apply Hps).
    cbn [length] in Hf.
    destruct c2; simpl in Hps; try discriminate;
      try (apply (Hemit DOT (_ :: s2)); emit_side; fail).
    + apply Hnum. reflexivity.
    + destruct s2 as [| c3 s3]; [apply (Hemit DOT [Dot]); emit_side |].
      assert (Hp3 : forallb is_plain s3 = true)
        by (simpl in Hp2; apply andb_prop in Hp2; apply Hp2).
      cbn [length] in Hf.
      destruct c3; simpl in Hp2; try discriminate;
        try (apply (Hemit DOT (Dot :: _ :: s3)); emit_side; fail).
      apply emit_ok; [apply IH; [exact Hp3 | lia] | reflexivity |].
      intros H. apply op_last_cons in H; [| reflexivity].
      apply op_last_cons in H; [| reflexivity].
      apply op_last_cons in H; [| reflexivity]. right. exact H.
  - apply (Hemit PLUS s); emit_side.
  - apply (Hemit PERCENT s); emit_side.
  - apply (Hemit MINUS s); emit_side.
  - destruct s as [| c2 s2]; [apply (Hemit STAR []); emit_side |].
    assert (Hp2 : forallb is_plain s2 = true)
      by (simpl in Hps; apply andb_prop in Hps; apply Hps).
    cbn [length] in Hf.
    destruct c2; simpl in Hps; try discriminate;
      try (apply (Hemit STAR (_ :: s2)); emit_side; fail).
    apply (Hemit DOUBLESTAR s2); auto; try lia.
    intros H. apply op_last_cons_cases in H. destruct H as [H | H]; [discriminate |].
    apply (op_last_cons_cases Star), H.
  - destruct s as [| c2 s2]; [apply (Hemit SLASH []); emit_side |].
    assert (Hp2 : forallb is_plain s2 = true)
      by (simpl in Hps; apply andb_prop in Hps; apply Hps).
    cbn [length] in Hf.
    destruct c2; simpl in Hps; try discriminate;
      try (apply (Hemit SLASH (_ :: s2)); emit_side; fail).
    apply (Hemit DOUBLESLASH s2); auto; try lia.
    intros H. apply op_last_cons_cases in H. destruct H as [H | H]; [discriminate |].
    apply (op_last_cons_cases Slash), H.
Qed.

(** ** Rejected texts *)

Lemma keys_plain (s : str) :
  forallb is_key s = true -> forallb is_plain (map to_ascii s) = true.
Proof.
  induction s as [| c s IH]; [reflexivity |].
  simpl. intros H. apply andb_prop in H. destruct H as [Hc Hs].
  rewrite (IH Hs). destruct c; simpl in Hc; try discriminate; reflexivity.
Qed.

Lemma op_last_trailing (s : str) (c : char) :
  is_operator_key c = true -> op_last (map to_ascii (s ++ [c])) = true.
Proof.
  intros Hc. unfold op_last. rewrite map_app.
  rewrite last_app_nonempty by discriminate.
  destruct c; simpl in Hc; try discriminate; reflexivity.
Qed.

Lemma tok_last_split (ts : list token) :
  tok_last ts = true -> exists ts' t, ts = ts' ++ [t] /\ atom_end t = false.
Proof.
  intros H. destruct ts as [| u ts]; [discriminate |].
  exists (removelast (u :: ts)), (last (u :: ts) ELLIPSIS). split.
  - apply app_removelast_last. discriminate.
  - unfold tok_last in H. destruct (atom_end (last (u :: ts) ELLIPSIS));
      [discriminate | reflexivity].
Qed.

(** A typed text that ends with an operator key does not compile. *)
Lemma py_compile_trailing_operator (s : str) (c : char) :
  forallb is_key s = true -> is_operator_key c = true ->
  py_compile (calculation (showing (s ++ [c]))) = Raise SyntaxError.
Proof.
  intros Hs Hc. rewrite calculation_map. cbn [expression showing update_display].
  assert (Hp : forallb is_plain (map to_ascii (s ++ [c])) = true).
  { apply keys_plain. rewrite forallb_app, Hs. simpl. rewrite andb_true_r.
    destruct c; simpl in Hc; try discriminate; reflexivity. }
  pose proof (op_last_trailing s c Hc) as Hop.
  unfold py_compile.
  pose proof (tokenize_plain (S (length (map to_ascii (s ++ [c])))) _ Hp (le_n _)) as Ht.
  destruct (tokenize _ (map to_ascii (s ++ [c]))) as [ts | e | | px py pk]; simpl in Ht;
    [| subst e; reflexivity | contradiction | contradiction].
  destruct Ht as [Hk Hl]. cbn [bind]. rewrite Hk.
  destruct (tok_last_split ts (Hl Hop)) as [ts' [t [-> Ha]]].
  apply parse_trailing_operator, Ha.
Qed.

Lemma calculate_syntax_error (self : Calculator) :
  py_compile (calculation self) = Raise SyntaxError ->
  calculate self = Return (reset, Some InvalidExpressionCheckInput).
Proof.
  intros H. apply (calculate_raises self SyntaxError).
  unfold py_eval. rewrite H. reflexivity.
Qed.

(** C5 (as amended): every expression that Python's grammar rejects is
    reported with the message of class [InvalidExpression] and the
    expression is reset; the empty expression and every typed text that ends
    with an operator key are among them.  (A text such as [5++3], which the
    usual notation rejects, is accepted by Python and is evaluated.) *)
Theorem calculate_rejects_malformed :
  (forall self : Calculator,
      py_compile (calculation self) = Raise SyntaxError ->
      calculate self = Return (reset, Some InvalidExpressionCheckInput)) /\
  calculate (showing []) = Return (reset, Some InvalidExpressionCheckInput) /\
  (forall (s : str) (c : char),
      forallb is_key s = true -> is_operator_key c = true ->
      calculate (showing (s ++ [c])) = Return (reset, Some InvalidExpressionCheckInput)) /\
  classify InvalidExpressionCheckInput = InvalidExpression /\
  expression reset = [].
Proof.
  split; [exact calculate_syntax_error |].
  split; [reflexivity |].
  split; [| split; reflexivity].
  intros s c Hs Hc. apply calculate_syntax_error, py_compile_trailing_operator; assumption.
Qed.

(** "5+". *)
Lemma calculate_rejects_malformed_witness :
  calculate (showing [Digit D5; Plus])
    = Return (reset, Some InvalidExpressionCheckInput).
Proof.
  apply (proj1 (proj2 (proj2 calculate_rejects_malformed)) [Digit D5] Plus);
    reflexivity.
Defined.

(** C5 fails as stated: [5++3], [2××3] and [7÷÷2] are not well-formed, two
    operators meet, but Python reads a sign, a power and a floor division,
    and [calculate] succeeds; so does the text [...]. *)
Lemma calculate_accepts_doubled_operators :
  well_formed [Digit D5; Plus; Plus; Digit D3] = false /\
  calculate (showing [Digit D5; Plus; Plus; Digit D3])
    = Return (showing [Digit D8], None) /\
  well_formed [Digit D2; TimesSign; TimesSign; Digit D3] = false /\
  calculate (showing [Digit D2; TimesSign; TimesSign; Digit D3])
    = Return (showing [Digit D8], None) /\
  well_formed [Digit D7; DivisionSign; DivisionSign; Digit D2] = false /\
  calculate (showing [Digit D7; DivisionSign; DivisionSign; Digit D2])
    = Return (showing [Digit D3], None) /\
  well_formed [Dot; Dot; Dot] = false /\
  calculate (showing [Dot; Dot; Dot]) = Return (showing Ellipsis_name, None).
Proof. repeat split; vm_compute; reflexivity. Qed.

(** ** The number of digits *)

Lemma fold_digits_from (ds : list digit) :
  forall acc : Z,
    fold_left (fun a d => 10 * a + digit_value d) ds acc
    = acc * 10 ^ Z.of_nat (length ds) + digits_value ds.
Proof.
  unfold digits_value.
  induction ds as [| d ds IH]; intros acc; cbn [fold_left length].
  - cbn. lia.
  - rewrite (IH (10 * acc + digit_value d)), (IH (10 * 0 + digit_value d)).
    rewrite Nat2Z.inj_succ, Z.pow_succ_r by lia. ring.
Qed.

Lemma digits_value_cons (d : digit) (ds : list digit) :
  digits_value (d :: ds)
  = digit_value d * 10 ^ Z.of_nat (length ds) + digits_value ds.
Proof.
  unfold digits_value at 1. cbn [fold_left]. rewrite fold_digits_from. ring.
Qed.

Lemma digit_value_range (d : digit) : 0 <= digit_value d <= 9.
Proof. destruct d; simpl; lia. Qed.

Lemma digits_value_range (ds : list digit) :
  0 <= digits_value ds < 10 ^ Z.of_nat (length ds).
Proof.
  induction ds as [| d ds IH]; [cbn; lia |].
  rewrite digits_value_cons. cbn [length].
  rewrite Nat2Z.inj_succ, Z.pow_succ_r by lia.
  pose proof (digit_value_range d).
  assert (0 < 10 ^ Z.of_nat (length ds)) by (apply Z.pow_pos_nonneg; lia).
  nia.
Qed.

Lemma digits_value_all_zero (ds : list digit) :
  forallb (fun d => digit_value d =? 0) ds = true -> digits_value ds = 0.
Proof.
  induction ds as [| d ds IH]; [reflexivity |].
  cbn [forallb]. intros H. apply andb_prop in H. destruct H as [Hd Hs].
  rewrite digits_value_cons, (IH Hs). apply Z.eqb_eq in Hd. lia.
Qed.

(** A number written without a leading zero has no more digits than a
    number that is at least as large. *)
Lemma digits_length_le (a b : list digit) :
  leading_zeros_ok a = true -> digits_value a <> 0 ->
  digits_value a <= digits_value b -> (length a <= length b)%nat.
Proof.
  intros Hl Hv Hle. destruct a as [| d a]; [simpl; lia |].
  assert (Hd : 1 <= digit_value d).
  { destruct d; simpl; try lia.
    exfalso. apply Hv, digits_value_all_zero, Hl. }
  pose proof (digits_value_range a) as Ha.
  pose proof (digits_value_range b) as Hb.
  rewrite digits_value_cons in Hle.
  assert (Hp : 10 ^ Z.of_nat (length a) < 10 ^ Z.of_nat (length b)) by nia.
  apply Z.pow_lt_mono_r_iff in Hp; [| lia | lia].
  cbn [length]. lia.
Qed.

Lemma numeral_length_le (x y : N) :
  (x <= y)%N -> (length (numeral x) <= length (numeral y))%nat.
Proof.
  intros H. destruct (N.eq_dec x 0) as [-> | Hx].
  - destruct (numeral_head y) as [d [ds ->]]. simpl. lia.
  - rewrite !numeral_length. apply digits_length_le.
    + apply numeral_no_leading_zero.
    + rewrite digits_value_numeral. lia.
    + rewrite !digits_value_numeral. lia.
Qed.

Lemma printable_natural (n : N) :
  Z.of_nat (length (numeral n)) <= max_str_digits -> printable (Z.of_N n) = true.
Proof.
  intros H. unfold printable.
  rewrite Z.abs_eq, str_of_int_numeral by lia. apply Z.leb_le, H.
Qed.

(** ** The [%] key *)

Lemma render_binary (a b : N) (o : mulop) :
  render ((natural a, [(o, natural b)]), []) = numeral a ++ mulop_button o :: numeral b.
Proof.
  unfold render, render_with, render_term_with. cbn [fst snd flat_map].
  rewrite !app_nil_r, !natural_text. reflexivity.
Qed.

(** C2 (as amended): the [%] key is Python's remainder operator, not a
    percentage: between two integers [a] and [b > 0], each of at most 4300
    digits, it yields [a mod b], and applied to a single operand, at the end
    of a typed text, it is rejected as an invalid expression. *)
Theorem percent_key_is_remainder :
  (forall a b : N,
      b <> 0%N ->
      Z.of_nat (length (numeral a)) <= max_str_digits ->
      Z.of_nat (length (numeral b)) <= max_str_digits ->
      calculate (showing (numeral a ++ Percent :: numeral b))
      = Return (showing (numeral (a mod b)), None)) /\
  (forall s : str,
      forallb is_key s = true ->
      calculate (showing (s ++ [Percent]))
      = Return (reset, Some InvalidExpressionCheckInput)).
Proof.
  split.
  - intros a b Hb Ha Hlb.
    change (numeral a ++ Percent :: numeral b)
      with (numeral a ++ mulop_button ModOp :: numeral b).
    rewrite <- (render_binary a b ModOp), <- str_of_int_numeral.
    assert (Hp : printable (Z.of_N (a mod b)) = true).
    { apply printable_natural.
      pose proof (numeral_length_le (a mod b) b) as Hl.
      pose proof (N.mod_lt a b Hb). lia. }
    replace (Return (showing (str_of_int (Z.of_N (a mod b))), None))
      with (if printable (Z.of_N (a mod b))
            then Return (showing (str_of_int (Z.of_N (a mod b))), @None message)
            else Return (reset, Some (AnErrorOccurred ValueError)))
      by (rewrite Hp; reflexivity).
    apply calculate_int. unfold py_eval.
    rewrite py_compile_render.
    + cbn [bind sum_tree term_tree fold_left fst snd eval_expr mulop_operator number].
      rewrite !natural_value. cbn [bind binary_op int_binop].
      replace (Z.of_N b =? 0) with false by (symmetry; apply Z.eqb_neq; lia).
      rewrite N2Z.inj_mod. reflexivity.
    + cbn [operands term_operands fst snd map flat_map app forallb].
      rewrite !natural_written. reflexivity.
    + cbn [operands term_operands fst snd map flat_map app forallb].
      rewrite !natural_accepted by assumption. reflexivity.
  - intros s Hs.
    apply calculate_syntax_error, py_compile_trailing_operator; [exact Hs | reflexivity].
Qed.

(** "17%5" is 2, and "50%" is rejected. *)
Lemma percent_key_is_remainder_witness :
  calculate (showing [Digit D1; Digit D7; Percent; Digit D5])
    = Return (showing [Digit D2], None) /\
  calculate (showing [Digit D5; Digit D0; Percent])
    = Return (reset, Some InvalidExpressionCheckInput).
Proof.
  split.
  - apply (proj1 percent_key_is_remainder 17%N 5%N);
      [discriminate | vm_compute; discriminate | vm_compute; discriminate].
  - apply (proj2 percent_key_is_remainder [Digit D5; Digit D0]). reflexivity.
Defined.

(** C2 fails as stated: the percentage of the operand 50 is 0.5, but [50%]
    is rejected; and where a percentage would be followed by an addition,
    [50%+3], the result is the remainder of 50 by 3, not 3.5. *)
Lemma percent_of_operand_is_rejected :
  calculate (showing [Digit D5; Digit D0; Percent])
    = Return (reset, Some InvalidExpressionCheckInput) /\
  calculate (showing [Digit D5; Digit D0; DivisionSign; Digit D1; Digit D0; Digit D0])
    = Return (showing [Digit D0; Dot; Digit D5], None) /\
  calculate (showing [Digit D5; Digit D0; Percent; Plus; Digit D3])
    = Return (showing [Digit D2], None).
Proof. repeat split; vm_compute; reflexivity. Qed.

(** ** Rounding to the nearest double *)

Lemma round_half_even_spec (n d : Z) :
  0 < d ->
  (2 * round_half_even n d - 1) * d <= 2 * n <= (2 * round_half_even n d + 1) * d /\
  (Z.even (round_half_even n d) = false ->
   (2 * round_half_even n d - 1) * d < 2 * n < (2 * round_half_even n d + 1) * d).
Proof.
  intros Hd. unfold round_half_even. cbv zeta.
  pose proof (Z.div_mod n d ltac:(lia)) as E.
  pose proof (Z.mod_pos_bound n d Hd) as Hr.
  set (q := n / d) in *. set (r := n mod d) in *. clearbody q r.
  destruct (Z.compare_spec (2 * r) d) as [C | C | C].
  - destruct (Z.even q) eqn:Hq.
    + split; [lia | congruence].
    + split; [lia |]. intros Hev. rewrite Z.even_add in Hev. rewrite Hq in Hev. discriminate.
  - split; [lia | intros _; lia].
  - split; [lia | intros _; lia].
Qed.

Lemma round_half_even_unique (n d m : Z) :
  0 < d ->
  (2 * m - 1) * d <= 2 * n <= (2 * m + 1) * d ->
  (Z.even m = false -> (2 * m - 1) * d < 2 * n < (2 * m + 1) * d) ->
  round_half_even n d = m.
Proof.
  intros Hd Hb Hs.
  destruct (round_half_even_spec n d Hd) as [Hb' Hs'].
  set (m' := round_half_even n d) in *.
  assert (Hc : m' = m \/ m' = m + 1 \/ m' = m - 1) by nia.
  destruct Hc as [-> | [-> | ->]]; [reflexivity | |].
  - exfalso.
    assert (E : 2 * n = (2 * m + 1) * d) by nia.
    destruct (Z.even m) eqn:Hm.
    + assert (Z.even (m + 1) = false) by (rewrite Z.even_add, Hm; reflexivity).
      specialize (Hs' H). nia.
    + specialize (Hs eq_refl). nia.
  - exfalso.
    assert (E : 2 * n = (2 * m - 1) * d) by nia.
    destruct (Z.even m) eqn:Hm.
    + assert (Z.even (m - 1) = false) by (rewrite Z.even_sub, Hm; reflexivity).
      specialize (Hs' H). nia.
    + specialize (Hs eq_refl). nia.
Qed.

Lemma pow2_split (a b : Z) : 0 <= a -> 0 <= b -> 2 ^ (a + b) = 2 ^ a * 2 ^ b.
Proof. intros. apply Z.pow_add_r; assumption. Qed.

Lemma pow2_pos (a : Z) : 0 <= a -> 0 < 2 ^ a.
Proof. intros. apply Z.pow_pos_nonneg; lia. Qed.

Lemma binade_spec (n d : Z) :
  0 < n -> 0 < d ->
  (binade n d < 0 /\ n < d) \/
  (0 <= binade n d /\ d * 2 ^ binade n d <= n < d * 2 ^ (binade n d + 1)).
Proof.
  intros Hn Hd. unfold binade.
  pose proof (Z.log2_spec n Hn) as [Ha1 Ha2].
  pose proof (Z.log2_spec d Hd) as [Hb1 Hb2].
  pose proof (Z.log2_nonneg n) as Ha0. pose proof (Z.log2_nonneg d) as Hb0.
  set (a := Z.log2 n) in *. set (b := Z.log2 d) in *. clearbody a b.
  unfold Z.succ in *.
  destruct (Z.ltb_spec n (d * 2 ^ (a - b))) as [C | C].
  - destruct (Z.le_gt_cases (a - b) 0) as [L | L].
    + left. split; [lia |].
      destruct (Z.eq_dec (a - b) 0) as [E | E].
      * rewrite E in C. simpl in C. lia.
      * rewrite Z.pow_neg_r in C by lia. lia.
    + right. split; [lia |]. replace (a - b - 1 + 1) with (a - b) by lia.
      split; [| exact C].
      assert (E : 2 ^ a = 2 ^ b * 2 ^ (a - b - 1) * 2).
      { replace a with (b + (a - b - 1) + 1) at 1 by lia.
        rewrite !pow2_split by lia. reflexivity. }
      assert (E1 : 2 ^ (b + 1) = 2 ^ b * 2) by (rewrite pow2_split by lia; reflexivity).
      pose proof (pow2_pos (a - b - 1) ltac:(lia)). pose proof (pow2_pos b Hb0). nia.
  - destruct (Z.lt_ge_cases (a - b) 0) as [L | L].
    + left. split; [lia |].
      assert (2 ^ (a + 1) <= 2 ^ b) by (apply Z.pow_le_mono_r; lia). lia.
    + right. split; [lia |]. split; [exact C |].
      assert (E : 2 ^ (a + 1) = 2 ^ b * 2 ^ (a - b + 1)).
      { replace (a + 1) with (b + (a - b + 1)) at 1 by lia.
        rewrite pow2_split by lia. reflexivity. }
      pose proof (pow2_pos (a - b + 1) ltac:(lia)). nia.
Qed.

Lemma shift_spec (n d : Z) :
  0 < n -> 0 < d ->
  let sh := Z.max 0 (binade n d - 52) in
  0 <= sh /\ n < d * 2 ^ (sh + 53) /\ (sh = 0 \/ d * 2 ^ (sh + 52) <= n).
Proof.
  intros Hn Hd sh. subst sh.
  destruct (binade_spec n d Hn Hd) as [[L C] | [L [C1 C2]]].
  - rewrite Z.max_l by lia. split; [lia |]. split; [| left; reflexivity].
    simpl. lia.
  - destruct (Z.le_gt_cases (binade n d) 52) as [B | B].
    + rewrite Z.max_l by lia. split; [lia |]. split; [| left; reflexivity].
      assert (2 ^ (binade n d + 1) <= 2 ^ (0 + 53)) by (apply Z.pow_le_mono_r; lia).
      nia.
    + rewrite Z.max_r by lia. split; [lia |].
      replace (binade n d - 52 + 53) with (binade n d + 1) by lia.
      replace (binade n d - 52 + 52) with (binade n d) by lia.
      split; [exact C2 | right; exact C1].
Qed.

Lemma lower_quarter_cases (m sh : Z) :
  (m = 2 ^ 52 /\ 0 < sh /\ lower_quarter m sh = 4 * m - 1) \/
  ((m <> 2 ^ 52 \/ sh <= 0) /\ lower_quarter m sh = 4 * m - 2).
Proof.
  unfold lower_quarter.
  destruct (Z.eqb_spec m (2 ^ 52)); destruct (Z.ltb_spec 0 sh); simpl; lia.
Qed.

Lemma round_units_spec (n d : Z) :
  0 < n -> 0 < d ->
  normal (fst (round_units n d)) (snd (round_units n d)) /\
  within (fst (round_units n d)) (snd (round_units n d)) n d.
Proof.
  intros Hn Hd. unfold round_units.
  destruct (shift_spec n d Hn Hd) as (Hsh & Hup & Hlo).
  set (sh := Z.max 0 (binade n d - 52)) in *. clearbody sh. cbv zeta.
  pose proof (pow2_pos sh Hsh) as HP.
  assert (HD : 0 < d * 2 ^ sh) by nia.
  destruct (round_half_even_spec n (d * 2 ^ sh) HD) as [Hb Hs].
  set (m := round_half_even n (d * 2 ^ sh)) in *. clearbody m.
  rewrite pow2_split in Hup by lia.
  assert (Hm53 : m <= 2 ^ 53).
  { assert ((2 * m - 1) * (d * 2 ^ sh) < (2 * 2 ^ 53) * (d * 2 ^ sh)) by nia.
    apply Z.mul_lt_mono_pos_r in H; [lia | exact HD]. }
  assert (Hm0 : 0 <= m).
  { assert (0 * (d * 2 ^ sh) < (2 * m + 1) * (d * 2 ^ sh)) by nia.
    apply Z.mul_lt_mono_pos_r in H; [lia | exact HD]. }
  assert (Hm52 : sh = 0 \/ 2 ^ 52 <= m).
  { destruct Hlo as [-> | Hlo]; [left; reflexivity | right].
    rewrite pow2_split in Hlo by lia.
    assert ((2 * 2 ^ 52) * (d * 2 ^ sh) <= (2 * m + 1) * (d * 2 ^ sh)) by nia.
    apply Z.mul_le_mono_pos_r in H; [lia | exact HD]. }
  destruct (Z.eqb_spec m (2 ^ 53)) as [E | E]; cbn [fst snd].
  - split.
    + unfold normal. split; [lia |]. split; [lia | right; lia].
    + unfold within.
      destruct (lower_quarter_cases (2 ^ 52) (sh + 1)) as [(_ & _ & ->) | [[C | C] _]];
        [| congruence | lia].
      rewrite pow2_split by lia. change (2 ^ 1) with 2.
      subst m. change (Z.even (2 ^ 52)) with true.
      split; [| discriminate]. change (2 ^ 53) with 9007199254740992 in *.
      change (2 ^ 52) with 4503599627370496 in *. lia.
  - split.
    + unfold normal. split; [lia |]. split; [lia | exact Hm52].
    + unfold within.
      destruct (lower_quarter_cases m sh) as [(Em & Hs0 & ->) | [_ ->]].
      * assert (Hlo' : d * 2 ^ (sh + 52) <= n) by lia.
        rewrite pow2_split in Hlo' by lia.
        subst m. change (Z.even (2 ^ 52)) with true.
        split; [| discriminate].
        change (2 ^ 52) with 4503599627370496 in *. lia.
      * split; [lia |]. intros Hev. specialize (Hs Hev). lia.
Qed.

Lemma pow2_lt_inv (a b : Z) : 0 <= a -> 0 <= b -> 2 ^ a < 2 ^ b -> a < b.
Proof. intros Ha Hb H. apply (Z.pow_lt_mono_r_iff 2); [lia | lia | exact H]. Qed.

Lemma shift_unique (n d sh : Z) :
  0 < n -> 0 < d -> 0 <= sh ->
  n < d * 2 ^ (sh + 53) -> (sh = 0 \/ d * 2 ^ (sh + 52) <= n) ->
  Z.max 0 (binade n d - 52) = sh.
Proof.
  intros Hn Hd Hsh Hup Hlo.
  destruct (shift_spec n d Hn Hd) as (Hsh' & Hup' & Hlo').
  set (sh' := Z.max 0 (binade n d - 52)) in *. clearbody sh'.
  assert (A : sh' <= sh).
  { destruct Hlo' as [-> | Hlo']; [exact Hsh |].
    assert (d * 2 ^ (sh' + 52) < d * 2 ^ (sh + 53)) by lia.
    apply Z.mul_lt_mono_pos_l in H; [| exact Hd].
    apply pow2_lt_inv in H; lia. }
  assert (B : sh <= sh').
  { destruct Hlo as [-> | Hlo]; [exact Hsh' |].
    assert (d * 2 ^ (sh + 52) < d * 2 ^ (sh' + 53)) by lia.
    apply Z.mul_lt_mono_pos_l in H; [| exact Hd].
    apply pow2_lt_inv in H; lia. }
  lia.
Qed.

Lemma round_units_unique (n d m sh : Z) :
  0 < n -> 0 < d -> normal m sh -> within m sh n d ->
  round_units n d = (m, sh).
Proof.
  intros Hn Hd (Hsh & Hm & Hnorm) [Hb Hs].
  pose proof (pow2_pos sh Hsh) as HP.
  assert (HD : 0 < d * 2 ^ sh) by nia.
  unfold round_units.
  destruct (lower_quarter_cases m sh) as [(Em & Hs0 & El) | [Hc El]]; rewrite El in *; clear El.
  - (* the significand is a power of two: the interval below is half as wide *)
    subst m. clear Hs Hm Hnorm.
    destruct (Z.lt_ge_cases n (2 ^ 52 * (d * 2 ^ sh))) as [C | C].
    + assert (E2 : 2 ^ sh = 2 * 2 ^ (sh - 1)).
      { replace sh with (1 + (sh - 1)) at 1 by lia. rewrite pow2_split by lia. reflexivity. }
      pose proof (pow2_pos (sh - 1) ltac:(lia)) as HP1.
      rewrite (shift_unique n d (sh - 1)); [| lia | lia | lia | |].
      * cbv zeta.
        rewrite (round_half_even_unique n (d * 2 ^ (sh - 1)) (2 ^ 53)).
        -- change (2 ^ 53 =? 2 ^ 53) with true. cbv iota. f_equal. lia.
        -- nia.
        -- change (2 ^ 53) with 9007199254740992.
           change (2 ^ 52) with 4503599627370496 in *. nia.
        -- change (Z.even (2 ^ 53)) with true. discriminate.
      * replace (sh - 1 + 53) with (sh + 52) by lia. rewrite pow2_split by lia. lia.
      * destruct (Z.eq_dec sh 1) as [-> | Hne]; [left; reflexivity | right].
        replace (sh - 1 + 52) with ((sh - 1) + 52) by lia. rewrite pow2_split by lia.
        change (2 ^ 52) with 4503599627370496 in *. nia.
    + rewrite (shift_unique n d sh); [| lia | lia | lia | |].
      * cbv zeta.
        rewrite (round_half_even_unique n (d * 2 ^ sh) (2 ^ 52)).
        -- change (2 ^ 52 =? 2 ^ 53) with false. reflexivity.
        -- exact HD.
        -- change (2 ^ 52) with 4503599627370496 in *. lia.
        -- change (Z.even (2 ^ 52)) with true. discriminate.
      * rewrite pow2_split by lia. change (2 ^ 53) with 9007199254740992.
        change (2 ^ 52) with 4503599627370496 in *. lia.
      * right. rewrite pow2_split by lia. lia.
  - rewrite (shift_unique n d sh); [| lia | lia | lia | |].
    + cbv zeta.
      rewrite (round_half_even_unique n (d * 2 ^ sh) m).
      * destruct (Z.eqb_spec m (2 ^ 53)); [lia | reflexivity].
      * exact HD.
      * lia.
      * intros Hev. specialize (Hs Hev). lia.
    + rewrite pow2_split by lia. change (2 ^ 53) with 9007199254740992 in *. nia.
    + destruct (Z.eq_dec sh 0) as [-> | Hsh0]; [left; reflexivity | right].
      destruct Hnorm as [-> | Hn52]; [lia |].
      rewrite pow2_split by lia.
      assert (m <> 2 ^ 52) by lia.
      change (2 ^ 52) with 4503599627370496 in *. nia.
Qed.

Lemma round_ratio_finite_inv (s s' : bool) (n d : Z) (p : positive) (e : Z) :
  0 < d -> round_ratio s n d = S754_finite s' p e ->
  s' = s /\ 0 < n /\ e + 1074 <= 2045 /\
  normal (Zpos p) (e + 1074) /\ within (Zpos p) (e + 1074) (n * 2 ^ 1074) d.
Proof.
  intros Hd H. unfold round_ratio in H.
  destruct (Z.leb_spec n 0) as [Hn | Hn]; [discriminate |].
  assert (Hn' : 0 < n * 2 ^ 1074) by (pose proof (pow2_pos 1074 ltac:(lia)); nia).
  destruct (round_units_spec (n * 2 ^ 1074) d Hn' Hd) as [Hnorm Hw].
  destruct (round_units (n * 2 ^ 1074) d) as [m sh]. cbn [fst snd] in *.
  destruct m as [| q | q]; try discriminate.
  destruct (Z.leb_spec sh 2045) as [Hsh | Hsh]; [| discriminate].
  injection H as <- <- <-.
  replace (sh - 1074 + 1074) with sh by lia.
  split; [reflexivity |]. split; [exact Hn |]. split; [exact Hsh |].
  split; assumption.
Qed.

Lemma round_ratio_within (s : bool) (n d : Z) (p : positive) (e : Z) :
  0 < n -> 0 < d -> e + 1074 <= 2045 ->
  normal (Zpos p) (e + 1074) -> within (Zpos p) (e + 1074) (n * 2 ^ 1074) d ->
  round_ratio s n d = S754_finite s p e.
Proof.
  intros Hn Hd He Hnorm Hw. unfold round_ratio.
  destruct (Z.leb_spec n 0) as [Hn0 | _]; [lia |].
  assert (Hn' : 0 < n * 2 ^ 1074) by (pose proof (pow2_pos 1074 ltac:(lia)); nia).
  rewrite (round_units_unique _ _ _ _ Hn' Hd Hnorm Hw).
  destruct (Z.leb_spec (e + 1074) 2045) as [_ | C]; [| lia].
  f_equal. lia.
Qed.

Lemma pow2_bridge (e : Z) :
  0 <= e + 1074 -> pow2 e * 2 ^ 1074 = 2 ^ (e + 1074) * pow2 (- e).
Proof.
  intros He. unfold pow2.
  destruct (Z.le_gt_cases 0 e) as [C | C].
  - rewrite (Z.max_r 0 e) by lia. rewrite (Z.max_l 0 (- e)) by lia.
    change (2 ^ 0) with 1. rewrite Z.mul_1_r. rewrite <- pow2_split by lia. reflexivity.
  - rewrite (Z.max_l 0 e) by lia. rewrite (Z.max_r 0 (- e)) by lia.
    change (2 ^ 0) with 1. rewrite Z.mul_1_l. rewrite <- pow2_split by lia.
    f_equal. lia.
Qed.

Lemma pow2_positive (e : Z) : 0 < pow2 e.
Proof. unfold pow2. apply pow2_pos. lia. Qed.

Lemma in_gap_within (m e n d : Z) :
  0 <= e + 1074 -> in_gap m e n d -> within m (e + 1074) (n * 2 ^ 1074) d.
Proof.
  intros He [Hb Hs]. unfold within.
  pose proof (pow2_bridge e He) as B.
  pose proof (pow2_positive (- e)) as Hq.
  pose proof (pow2_pos 1074 ltac:(lia)) as HU.
  set (lq := lower_quarter m (e + 1074)) in *. clearbody lq.
  set (P := 2 ^ (e + 1074)) in *. clearbody P.
  set (U := 2 ^ 1074) in *. clearbody U.
  set (a := pow2 e) in *. set (b := pow2 (- e)) in *. clearbody a b.
  assert (E1 : forall c, (c * (d * P)) * b = c * a * d * U).
  { intros c. transitivity (c * d * (a * U)); [rewrite B; ring | ring]. }
  assert (E2 : 4 * (n * U) * b = 4 * n * b * U) by ring.
  split.
  - split.
    + apply (Z.mul_le_mono_pos_r _ _ b Hq). rewrite E1, E2.
      apply Z.mul_le_mono_nonneg_r; [lia | apply Hb].
    + apply (Z.mul_le_mono_pos_r _ _ b Hq). rewrite E1, E2.
      apply Z.mul_le_mono_nonneg_r; [lia | apply Hb].
  - intros Hev. specialize (Hs Hev). split.
    + apply (Z.mul_lt_mono_pos_r b _ _ Hq). rewrite E1, E2.
      apply Z.mul_lt_mono_pos_r; [lia | apply Hs].
    + apply (Z.mul_lt_mono_pos_r b _ _ Hq). rewrite E1, E2.
      apply Z.mul_lt_mono_pos_r; [lia | apply Hs].
Qed.

Lemma within_in_gap (m e n d : Z) :
  0 <= e + 1074 -> within m (e + 1074) (n * 2 ^ 1074) d -> in_gap m e n d.
Proof.
  intros He [Hb Hs]. unfold in_gap.
  pose proof (pow2_bridge e He) as B.
  pose proof (pow2_positive (- e)) as Hq.
  pose proof (pow2_pos 1074 ltac:(lia)) as HU.
  set (lq := lower_quarter m (e + 1074)) in *. clearbody lq.
  set (P := 2 ^ (e + 1074)) in *. clearbody P.
  set (U := 2 ^ 1074) in *. clearbody U.
  set (a := pow2 e) in *. set (b := pow2 (- e)) in *. clearbody a b.
  assert (E1 : forall c, c * a * d * U = (c * (d * P)) * b).
  { intros c. transitivity (c * d * (a * U)); [ring | rewrite B; ring]. }
  assert (E2 : 4 * n * b * U = 4 * (n * U) * b) by ring.
  split.
  - split.
    + apply (Z.mul_le_mono_pos_r _ _ U HU). rewrite E1, E2.
      apply Z.mul_le_mono_nonneg_r; [lia | apply Hb].
    + apply (Z.mul_le_mono_pos_r _ _ U HU). rewrite E1, E2.
      apply Z.mul_le_mono_nonneg_r; [lia | apply Hb].
  - intros Hev. specialize (Hs Hev). split.
    + apply (Z.mul_lt_mono_pos_r U _ _ HU). rewrite E1, E2.
      apply Z.mul_lt_mono_pos_r; [lia | apply Hs].
    + apply (Z.mul_lt_mono_pos_r U _ _ HU). rewrite E1, E2.
      apply Z.mul_lt_mono_pos_r; [lia | apply Hs].
Qed.

(** The interval does not depend on how the decimal is written. *)
Lemma in_gap_ratio (m e n d n' d' : Z) :
  0 < d -> 0 < d' -> n * d' = n' * d -> in_gap m e n d -> in_gap m e n' d'.
Proof.
  intros Hd Hd' E [Hb Hs]. unfold in_gap.
  set (lq := lower_quarter m (e + 1074)) in *. clearbody lq.
  set (a := pow2 e) in *. set (b := pow2 (- e)) in *. clearbody a b.
  assert (E1 : forall c, (c * a * d') * d = (c * a * d) * d') by (intros; ring).
  assert (E2 : (4 * n' * b) * d = (4 * n * b) * d').
  { transitivity (4 * b * (n' * d)); [ring | rewrite <- E; ring]. }
  split.
  - split.
    + apply (Z.mul_le_mono_pos_r _ _ d Hd). rewrite E1, E2.
      apply Z.mul_le_mono_nonneg_r; [lia | apply Hb].
    + apply (Z.mul_le_mono_pos_r _ _ d Hd). rewrite E1, E2.
      apply Z.mul_le_mono_nonneg_r; [lia | apply Hb].
  - intros Hev. specialize (Hs Hev). split.
    + apply (Z.mul_lt_mono_pos_r d _ _ Hd). rewrite E1, E2.
      apply Z.mul_lt_mono_pos_r; [lia | apply Hs].
    + apply (Z.mul_lt_mono_pos_r d _ _ Hd). rewrite E1, E2.
      apply Z.mul_lt_mono_pos_r; [lia | apply Hs].
Qed.

(** ** Rounding a rounded result again *)

Lemma float_round_finite_inv (x : float) (nd : Z) (s : bool) (p : positive) (e : Z) :
  float_round x nd = Return (S754_finite s p e) ->
  exists mx ex,
    x = S754_finite s mx ex /\
    round_ratio s (round_half_even (Zpos mx * pow2 ex * 10 ^ nd) (pow2 (- ex))) (10 ^ nd)
    = S754_finite s p e.
Proof.
  intros H. destruct x as [sx | sx | | sx mx ex]; cbn [float_round] in H;
    try discriminate.
  exists mx, ex.
  destruct (round_ratio sx _ (10 ^ nd)) as [s0 | s0 | | s0 m0 e0] eqn:R; try discriminate.
  injection H as -> -> ->.
  assert (Hs : sx = s).
  { unfold round_ratio in R.
    destruct (_ <=? 0); [discriminate |].
    destruct (round_units _ _) as [m sh]. destruct m; try discriminate.
    destruct (sh <=? 2045); [| discriminate]. congruence. }
  subst sx. split; [reflexivity | exact R].
Qed.

Lemma not_integral (s : bool) (p : positive) (e : Z) :
  float_eq_int (S754_finite s p e) (trunc_finite s p e) = false ->
  e < 0 /\ pow2 e = 1 /\ pow2 (- e) = 2 ^ (- e) /\ (Zpos p = 2 ^ 52 -> 53 <= - e).
Proof.
  unfold float_eq_int, trunc_finite. intros H.
  assert (Hne : Zpos p * pow2 e <> (Zpos p * pow2 e) / pow2 (- e) * pow2 (- e)).
  { intros E. destruct s.
    - rewrite Z.mul_opp_l, <- E, Z.eqb_refl in H. discriminate.
    - rewrite <- E, Z.eqb_refl in H. discriminate. }
  clear H.
  destruct (Z.le_gt_cases 0 e) as [C | C].
  - exfalso. apply Hne. unfold pow2. rewrite (Z.max_l 0 (- e)) by lia.
    change (2 ^ 0) with 1. rewrite Z.div_1_r. ring.
  - unfold pow2 in *. rewrite (Z.max_l 0 e) in * by lia. rewrite (Z.max_r 0 (- e)) in * by lia.
    change (2 ^ 0) with 1 in *.
    split; [exact C |]. split; [reflexivity |]. split; [reflexivity |].
    intros Ep. destruct (Z.le_gt_cases 53 (- e)) as [K | K]; [exact K | exfalso].
    assert (E52 : 2 ^ 52 = 2 ^ (52 - - e) * 2 ^ (- e)).
    { rewrite <- pow2_split by lia. f_equal. lia. }
    pose proof (pow2_pos (- e) ltac:(lia)).
    apply Hne. rewrite Ep, !Z.mul_1_r. rewrite E52.
    rewrite Z.div_mul by lia. reflexivity.
Qed.

Lemma float_round_idempotent (x : float) (s : bool) (p : positive) (e : Z) :
  float_round x 10 = Return (S754_finite s p e) ->
  float_eq_int (S754_finite s p e) (trunc_finite s p e) = false ->
  float_round (S754_finite s p e) 10 = Return (S754_finite s p e).
Proof.
  intros H Hni.
  destruct (float_round_finite_inv _ _ _ _ _ H) as (mx & ex & -> & R).
  clear H.
  apply round_ratio_finite_inv in R; [| reflexivity].
  destruct R as (_ & HN & Hsh & Hnorm & Hw).
  apply within_in_gap in Hw; [| destruct Hnorm; assumption].
  set (N := round_half_even _ _) in *. clearbody N.
  destruct (not_integral _ _ _ Hni) as (He & Ea & Eb & Hbd).
  assert (Hgoal : round_ratio s (round_half_even (Zpos p * pow2 e * 10 ^ 10) (pow2 (- e)))
                    (10 ^ 10) = S754_finite s p e).
  { destruct Hw as [Hb Hs].
    pose proof (pow2_positive (- e)) as Hbpos.
    destruct (round_half_even_spec (Zpos p * pow2 e * 10 ^ 10) (pow2 (- e)) Hbpos) as [Rb Rs].
    assert (Hcase : pow2 (- e) < 10 ^ 10 \/ 10 ^ 10 < pow2 (- e)).
    { rewrite Eb. destruct (Z.le_gt_cases (- e) 33) as [K | K].
      - left. assert (2 ^ (- e) <= 2 ^ 33) by (apply Z.pow_le_mono_r; lia).
        change (2 ^ 33) with 8589934592 in *. change (10 ^ 10) with 10000000000. lia.
      - right. assert (2 ^ 34 <= 2 ^ (- e)) by (apply Z.pow_le_mono_r; lia).
        change (2 ^ 34) with 17179869184 in *. change (10 ^ 10) with 10000000000. lia. }
    assert (Hlq : lower_quarter (Zpos p) (e + 1074) = 4 * Zpos p - 2 \/
                  (lower_quarter (Zpos p) (e + 1074) = 4 * Zpos p - 1 /\
                   2 ^ 53 <= pow2 (- e))).
    { destruct (lower_quarter_cases (Zpos p) (e + 1074)) as [(Ep & _ & El) | [_ El]];
        [right | left; exact El].
      split; [exact El |]. rewrite Eb. apply Z.pow_le_mono_r; [lia | apply Hbd, Ep]. }
    destruct Hcase as [Hlt | Hgt].
    - (* the gap between doubles is wider than 1e-10 *)
      apply round_ratio_within; [ | reflexivity | exact Hsh | exact Hnorm | ].
      + set (N2 := round_half_even _ _) in *. clearbody N2.
        rewrite Ea in *. change (10 ^ 10) with 10000000000 in *. nia.
      + apply in_gap_within; [destruct Hnorm; assumption |].
        set (N2 := round_half_even _ _) in *. clearbody N2.
        unfold in_gap. rewrite Ea in *.
        destruct Hlq as [-> | [_ Hbig]];
          [| change (2 ^ 53) with 9007199254740992 in Hbig;
             change (10 ^ 10) with 10000000000 in Hlt; lia].
        set (b := pow2 (- e)) in *. clearbody b.
        change (10 ^ 10) with 10000000000 in *.
        split; [lia | intros _; lia].
    - (* the gap is narrower: the decimal is found again *)
      rewrite (round_half_even_unique _ _ N).
      + apply round_ratio_within; [exact HN | reflexivity | exact Hsh | exact Hnorm |].
        apply in_gap_within; [destruct Hnorm; assumption | split; assumption].
      + exact Hbpos.
      + rewrite Ea in *. set (b := pow2 (- e)) in *. clearbody b.
        change (10 ^ 10) with 10000000000 in *.
        destruct Hlq as [El | [El _]]; rewrite El in *; lia.
      + intros _. rewrite Ea in *. set (b := pow2 (- e)) in *. clearbody b.
        change (10 ^ 10) with 10000000000 in *.
        destruct Hlq as [El | [El _]]; rewrite El in *; lia. }
  cbn [float_round]. rewrite Hgoal. reflexivity.
Qed.

(** ** The digits of [repr] *)

Lemma pow10_pos (a : Z) : 0 <= a -> 0 < 10 ^ a.
Proof. intros. apply Z.pow_pos_nonneg; lia. Qed.

Lemma pow10_split (a b : Z) : 0 <= a -> 0 <= b -> 10 ^ (a + b) = 10 ^ a * 10 ^ b.
Proof. intros. apply Z.pow_add_r; assumption. Qed.

Lemma count_digits_upper (fuel : nat) (q : Z) :
  0 <= q < 2 ^ (Z.of_nat fuel + 1) ->
  1 <= count_digits fuel q /\ q < 10 ^ count_digits fuel q.
Proof.
  revert q. induction fuel as [| f IH]; intros q Hq.
  - cbn [count_digits]. change (2 ^ (Z.of_nat 0 + 1)) with 2 in Hq.
    change (10 ^ 1) with 10. lia.
  - cbn [count_digits]. destruct (Z.ltb_spec q 10) as [C | C].
    + change (10 ^ 1) with 10. lia.
    + assert (Hq' : 0 <= q / 10 < 2 ^ (Z.of_nat f + 1)).
      { split; [apply Z.div_pos; lia |].
        apply Z.div_lt_upper_bound; [lia |].
        replace (Z.of_nat (S f) + 1) with (1 + (Z.of_nat f + 1)) in Hq by lia.
        rewrite pow2_split in Hq by lia. change (2 ^ 1) with 2 in Hq. lia. }
      destruct (IH _ Hq') as [H1 H2].
      split; [lia |].
      rewrite Z.add_comm, pow10_split by lia. change (10 ^ 1) with 10.
      pose proof (Z.div_mod q 10 ltac:(lia)). pose proof (Z.mod_pos_bound q 10 ltac:(lia)).
      lia.
Qed.

Lemma count_leading_zeros_upper (fuel : nat) (n d : Z) :
  0 < n < d ->
  1 <= count_leading_zeros fuel n d /\
  n * 10 ^ (count_leading_zeros fuel n d - 1) < d.
Proof.
  revert n. induction fuel as [| f IH]; intros n Hn.
  - cbn [count_leading_zeros]. change (10 ^ (1 - 1)) with 1. lia.
  - cbn [count_leading_zeros]. destruct (Z.leb_spec d (n * 10)) as [C | C].
    + change (10 ^ (1 - 1)) with 1. lia.
    + destruct (IH (n * 10) ltac:(lia)) as [H1 H2].
      split; [lia |].
      replace (1 + count_leading_zeros f (n * 10) d - 1)
        with (1 + (count_leading_zeros f (n * 10) d - 1)) by lia.
      rewrite pow10_split by lia. change (10 ^ 1) with 10. lia.
Qed.

Lemma floor_log10_ratio_upper (n d : Z) :
  0 < n -> 0 < d ->
  n * 10 ^ Z.max 0 (- floor_log10_ratio n d)
  < 10 * (d * 10 ^ Z.max 0 (floor_log10_ratio n d)).
Proof.
  intros Hn Hd. unfold floor_log10_ratio.
  destruct (Z.leb_spec d n) as [C | C].
  - assert (Hq : 1 <= n / d) by (apply Z.div_le_lower_bound; lia).
    destruct (count_digits_upper (Z.to_nat (Z.log2 (n / d))) (n / d)) as [H1 H2].
    { split; [lia |]. rewrite Z2Nat.id by apply Z.log2_nonneg.
      apply Z.log2_spec. lia. }
    set (c := count_digits _ _) in *. clearbody c.
    rewrite Z.max_l by lia. rewrite Z.max_r by lia.
    change (10 ^ 0) with 1.
    assert (E : 10 ^ c = 10 * 10 ^ (c - 1)).
    { replace c with (1 + (c - 1)) at 1 by lia. rewrite pow10_split by lia. reflexivity. }
    pose proof (Z.div_mod n d ltac:(lia)). pose proof (Z.mod_pos_bound n d Hd).
    nia.
  - destruct (count_leading_zeros_upper (Z.to_nat (Z.log2 d)) n d ltac:(lia)) as [H1 H2].
    set (j := count_leading_zeros _ _ _) in *. clearbody j.
    rewrite Z.opp_involutive. rewrite Z.max_r by lia. rewrite Z.max_l by lia.
    change (10 ^ 0) with 1.
    assert (E : 10 ^ j = 10 * 10 ^ (j - 1)).
    { replace j with (1 + (j - 1)) at 1 by lia. rewrite pow10_split by lia. reflexivity. }
    nia.
Qed.

Lemma dtoa_loop_eq (fuel : nat) (even : bool) (b S mlo mhi : Z) (acc : list Z) :
  dtoa_loop fuel even b S mlo mhi acc =
  let dig := b / S in
  let b := b mod S in
  let j := b ?= mlo in
  let j1 := if S - mhi <? 0 then Gt else b ?= S - mhi in
  let bump := if dig =? 9 then (9 :: acc, true) else ((dig + 1) :: acc, false) in
  if is_eq j1 && even then
    if dig =? 9 then (9 :: acc, true)
    else ((if is_gt j then dig + 1 else dig) :: acc, false)
  else if is_lt j || (is_eq j && even) then
    if b =? 0 then (dig :: acc, false)
    else if is_gt j1 then
      match 2 * b ?= S with
      | Gt => bump
      | Eq => if Z.odd dig then bump else (dig :: acc, false)
      | Lt => (dig :: acc, false)
      end
    else (dig :: acc, false)
  else if is_gt j1 then bump
  else
    match fuel with
    | O => (dig :: acc, false)
    | S f => dtoa_loop f even (10 * b) S (10 * mlo) (10 * mhi) (dig :: acc)
    end.
Proof. destruct fuel; reflexivity. Qed.

Lemma loop_exit_down (even : bool) (b S mlo mhi : Z) (acc : list Z) :
  0 < S -> 0 <= b < 10 * S -> 0 < mlo -> 0 < mhi -> Forall is_digit acc ->
  b mod S <= mlo -> (even = false -> b mod S < mlo) ->
  loop_result even b S mlo mhi acc (b / S :: acc, false).
Proof.
  intros HS Hb Hlo Hhi Hacc Hle Hlt.
  pose proof (Z.div_mod b S ltac:(lia)) as E.
  pose proof (Z.mod_pos_bound b S HS) as Hr.
  assert (Hd : 0 <= b / S <= 9).
  { split; [apply Z.div_pos; lia | ].
    assert (b / S < 10) by (apply Z.div_lt_upper_bound; lia). lia. }
  exists 0. cbn [fst snd length racc_value]. change (10 ^ 0) with 1.
  split; [lia |]. split; [constructor; [exact Hd | exact Hacc] |].
  split; [lia |].
  set (q := b / S) in *. set (r := b mod S) in *. clearbody q r.
  set (A := racc_value acc). clearbody A. cbv zeta.
  split; [nia | intros Hev; specialize (Hlt Hev); nia].
Qed.

Lemma loop_exit_up (even : bool) (b S mlo mhi : Z) (acc : list Z) :
  0 < S -> 0 <= b < 10 * S -> 0 < mlo -> 0 < mhi -> Forall is_digit acc ->
  S - b mod S <= mhi -> (even = false -> S - b mod S < mhi) ->
  loop_result even b S mlo mhi acc
    (if b / S =? 9 then (9 :: acc, true) else ((b / S + 1) :: acc, false)).
Proof.
  intros HS Hb Hlo Hhi Hacc Hle Hlt.
  pose proof (Z.div_mod b S ltac:(lia)) as E.
  pose proof (Z.mod_pos_bound b S HS) as Hr.
  assert (Hd : 0 <= b / S <= 9).
  { split; [apply Z.div_pos; lia | ].
    assert (b / S < 10) by (apply Z.div_lt_upper_bound; lia). lia. }
  exists 0. change (10 ^ 0) with 1.
  set (q := b / S) in *. set (r := b mod S) in *. clearbody q r.
  set (A := racc_value acc).
  destruct (Z.eqb_spec q 9) as [Eq | Nq]; cbn [fst snd length racc_value]; fold A;
    clearbody A; cbv zeta.
  - split; [lia |]. split; [constructor; [unfold is_digit; lia | exact Hacc] |].
    split; [lia |].
    split; [nia | intros Hev; specialize (Hlt Hev); nia].
  - split; [lia |]. split; [constructor; [unfold is_digit; lia | exact Hacc] |].
    split; [lia |].
    split; [nia | intros Hev; specialize (Hlt Hev); nia].
Qed.

Lemma loop_exit_nine (even : bool) (b S mlo mhi : Z) (acc : list Z) :
  0 < S -> 0 <= b < 10 * S -> 0 < mlo -> 0 < mhi -> Forall is_digit acc ->
  S - b mod S <= mhi -> (even = false -> S - b mod S < mhi) ->
  b / S = 9 ->
  loop_result even b S mlo mhi acc (9 :: acc, true).
Proof.
  intros HS Hb Hlo Hhi Hacc Hle Hlt E.
  pose proof (loop_exit_up even b S mlo mhi acc HS Hb Hlo Hhi Hacc Hle Hlt) as H.
  rewrite E in H. exact H.
Qed.

Lemma loop_exit_incr (even : bool) (b S mlo mhi : Z) (acc : list Z) :
  0 < S -> 0 <= b < 10 * S -> 0 < mlo -> 0 < mhi -> Forall is_digit acc ->
  S - b mod S <= mhi -> (even = false -> S - b mod S < mhi) ->
  b / S <> 9 ->
  loop_result even b S mlo mhi acc ((b / S + 1) :: acc, false).
Proof.
  intros HS Hb Hlo Hhi Hacc Hle Hlt E.
  pose proof (loop_exit_up even b S mlo mhi acc HS Hb Hlo Hhi Hacc Hle Hlt) as H.
  destruct (Z.eqb_spec (b / S) 9); [contradiction | exact H].
Qed.

Lemma loop_step (even : bool) (b S mlo mhi : Z) (acc : list Z) (res : list Z * bool) :
  0 < S -> 0 <= b < 10 * S ->
  loop_result even (10 * (b mod S)) S (10 * mlo) (10 * mhi) (b / S :: acc) res ->
  loop_result even b S mlo mhi acc res.
Proof.
  intros HS Hb (i & Hi & Hdig & Hlen & Hbound).
  pose proof (Z.div_mod b S ltac:(lia)) as E.
  exists (i + 1). split; [lia |]. split; [exact Hdig |].
  split; [cbn [length] in Hlen; lia |].
  cbn [racc_value] in Hbound. cbv zeta in *.
  rewrite pow10_split by lia. change (10 ^ 1) with 10.
  set (q := b / S) in *. set (r := b mod S) in *. clearbody q r.
  set (A := racc_value acc) in *. clearbody A.
  set (V := racc_value (fst res) + _) in *. clearbody V.
  set (P := 10 ^ i) in *. clearbody P.
  assert (E1 : (10 * (q + 10 * A) * S + 10 * r - 10 * mlo) * P
               = (10 * A * S + b - mlo) * (P * 10)) by (rewrite E; ring).
  assert (E2 : (10 * (q + 10 * A) * S + 10 * r + 10 * mhi) * P
               = (10 * A * S + b + mhi) * (P * 10)) by (rewrite E; ring).
  rewrite E1, E2 in Hbound. exact Hbound.
Qed.

Ltac loop_side := assumption || lia || (intros; (lia || discriminate)).

Ltac loop_cases :=
  repeat (match goal with
          | |- context [?x <? ?y] => destruct (Z.ltb_spec x y)
          | |- context [?x =? ?y] => destruct (Z.eqb_spec x y)
          | |- context [?x ?= ?y] => destruct (Z.compare_spec x y)
          | |- context [Z.odd ?x] => destruct (Z.odd x)
          end; cbn [is_eq is_lt is_gt andb orb]).

Ltac loop_exits :=
  first [ apply loop_exit_down; loop_side
        | apply loop_exit_nine; loop_side
        | apply loop_exit_incr; loop_side ].

Lemma digit_of_quotient (b S : Z) : 0 < S -> 0 <= b < 10 * S -> is_digit (b / S).
Proof.
  intros HS Hb. split; [apply Z.div_pos; lia |].
  assert (b / S < 10) by (apply Z.div_lt_upper_bound; lia). lia.
Qed.

Lemma dtoa_loop_spec (fuel : nat) :
  forall (even : bool) (b S mlo mhi : Z) (acc : list Z),
  0 < S -> 0 <= b < 10 * S -> 0 < mlo -> 0 < mhi -> Forall is_digit acc ->
  (S | b * 10 ^ Z.of_nat fuel) ->
  loop_result even b S mlo mhi acc (dtoa_loop fuel even b S mlo mhi acc).
Proof.
  induction fuel as [| f IH]; intros even b S mlo mhi acc HS Hb Hlo Hhi Hacc Hdiv;
    rewrite dtoa_loop_eq; cbv zeta;
    pose proof (Z.mod_pos_bound b S HS) as Hr.
  - assert (Hz : b mod S = 0).
    { apply Z.mod_divide; [lia |]. change (10 ^ Z.of_nat 0) with 1 in Hdiv.
      rewrite Z.mul_1_r in Hdiv. exact Hdiv. }
    destruct even; cbn [andb orb]; loop_cases; try loop_exits; lia.
  - assert (Hstep : loop_result even b S mlo mhi acc
                      (dtoa_loop f even (10 * (b mod S)) S (10 * mlo) (10 * mhi)
                         (b / S :: acc))).
    { apply loop_step; [exact HS | exact Hb |].
      apply IH; try lia.
      - constructor; [apply digit_of_quotient; assumption | exact Hacc].
      - destruct Hdiv as [c Hc].
        exists (c - b / S * 10 ^ Z.of_nat f * 10).
        pose proof (Z.div_mod b S ltac:(lia)) as E.
        replace (Z.of_nat (Datatypes.S f)) with (1 + Z.of_nat f) in Hc by lia.
        rewrite pow10_split in Hc by lia. change (10 ^ 1) with 10 in Hc.
        set (P := 10 ^ Z.of_nat f) in *. clearbody P.
        set (q := b / S) in *. set (r := b mod S) in *. clearbody q r.
        assert (10 * r * P = b * (10 * P) - q * P * 10 * S) by (rewrite E; ring).
        lia. }
    destruct even; cbn [andb orb]; loop_cases; try loop_exits; exact Hstep.
Qed.

Lemma roundoff_spec (racc : list Z) :
  Forall is_digit racc ->
  exists z : Z,
    0 <= z /\
    racc_value (fst (roundoff racc)) * 10 ^ z = racc_value racc + 1 /\
    Z.of_nat (length (fst (roundoff racc))) + z
    = Z.of_nat (length racc) + (if snd (roundoff racc) then 1 else 0) /\
    Forall is_digit (fst (roundoff racc)).
Proof.
  induction racc as [| d r IH]; intros Hd.
  - exists 0. cbn. repeat split; try lia.
    constructor; [unfold is_digit; lia | constructor].
  - inversion Hd as [| ? ? Hd1 Hd2]; subst.
    cbn [roundoff]. destruct (Z.eqb_spec d 9) as [-> | Hne].
    + destruct (IH Hd2) as (z & Hz & Hv & Hl & Hf).
      exists (z + 1). split; [lia |]. split.
      * rewrite pow10_split by lia. change (10 ^ 1) with 10.
        cbn [racc_value]. lia.
      * split; [cbn [length]; lia | exact Hf].
    + exists 0. cbn [fst snd length racc_value]. change (10 ^ 0) with 1.
      split; [lia |]. split; [lia |]. split; [lia |].
      constructor; [unfold is_digit in *; lia | exact Hd2].
Qed.

Lemma digit_value_of_Z (d : Z) : is_digit d -> digit_value (digit_of_Z d) = d.
Proof.
  intros [H0 H9].
  assert (H : d = 0 \/ d = 1 \/ d = 2 \/ d = 3 \/ d = 4 \/ d = 5 \/ d = 6 \/ d = 7
              \/ d = 8 \/ d = 9) by lia.
  repeat (destruct H as [-> | H]; [reflexivity |]). subst. reflexivity.
Qed.

Lemma digits_value_snoc (ds : list digit) (d : digit) :
  digits_value (ds ++ [d]) = 10 * digits_value ds + digit_value d.
Proof. unfold digits_value. rewrite fold_left_app. reflexivity. Qed.

Lemma digits_value_rev (racc : list Z) :
  Forall is_digit racc ->
  digits_value (map digit_of_Z (rev racc)) = racc_value racc.
Proof.
  induction racc as [| d r IH]; intros Hd; [reflexivity |].
  inversion Hd as [| ? ? Hd1 Hd2]; subst.
  cbn [rev racc_value]. rewrite map_app. cbn [map].
  rewrite digits_value_snoc, IH, digit_value_of_Z by assumption. lia.
Qed.

Lemma pow10_shift (k i z x : Z) :
  0 <= i -> 0 <= z -> x = k - i + z ->
  10 ^ z * 10 ^ Z.max 0 k * 10 ^ Z.max 0 (- x)
  = 10 ^ Z.max 0 x * (10 ^ Z.max 0 (- k) * 10 ^ i).
Proof.
  intros Hi Hz Hx.
  rewrite <- !pow10_split by lia. f_equal. lia.
Qed.

Lemma lower_quarter_mlo (m e : Z) :
  4 * m * pow2 e
  - (if (m =? 2 ^ 52) && (-1074 <? e) then pow2 e else 2 * pow2 e)
  = lower_quarter m (e + 1074) * pow2 e.
Proof.
  unfold lower_quarter.
  replace (0 <? e + 1074) with (-1074 <? e)
    by (destruct (Z.ltb_spec (-1074) e), (Z.ltb_spec 0 (e + 1074)); lia || reflexivity).
  destruct ((m =? 2 ^ 52) && (-1074 <? e)); ring.
Qed.

(** The digits of [shortest_digits] are decimal digits and the decimal they
    write rounds to the double. *)
Lemma shortest_digits_spec (m : positive) (e : Z) :
  let ds := fst (shortest_digits m e) in
  let x := snd (shortest_digits m e) - Z.of_nat (length ds) in
  Forall is_digit ds /\
  in_gap (Zpos m) e (digits_value (map digit_of_Z ds) * 10 ^ Z.max 0 x)
         (10 ^ Z.max 0 (- x)).
Proof.
  unfold shortest_digits.
  pose proof (pow2_positive e) as Ha. pose proof (pow2_positive (- e)) as Hb.
  set (a := pow2 e) in *. set (bq := pow2 (- e)) in *.
  pose proof (floor_log10_ratio_upper (4 * Zpos m * a) (4 * bq) ltac:(nia) ltac:(lia)) as Hk.
  set (k := floor_log10_ratio (4 * Zpos m * a) (4 * bq)) in *. clearbody k.
  pose proof (pow10_pos (Z.max 0 k) ltac:(lia)) as Hdn.
  pose proof (pow10_pos (Z.max 0 (- k)) ltac:(lia)) as Hup.
  cbv zeta.
  set (mlo0 := if (Zpos m =? 2 ^ 52) && (-1074 <? e) then a else 2 * a).
  assert (Hmlo0 : 0 < mlo0) by (subst mlo0; destruct (_ && _); lia).
  pose proof (lower_quarter_mlo (Zpos m) e) as Hlq. fold a mlo0 in Hlq.
  set (lq := lower_quarter (Zpos m) (e + 1074)) in *.
  pose proof (dtoa_loop_spec
                (Z.to_nat (Z.max 0 (- e) + Z.max 0 k)) (Z.even (Zpos m))
                (4 * Zpos m * a * 10 ^ Z.max 0 (- k)) (4 * bq * 10 ^ Z.max 0 k)
                (mlo0 * 10 ^ Z.max 0 (- k)) (2 * a * 10 ^ Z.max 0 (- k)) []) as Hloop.
  destruct Hloop as (i & Hi & Hdig & Hlen & Hbound & Hstrict).
  { nia. }
  { split; [nia |]. rewrite <- !Z.mul_assoc in *. lia. }
  { nia. }
  { nia. }
  { constructor. }
  { rewrite Z2Nat.id by lia. rewrite pow10_split by lia.
    exists (Zpos m * a * 10 ^ Z.max 0 (- k) * 5 ^ Z.max 0 (- e)).
    subst bq. unfold pow2.
    replace (10 ^ Z.max 0 (- e)) with (2 ^ Z.max 0 (- e) * 5 ^ Z.max 0 (- e))
      by (rewrite <- Z.pow_mul_l; reflexivity).
    ring. }
  set (up := 10 ^ Z.max 0 (- k)) in *. set (dn := 10 ^ Z.max 0 k) in *.
  destruct (dtoa_loop _ _ _ _ _ _ _) as [racc nine].
  cbn [fst snd length racc_value] in *.
  assert (Hgap : forall V, 
            ((4 * Zpos m * a * up - mlo0 * up) * 10 ^ i <= V * (4 * bq * dn)
               <= (4 * Zpos m * a * up + 2 * a * up) * 10 ^ i) ->
            (Z.even (Zpos m) = false ->
             (4 * Zpos m * a * up - mlo0 * up) * 10 ^ i < V * (4 * bq * dn)
               < (4 * Zpos m * a * up + 2 * a * up) * 10 ^ i) ->
            in_gap (Zpos m) e (V * dn) (up * 10 ^ i)).
  { intros V Hb1 Hs1. unfold in_gap. fold a bq lq.
    replace (lq * a * (up * 10 ^ i)) with ((4 * Zpos m * a * up - mlo0 * up) * 10 ^ i)
      by (rewrite <- Hlq; ring).
    replace ((4 * Zpos m + 2) * a * (up * 10 ^ i))
      with ((4 * Zpos m * a * up + 2 * a * up) * 10 ^ i) by ring.
    replace (4 * (V * dn) * bq) with (V * (4 * bq * dn)) by ring.
    split; assumption. }
  assert (Hfin : forall (racc' : list Z) (decpt z : Z),
            Forall is_digit racc' -> 0 <= z ->
            racc_value racc' * 10 ^ z
            = racc_value racc + (if nine then 1 else 0) ->
            decpt - Z.of_nat (length racc') = k - i + z ->
            Forall is_digit (rev racc') /\
            in_gap (Zpos m) e
              (digits_value (map digit_of_Z (rev racc'))
               * 10 ^ Z.max 0 (decpt - Z.of_nat (length (rev racc'))))
              (10 ^ Z.max 0 (- (decpt - Z.of_nat (length (rev racc')))))).
  { intros racc' decpt z Hd' Hz Hv Hx.
    split; [apply Forall_rev; exact Hd' |].
    rewrite length_rev, digits_value_rev by exact Hd'.
    set (x := decpt - Z.of_nat (length racc')) in *.
    apply (in_gap_ratio _ _ ((racc_value racc + (if nine then 1 else 0)) * dn)
             (up * 10 ^ i)).
    - pose proof (pow10_pos i Hi). nia.
    - apply pow10_pos. lia.
    - rewrite <- Hv. subst up dn.
      pose proof (pow10_shift k i z x Hi Hz Hx) as E.
      transitivity (racc_value racc'
                    * (10 ^ z * 10 ^ Z.max 0 k * 10 ^ Z.max 0 (- x))); [ring |].
      rewrite E. ring.
    - apply Hgap; assumption. }
  destruct nine.
  - destruct (roundoff_spec racc Hdig) as (z & Hz & Hv & Hl & Hf).
    destruct (roundoff racc) as [racc' carry]. cbn [fst snd] in *.
    apply (Hfin racc' _ z Hf Hz Hv).
    destruct carry; lia.
  - cbn [fst snd].
    apply (Hfin racc _ 0 Hdig ltac:(lia)); [change (10 ^ 0) with 1; lia | lia].
Qed.

(** ** Reading the text of [repr] *)

Lemma in_gap_positive (m : positive) (e n d : Z) :
  0 < d -> in_gap (Zpos m) e n d -> 0 < n.
Proof.
  intros Hd [[Hlo _] _].
  pose proof (pow2_positive e) as Ha. pose proof (pow2_positive (- e)) as Hb.
  destruct (lower_quarter_cases (Zpos m) (e + 1074)) as [(_ & _ & El) | [_ El]];
    rewrite El in Hlo; nia.
Qed.

(** A decimal in the rounding interval of a double reads as that double. *)
Lemma float_of_decimal_in_gap (s : bool) (m : positive) (e W x : Z) :
  normal (Zpos m) (e + 1074) -> e + 1074 <= 2045 ->
  in_gap (Zpos m) e (W * 10 ^ Z.max 0 x) (10 ^ Z.max 0 (- x)) ->
  float_of_decimal s W x = S754_finite s m e.
Proof.
  intros Hnorm He Hg. unfold float_of_decimal.
  assert (Hsh : 0 <= e + 1074) by (destruct Hnorm; assumption).
  pose proof (in_gap_positive _ _ _ _ (pow10_pos _ (Z.le_max_l 0 (- x))) Hg) as Hpos.
  destruct (Z.leb_spec 0 x) as [C | C].
  - rewrite Z.max_r in * by lia. rewrite (Z.max_l 0 (- x)) in * by lia.
    change (10 ^ 0) with 1 in *.
    apply round_ratio_within; [exact Hpos | lia | exact He | exact Hnorm |].
    apply in_gap_within; assumption.
  - rewrite Z.max_l in * by lia. rewrite (Z.max_r 0 (- x)) in * by lia.
    change (10 ^ 0) with 1 in *. rewrite Z.mul_1_r in *.
    apply round_ratio_within;
      [exact Hpos | apply pow10_pos; lia | exact He | exact Hnorm |].
    apply in_gap_within; assumption.
Qed.

(** The same decimal written with a zero behind the point. *)
Lemma float_of_decimal_point_zero (s : bool) (m : positive) (e W x : Z) :
  normal (Zpos m) (e + 1074) -> e + 1074 <= 2045 -> 0 <= x ->
  in_gap (Zpos m) e (W * 10 ^ Z.max 0 x) (10 ^ Z.max 0 (- x)) ->
  float_of_decimal s (W * 10 ^ x * 10) (- 1) = S754_finite s m e.
Proof.
  intros Hnorm He Hx Hg. unfold float_of_decimal.
  assert (Hsh : 0 <= e + 1074) by (destruct Hnorm; assumption).
  rewrite Z.max_r in Hg by lia. rewrite (Z.max_l 0 (- x)) in Hg by lia.
  change (10 ^ 0) with 1 in Hg.
  pose proof (in_gap_positive m e (W * 10 ^ x) 1 ltac:(lia) Hg) as Hpos.
  change (0 <=? -1) with false. cbv iota. change (10 ^ (- -1)) with 10.
  apply round_ratio_within; [lia | lia | exact He | exact Hnorm |].
  apply in_gap_within; [exact Hsh |].
  apply (in_gap_ratio _ _ (W * 10 ^ x) 1); [lia | lia | ring | exact Hg].
Qed.

Lemma span_digits_all (ds : list digit) : span_digits (map Digit ds) = (ds, []).
Proof.
  rewrite <- (app_nil_r (map Digit ds)). apply span_digits_app. reflexivity.
Qed.

Lemma lex_number_point (ip fp : list digit) :
  lex_number (map Digit ip ++ Dot :: map Digit fp)
  = Return (NUMBER (PyFloat (float_of_decimal false (digits_value (ip ++ fp))
                               (- Z.of_nat (length fp)))), []).
Proof.
  unfold lex_number. rewrite span_digits_app by reflexivity.
  rewrite span_digits_all. reflexivity.
Qed.

Lemma lex_number_point_exponent (ip fp xs : list digit) (neg : bool) :
  xs <> [] ->
  lex_number (map Digit ip ++ Dot :: map Digit fp
                ++ LowerE :: (if neg then Hyphen else Plus) :: map Digit xs)
  = Return (NUMBER (PyFloat (float_of_decimal false (digits_value (ip ++ fp))
                               (- Z.of_nat (length fp)
                                + (if neg then - digits_value xs else digits_value xs)))),
            []).
Proof.
  intros Hxs. unfold lex_number. rewrite span_digits_app by reflexivity.
  rewrite span_digits_app by reflexivity.
  destruct neg; cbv beta iota zeta; rewrite span_digits_all;
    destruct xs as [| x xs]; try contradiction; reflexivity.
Qed.

Lemma lex_number_exponent (ip xs : list digit) (neg : bool) :
  xs <> [] ->
  lex_number (map Digit ip ++ LowerE :: (if neg then Hyphen else Plus) :: map Digit xs)
  = Return (NUMBER (PyFloat (float_of_decimal false (digits_value ip)
                               (if neg then - digits_value xs else digits_value xs))),
            []).
Proof.
  intros Hxs. unfold lex_number. rewrite span_digits_app by reflexivity.
  destruct neg; cbv beta iota zeta; rewrite span_digits_all, app_nil_r;
    destruct xs as [| x xs]; try contradiction; reflexivity.
Qed.

Lemma digits_value_app (a b : list digit) :
  digits_value (a ++ b) = digits_value a * 10 ^ Z.of_nat (length b) + digits_value b.
Proof.
  induction b as [| d b IH] using rev_ind.
  - rewrite app_nil_r. cbn. lia.
  - rewrite app_assoc, !digits_value_snoc, IH, length_app. cbn [length].
    replace (Z.of_nat (length b + 1)) with (Z.of_nat (length b) + 1) by lia.
    rewrite pow10_split by lia. change (10 ^ 1) with 10. ring.
Qed.

Lemma digits_value_zeros (k : nat) : digits_value (repeat D0 k) = 0.
Proof.
  induction k as [| k IH]; [reflexivity |].
  change (repeat D0 (S k)) with ([D0] ++ repeat D0 k).
  rewrite digits_value_app, IH. reflexivity.
Qed.

Lemma exponent_chars_spec (x : Z) :
  exists xs : list digit,
    xs <> [] /\
    exponent_chars x = (if x <? 0 then Hyphen else Plus) :: map Digit xs /\
    digits_value xs = Z.abs x.
Proof.
  unfold exponent_chars.
  destruct (Z.abs x) as [| p | p] eqn:E.
  - exists [D0; D0]. split; [discriminate |]. split; reflexivity.
  - rewrite chars_of_uint_digits.
    pose proof (digits_value_of_uint (Pos.to_uint p)) as Hv.
    rewrite DecimalPos.Unsigned.of_to in Hv. change (Z.of_N (N.pos p)) with (Zpos p) in Hv.
    pose proof (DecimalPos.Unsigned.to_uint_nonnil p) as Hn.
    destruct (digits_of_uint (Pos.to_uint p)) as [| d [| d' l]] eqn:El.
    + exfalso. destruct (Pos.to_uint p); cbn in El; congruence.
    + exists [D0; d]. split; [discriminate |]. split; [reflexivity |].
      rewrite <- Hv. unfold digits_value. cbn. lia.
    + exists (d :: d' :: l). split; [discriminate |]. split; [reflexivity | exact Hv].
  - pose proof (Z.abs_nonneg x). lia.
Qed.

Lemma float_repr_sign (s : bool) (m : positive) (e : Z) :
  float_repr_finite s m e
  = if s then Hyphen :: float_repr_finite false m e else float_repr_finite false m e.
Proof.
  unfold float_repr_finite. destruct (shortest_digits m e) as [ds decpt].
  destruct s; reflexivity.
Qed.

(** The text of [repr] is a number literal that reads as the double. *)
Lemma lex_number_repr (m : positive) (e : Z) :
  normal (Zpos m) (e + 1074) -> e + 1074 <= 2045 ->
  lex_number (float_repr_finite false m e)
  = Return (NUMBER (PyFloat (S754_finite false m e)), []).
Proof.
  intros Hnorm He. unfold float_repr_finite.
  pose proof (shortest_digits_spec m e) as [Hdig Hgap].
  pose proof (shortest_digits_nonempty m e) as Hne.
  destruct (shortest_digits m e) as [ds decpt]. cbn [fst snd] in *.
  rewrite <- (map_map digit_of_Z Digit).
  set (dd := map digit_of_Z ds) in *.
  assert (Hlen : length dd = length ds) by (subst dd; apply length_map).
  assert (Hdd : dd <> []) by (subst dd; destruct ds; [contradiction | discriminate]).
  rewrite <- Hlen in *. clearbody dd. clear Hdig Hne Hlen ds.
  set (W := digits_value dd) in *.
  set (n := Z.of_nat (length dd)) in *.
  pose proof (float_of_decimal_in_gap false m e W (decpt - n) Hnorm He Hgap) as Hread.
  destruct ((decpt <=? -4) || (16 <? decpt)) eqn:Hsci.
  - (* scientific notation *)
    destruct (exponent_chars_spec (decpt - 1)) as (xs & Hxs & -> & Hv).
    destruct dd as [| d rest]; [contradiction |]. cbn [map].
    assert (Hexp : (if decpt - 1 <? 0 then - digits_value xs else digits_value xs)
                   = decpt - 1).
    { rewrite Hv. destruct (Z.ltb_spec (decpt - 1) 0); lia. }
    destruct rest as [| d' rest'].
    + change (lex_number (map Digit [d] ++ LowerE
                            :: (if decpt - 1 <? 0 then Hyphen else Plus) :: map Digit xs)
              = Return (NUMBER (PyFloat (S754_finite false m e)), [])).
      rewrite (lex_number_exponent [d] xs (decpt - 1 <? 0) Hxs), Hexp.
      subst n. cbn [length] in Hread. change (Z.of_nat 1) with 1 in Hread.
      subst W. rewrite Hread. reflexivity.
    + set (rest := d' :: rest') in *.
      assert (Hshape : (match map Digit rest with [] => [] | _ :: _ => Dot :: map Digit rest end)
                       = Dot :: map Digit rest) by reflexivity.
      rewrite Hshape.
      change (Digit d :: (Dot :: map Digit rest) ++ LowerE
                :: (if decpt - 1 <? 0 then Hyphen else Plus) :: map Digit xs)
        with (map Digit [d] ++ Dot :: map Digit rest ++ LowerE
                :: (if decpt - 1 <? 0 then Hyphen else Plus) :: map Digit xs).
      rewrite (lex_number_point_exponent [d] rest xs (decpt - 1 <? 0) Hxs), Hexp.
      change ([d] ++ rest) with (d :: rest). fold W.
      replace (- Z.of_nat (length rest) + (decpt - 1)) with (decpt - n)
        by (subst n; cbn [length]; lia).
      rewrite Hread. reflexivity.
  - destruct (Z.leb_spec decpt 0) as [C0 | C0].
    + (* zeros behind the point *)
      rewrite <- map_repeat. rewrite <- map_app.
      change (Digit D0 :: Dot :: map Digit (repeat D0 (Z.to_nat (- decpt)) ++ dd))
        with (map Digit [D0] ++ Dot :: map Digit (repeat D0 (Z.to_nat (- decpt)) ++ dd)).
      rewrite lex_number_point.
      replace (digits_value ([D0] ++ repeat D0 (Z.to_nat (- decpt)) ++ dd)) with W.
      2:{ change ([D0] ++ repeat D0 (Z.to_nat (- decpt)) ++ dd)
            with (repeat D0 (S (Z.to_nat (- decpt))) ++ dd).
          rewrite digits_value_app, digits_value_zeros. reflexivity. }
      replace (- Z.of_nat (length (repeat D0 (Z.to_nat (- decpt)) ++ dd)))
        with (decpt - n)
        by (rewrite length_app, repeat_length; subst n; lia).
      rewrite Hread. reflexivity.
    + destruct (Z.ltb_spec decpt n) as [Cn | Cn].
      * (* the point inside the digits *)
        rewrite firstn_map, skipn_map.
        rewrite lex_number_point, firstn_skipn. fold W.
        replace (- Z.of_nat (length (skipn (Z.to_nat decpt) dd))) with (decpt - n)
          by (rewrite length_skipn; subst n; lia).
        rewrite Hread. reflexivity.
      * (* zeros before the point *)
        rewrite <- map_repeat.
        change (map Digit (repeat D0 (Z.to_nat (decpt - n))) ++ [Dot; Digit D0])
          with (map Digit (repeat D0 (Z.to_nat (decpt - n))) ++ Dot :: map Digit [D0]).
        rewrite app_assoc, <- map_app, lex_number_point.
        rewrite !digits_value_app, digits_value_zeros, repeat_length. fold W.
        cbn [length]. change (Z.of_nat 1) with 1. change (10 ^ 1) with 10.
        change (digits_value [D0]) with 0.
        rewrite Z2Nat.id by lia.
        replace ((W * 10 ^ (decpt - n) + 0) * 10 + 0) with (W * 10 ^ (decpt - n) * 10)
          by ring.
        change (- (1)) with (-1).
        rewrite (float_of_decimal_point_zero false m e W (decpt - n) Hnorm He
                   ltac:(lia) Hgap).
        reflexivity.
Qed.

Lemma to_ascii_repr (m : positive) (e : Z) :
  map to_ascii (float_repr_finite false m e) = float_repr_finite false m e.
Proof.
  unfold float_repr_finite.
  destruct (shortest_digits m e) as [ds decpt].
  rewrite <- (map_map digit_of_Z Digit).
  set (dd := map digit_of_Z ds). clearbody dd.
  destruct ((decpt <=? -4) || (16 <? decpt)).
  - destruct (exponent_chars_spec (decpt - 1)) as (xs & _ & -> & _).
    destruct dd as [| d [| d' rest]]; [reflexivity | |].
    + cbn [map app to_ascii]. rewrite to_ascii_digits.
      destruct (decpt - 1 <? 0); reflexivity.
    + cbn [map app to_ascii]. rewrite map_app. cbn [map to_ascii].
      rewrite !to_ascii_digits.
      destruct (decpt - 1 <? 0); reflexivity.
  - destruct (decpt <=? 0).
    + cbn [map to_ascii]. rewrite map_app, <- map_repeat, !to_ascii_digits. reflexivity.
    + destruct (decpt <? Z.of_nat (length ds)).
      * rewrite firstn_map, skipn_map, map_app. cbn [map to_ascii].
        rewrite !to_ascii_digits. reflexivity.
      * rewrite <- map_repeat, !map_app, !to_ascii_digits. reflexivity.
Qed.

Lemma starts_with_digit_repr (m : positive) (e : Z) :
  starts_with_digit (float_repr_finite false m e) = true.
Proof.
  unfold float_repr_finite.
  pose proof (shortest_digits_nonempty m e) as Hne.
  destruct (shortest_digits m e) as [ds decpt]. cbn [fst] in Hne.
  destruct ds as [| d ds]; [contradiction |]. cbn [map].
  destruct ((decpt <=? -4) || (16 <? decpt)); [reflexivity |].
  destruct (Z.leb_spec decpt 0); [reflexivity |].
  destruct (decpt <? _); [| reflexivity].
  destruct (Z.to_nat decpt) eqn:E; [lia | reflexivity].
Qed.

(** A text that is one number literal evaluates to the number; behind a
    minus sign, to its opposite. *)
Lemma py_eval_literal (s : str) (v : value) :
  starts_with_digit s = true ->
  lex_number s = Return (NUMBER v, []) ->
  py_eval s = Return v /\ py_eval (Hyphen :: s) = unary_op USub v.
Proof.
  intros Hs Hl.
  assert (Ht : forall f, tokenize (S (S f)) s = Return [NUMBER v]).
  { intros f. rewrite tokenize_number by exact Hs. rewrite Hl. reflexivity. }
  destruct s as [| c s]; [discriminate |].
  split.
  - unfold py_eval, py_compile. cbn [length]. rewrite Ht. reflexivity.
  - unfold py_eval, py_compile. cbn [length].
    change (tokenize (S (S (S (length s)))) (Hyphen :: c :: s))
      with (ts <- tokenize (S (S (length s))) (c :: s) ;; Return (MINUS :: ts)).
    rewrite Ht. reflexivity.
Qed.

(** [eval(repr(x)) == x] for a finite double. *)
Lemma py_eval_repr (s : bool) (m : positive) (e : Z) :
  normal (Zpos m) (e + 1074) -> e + 1074 <= 2045 ->
  py_eval (calculation (showing (float_repr_finite s m e)))
  = Return (PyFloat (S754_finite s m e)).
Proof.
  intros Hnorm He.
  rewrite calculation_map, showing_expression, float_repr_sign.
  destruct (py_eval_literal _ _ (starts_with_digit_repr m e)
              (lex_number_repr m e Hnorm He)) as [Hpos Hneg].
  destruct s.
  - cbn [map to_ascii]. rewrite to_ascii_repr, Hneg. reflexivity.
  - rewrite to_ascii_repr. exact Hpos.
Qed.

(** [eval(str(n)) == n] for an int that [str] converts. *)
Lemma py_eval_int (n : Z) :
  printable n = true ->
  py_eval (calculation (showing (str_of_int n))) = Return (PyInt n).
Proof.
  intros Hn. rewrite calculation_map, showing_expression.
  assert (H : forall k : N,
            Z.of_nat (length (numeral k)) <= max_str_digits ->
            py_eval (numeral k) = Return (PyInt (Z.of_N k)) /\
            py_eval (Hyphen :: numeral k) = Return (PyInt (- Z.of_N k))).
  { intros k Hk. apply (py_eval_literal (numeral k) (PyInt (Z.of_N k))).
    - destruct (numeral_head k) as [d [ds ->]]. reflexivity.
    - rewrite <- (app_nil_r (numeral k)). apply lex_number_numeral; [exact Hk | reflexivity]. }
  destruct n as [| p | p].
  - reflexivity.
  - change (str_of_int (Z.pos p)) with (numeral (N.pos p)).
    rewrite to_ascii_numeral. apply (H (N.pos p)). apply Z.leb_le, Hn.
  - change (str_of_int (Z.neg p)) with (Hyphen :: numeral (N.pos p)).
    cbn [map to_ascii]. rewrite to_ascii_numeral. apply (H (N.pos p)).
    apply Z.leb_le, Hn.
Qed.

(** ** The form of [repr] *)

Lemma count_digits_lower (fuel : nat) (q : Z) :
  1 <= q -> 1 <= count_digits fuel q /\ 10 ^ (count_digits fuel q - 1) <= q.
Proof.
  revert q. induction fuel as [| f IH]; intros q Hq; cbn [count_digits].
  - change (10 ^ (1 - 1)) with 1. lia.
  - destruct (Z.ltb_spec q 10) as [C | C].
    + change (10 ^ (1 - 1)) with 1. lia.
    + assert (Hq' : 1 <= q / 10) by (apply Z.div_le_lower_bound; lia).
      destruct (IH _ Hq') as [H1 H2]. split; [lia |].
      replace (1 + count_digits f (q / 10) - 1)
        with (1 + (count_digits f (q / 10) - 1)) by lia.
      rewrite pow10_split by lia. change (10 ^ 1) with 10.
      pose proof (Z.div_mod q 10 ltac:(lia)). pose proof (Z.mod_pos_bound q 10 ltac:(lia)).
      lia.
Qed.

Lemma count_leading_zeros_lower (fuel : nat) (n d : Z) :
  0 < n -> d < n * 2 ^ (Z.of_nat fuel + 1) ->
  d <= n * 10 ^ count_leading_zeros fuel n d.
Proof.
  revert n. induction fuel as [| f IH]; intros n Hn Hd; cbn [count_leading_zeros].
  - change (2 ^ (Z.of_nat 0 + 1)) with 2 in Hd. change (10 ^ 1) with 10. lia.
  - destruct (Z.leb_spec d (n * 10)) as [C | C].
    + change (10 ^ 1) with 10. lia.
    + pose proof (count_leading_zeros_upper f (n * 10) d ltac:(lia)) as [H1 _].
      rewrite pow10_split by lia. change (10 ^ 1) with 10.
      rewrite Z.mul_assoc. apply IH; [lia |].
      replace (Z.of_nat (S f) + 1) with (1 + (Z.of_nat f + 1)) in Hd by lia.
      rewrite pow2_split in Hd by lia. change (2 ^ 1) with 2 in Hd.
      pose proof (pow2_pos (Z.of_nat f + 1) ltac:(lia)). nia.
Qed.

Lemma floor_log10_ratio_lower (n d : Z) :
  0 < n -> 0 < d ->
  d * 10 ^ Z.max 0 (floor_log10_ratio n d)
  <= n * 10 ^ Z.max 0 (- floor_log10_ratio n d).
Proof.
  intros Hn Hd. unfold floor_log10_ratio.
  destruct (Z.leb_spec d n) as [C | C].
  - assert (Hq : 1 <= n / d) by (apply Z.div_le_lower_bound; lia).
    destruct (count_digits_lower (Z.to_nat (Z.log2 (n / d))) (n / d) Hq) as [H1 H2].
    set (c := count_digits _ _) in *. clearbody c.
    rewrite Z.max_r by lia. rewrite Z.max_l by lia. change (10 ^ 0) with 1.
    pose proof (Z.div_mod n d ltac:(lia)). pose proof (Z.mod_pos_bound n d Hd).
    nia.
  - pose proof (count_leading_zeros_upper (Z.to_nat (Z.log2 d)) n d ltac:(lia)) as [H1 _].
    pose proof (count_leading_zeros_lower (Z.to_nat (Z.log2 d)) n d Hn) as H2.
    rewrite Z2Nat.id in H2 by apply Z.log2_nonneg.
    pose proof (Z.log2_spec d Hd) as [_ Hl]. unfold Z.succ in Hl.
    pose proof (pow2_pos (Z.log2 d + 1) ltac:(pose proof (Z.log2_nonneg d); lia)).
    specialize (H2 ltac:(nia)).
    set (j := count_leading_zeros _ _ _) in *. clearbody j.
    rewrite Z.opp_involutive. rewrite Z.max_l by lia. rewrite Z.max_r by lia.
    change (10 ^ 0) with 1. lia.
Qed.

Lemma pow10_lt_inv (a b : Z) : 0 <= a -> 0 <= b -> 10 ^ a < 10 ^ b -> a < b.
Proof. intros Ha Hb H. apply (Z.pow_lt_mono_r_iff 10); [lia | lia | exact H]. Qed.

(** The decimal exponent is below [c] when the quotient is below [10 ^ c]. *)
Lemma floor_log10_ratio_lt (n d c : Z) :
  0 < n -> 0 < d -> 0 <= c -> n < d * 10 ^ c -> floor_log10_ratio n d < c.
Proof.
  intros Hn Hd Hc H.
  pose proof (floor_log10_ratio_lower n d Hn Hd) as L.
  set (k := floor_log10_ratio n d) in *. clearbody k.
  destruct (Z.le_gt_cases 0 k) as [K | K]; [| lia].
  rewrite Z.max_r in L by lia. rewrite Z.max_l in L by lia. change (10 ^ 0) with 1 in L.
  apply pow10_lt_inv; [lia | lia |].
  apply (Z.mul_lt_mono_pos_l d); lia.
Qed.

(** The decimal exponent is at least [- c] when the quotient is at least
    [10 ^ - c]. *)
Lemma floor_log10_ratio_ge (n d c : Z) :
  0 < n -> 0 < d -> 0 <= c -> d <= n * 10 ^ c -> - c <= floor_log10_ratio n d.
Proof.
  intros Hn Hd Hc H.
  pose proof (floor_log10_ratio_upper n d Hn Hd) as U.
  set (k := floor_log10_ratio n d) in *. clearbody k.
  destruct (Z.le_gt_cases (- c) k) as [K | K]; [exact K | exfalso].
  rewrite (Z.max_r 0 (- k)) in U by lia. rewrite (Z.max_l 0 k) in U by lia.
  change (10 ^ 0) with 1 in U.
  assert (E : 10 ^ (- k) = 10 * 10 ^ c * 10 ^ (- k - c - 1)).
  { replace (- k) with (1 + c + (- k - c - 1)) at 1 by lia.
    rewrite !pow10_split by lia. reflexivity. }
  pose proof (pow10_pos (- k - c - 1) ltac:(lia)).
  pose proof (pow10_pos c Hc). nia.
Qed.

Lemma loop_divides (b S : Z) (f : nat) :
  0 < S -> (S | b * 10 ^ Z.of_nat (Datatypes.S f)) ->
  (S | 10 * (b mod S) * 10 ^ Z.of_nat f).
Proof.
  intros HS [c Hc].
  exists (c - b / S * 10 ^ Z.of_nat f * 10).
  pose proof (Z.div_mod b S ltac:(lia)) as E.
  replace (Z.of_nat (Datatypes.S f)) with (1 + Z.of_nat f) in Hc by lia.
  rewrite pow10_split in Hc by lia. change (10 ^ 1) with 10 in Hc.
  set (P := 10 ^ Z.of_nat f) in *. clearbody P.
  set (q := b / S) in *. set (r := b mod S) in *. clearbody q r.
  assert (10 * r * P = b * (10 * P) - q * P * 10 * S) by (rewrite E; ring).
  lia.
Qed.

(** The digit loop does not end on a zero: it would have stopped a digit
    earlier. *)
Lemma dtoa_loop_last (fuel : nat) :
  forall (even : bool) (b S mlo mhi : Z) (acc : list Z),
  0 < S -> 0 <= b -> 0 < mlo ->
  (S | b * 10 ^ Z.of_nat fuel) ->
  (S <= b \/ if even then mlo < b else mlo <= b) ->
  snd (dtoa_loop fuel even b S mlo mhi acc) = false ->
  hd 0 (fst (dtoa_loop fuel even b S mlo mhi acc)) <> 0.
Proof.
  induction fuel as [| f IH]; intros even b S mlo mhi acc HS Hb Hlo Hdiv Hpre;
    rewrite dtoa_loop_eq; cbv zeta;
    pose proof (Z.mod_pos_bound b S HS) as Hr;
    pose proof (Z.div_mod b S ltac:(lia)) as E;
    pose proof (Z.div_pos b S Hb HS) as Hq.
  - assert (Hz : b mod S = 0).
    { apply Z.mod_divide; [lia |]. change (10 ^ Z.of_nat 0) with 1 in Hdiv.
      rewrite Z.mul_1_r in Hdiv. exact Hdiv. }
    destruct even; cbn [andb orb]; loop_cases; cbn [fst snd hd]; intros Hf;
      try discriminate; try lia; intros Hd; rewrite Hd in E; lia.
  - pose proof (loop_divides b S f HS Hdiv) as Hdiv'.
    destruct even; cbn [andb orb]; loop_cases;
      try (apply IH; [exact HS | lia | lia | exact Hdiv' | right; lia]);
      cbn [fst snd hd]; intros Hf;
      try discriminate; try lia; intros Hd; rewrite Hd in E; lia.
Qed.

Lemma last_rev_hd {A : Type} (l : list A) (d : A) : last (rev l) d = hd d l.
Proof.
  destruct l as [| a l]; [reflexivity |].
  cbn [rev hd]. apply last_last.
Qed.

Lemma roundoff_carry (racc : list Z) :
  snd (roundoff racc) = true -> fst (roundoff racc) = [1].
Proof.
  induction racc as [| d r IH]; [reflexivity |].
  cbn [roundoff]. destruct (d =? 9); [exact IH | discriminate].
Qed.

Lemma roundoff_head (racc : list Z) :
  Forall is_digit racc -> hd 0 (fst (roundoff racc)) <> 0.
Proof.
  induction racc as [| d r IH]; intros Hd; [cbn; lia |].
  inversion Hd as [| ? ? [Hd0 Hd9] Hr]; subst.
  cbn [roundoff]. destruct (d =? 9); [apply IH, Hr | cbn; lia].
Qed.

(** The decimal point of [shortest_digits] is one behind the decimal
    exponent of the double, or two when the digits were rounded up to a
    single [1]; and the last digit is not a zero. *)
Lemma shortest_digits_shape (m : positive) (e : Z) :
  let k := floor_log10_ratio (4 * Zpos m * pow2 e) (4 * pow2 (- e)) in
  let ds := fst (shortest_digits m e) in
  let decpt := snd (shortest_digits m e) in
  (decpt = k + 1 \/ (decpt = k + 2 /\ ds = [1])) /\ last ds 0 <> 0.
Proof.
  unfold shortest_digits.
  pose proof (pow2_positive e) as Ha. pose proof (pow2_positive (- e)) as Hb.
  set (a := pow2 e) in *. set (bq := pow2 (- e)) in *.
  pose proof (floor_log10_ratio_upper (4 * Zpos m * a) (4 * bq) ltac:(nia) ltac:(lia)) as Hk.
  pose proof (floor_log10_ratio_lower (4 * Zpos m * a) (4 * bq) ltac:(nia) ltac:(lia)) as Hk'.
  set (k := floor_log10_ratio (4 * Zpos m * a) (4 * bq)) in *. clearbody k.
  pose proof (pow10_pos (Z.max 0 k) ltac:(lia)) as Hdn.
  pose proof (pow10_pos (Z.max 0 (- k)) ltac:(lia)) as Hup.
  cbv zeta.
  set (mlo0 := if (Zpos m =? 2 ^ 52) && (-1074 <? e) then a else 2 * a).
  assert (Hmlo0 : 0 < mlo0) by (subst mlo0; destruct (_ && _); lia).
  assert (Hdiv : (4 * bq * 10 ^ Z.max 0 k
                  | 4 * Zpos m * a * 10 ^ Z.max 0 (- k)
                    * 10 ^ Z.of_nat (Z.to_nat (Z.max 0 (- e) + Z.max 0 k)))).
  { rewrite Z2Nat.id by lia. rewrite pow10_split by lia.
    exists (Zpos m * a * 10 ^ Z.max 0 (- k) * 5 ^ Z.max 0 (- e)).
    subst bq. unfold pow2.
    replace (10 ^ Z.max 0 (- e)) with (2 ^ Z.max 0 (- e) * 5 ^ Z.max 0 (- e))
      by (rewrite <- Z.pow_mul_l; reflexivity).
    ring. }
  pose proof (dtoa_loop_spec
                (Z.to_nat (Z.max 0 (- e) + Z.max 0 k)) (Z.even (Zpos m))
                (4 * Zpos m * a * 10 ^ Z.max 0 (- k)) (4 * bq * 10 ^ Z.max 0 k)
                (mlo0 * 10 ^ Z.max 0 (- k)) (2 * a * 10 ^ Z.max 0 (- k)) []) as Hloop.
  destruct Hloop as (i & Hi & Hdig & _).
  { nia. }
  { split; [nia |]. rewrite <- !Z.mul_assoc in *. lia. }
  { nia. }
  { nia. }
  { constructor. }
  { exact Hdiv. }
  pose proof (dtoa_loop_last
                (Z.to_nat (Z.max 0 (- e) + Z.max 0 k)) (Z.even (Zpos m))
                (4 * Zpos m * a * 10 ^ Z.max 0 (- k)) (4 * bq * 10 ^ Z.max 0 k)
                (mlo0 * 10 ^ Z.max 0 (- k)) (2 * a * 10 ^ Z.max 0 (- k)) []) as Hlast.
  specialize (Hlast ltac:(nia) ltac:(nia) ltac:(nia) Hdiv).
  specialize (Hlast ltac:(left; rewrite <- !Z.mul_assoc in *; lia)).
  destruct (dtoa_loop _ _ _ _ _ _ _) as [racc nine].
  cbn [fst snd] in *.
  destruct nine.
  - pose proof (roundoff_carry racc) as Hc.
    pose proof (roundoff_head racc Hdig) as Hh.
    destruct (roundoff racc) as [racc' carry]. cbn [fst snd] in *.
    split.
    + destruct carry; [right | left; reflexivity].
      split; [reflexivity |]. rewrite Hc by reflexivity. reflexivity.
    + rewrite last_rev_hd. exact Hh.
  - cbn [fst snd]. split; [left; reflexivity |].
    rewrite last_rev_hd. apply Hlast. reflexivity.
Qed.

Lemma not_integral_multiple (s : bool) (p : positive) (e N : Z) :
  float_eq_int (S754_finite s p e) (trunc_finite s p e) = false ->
  Zpos p * pow2 e <> N * pow2 (- e).
Proof.
  unfold float_eq_int, trunc_finite. intros H E.
  pose proof (pow2_positive (- e)) as Hb.
  assert (Hq : Zpos p * pow2 e / pow2 (- e) = N)
    by (rewrite E; apply Z.div_mul; lia).
  rewrite Hq in H. destruct s.
  - rewrite Z.mul_opp_l, <- E, Z.eqb_refl in H. discriminate.
  - rewrite <- E, Z.eqb_refl in H. discriminate.
Qed.

(** A decimal in the rounding interval of a double that is not a whole
    number is not a whole number. *)
Lemma in_gap_fraction (s : bool) (m : positive) (e W x : Z) :
  float_eq_int (S754_finite s m e) (trunc_finite s m e) = false ->
  in_gap (Zpos m) e (W * 10 ^ Z.max 0 x) (10 ^ Z.max 0 (- x)) ->
  x < 0.
Proof.
  intros Hni [[Hlo Hhi] _].
  destruct (Z.lt_ge_cases x 0) as [C | C]; [exact C | exfalso].
  rewrite (Z.max_l 0 (- x)) in * by lia. change (10 ^ 0) with 1 in *.
  destruct (not_integral _ _ _ Hni) as (_ & Ea & _ & _).
  apply (not_integral_multiple s m e (W * 10 ^ Z.max 0 x) Hni).
  rewrite Ea in *.
  pose proof (pow2_positive (- e)) as Hb.
  destruct (lower_quarter_cases (Zpos m) (e + 1074)) as [(_ & _ & El) | [_ El]];
    rewrite El in Hlo; lia.
Qed.

Lemma last_digit (ds : list Z) : Forall is_digit ds -> is_digit (last ds 0).
Proof.
  induction ds as [| d ds IH]; intros H; [unfold is_digit; cbn; lia |].
  inversion H as [| ? ? Hd Hds]; subst.
  destruct ds as [| d' ds']; [exact Hd | apply IH, Hds].
Qed.

Lemma last_map_digit (ds : list Z) :
  last (map digit_of_Z ds) D0 = digit_of_Z (last ds 0).
Proof.
  induction ds as [| d ds IH]; [reflexivity |].
  destruct ds as [| d' ds']; [reflexivity | exact IH].
Qed.

Lemma last_skipn {A : Type} (k : nat) (l : list A) (d : A) :
  (k < length l)%nat -> last (skipn k l) d = last l d.
Proof.
  revert l. induction k as [| k IH]; intros l Hk; [reflexivity |].
  destruct l as [| a l]; [cbn in Hk; lia |].
  cbn [skipn]. rewrite IH by (cbn in Hk; lia).
  destruct l as [| a' l']; [cbn in Hk; lia | reflexivity].
Qed.

Lemma trimmed_decimal_point (ip fp : list digit) :
  ip <> [] -> digit_value (last fp D0) <> 0 ->
  trimmed_decimal (map Digit ip ++ Dot :: map Digit fp) = true /\
  trimmed_decimal (Hyphen :: map Digit ip ++ Dot :: map Digit fp) = true.
Proof.
  intros Hip Hfp.
  assert (H : (let '(ip0, r1) := span_digits (map Digit ip ++ Dot :: map Digit fp) in
               match ip0, r1 with
               | _ :: _, Dot :: r =>
                   let '(fp0, r2) := span_digits r in
                   match r2 with
                   | [] => negb (digit_value (last fp0 D0) =? 0)
                   | _ => false
                   end
               | _, _ => false
               end) = true).
  { rewrite span_digits_app by reflexivity.
    destruct ip as [| d ip']; [contradiction |].
    rewrite span_digits_all.
    destruct (Z.eqb_spec (digit_value (last fp D0)) 0); [contradiction | reflexivity]. }
  split; [| exact H].
  unfold trimmed_decimal.
  destruct ip as [| d ip']; [contradiction | exact H].
Qed.

(** A rounded result that is not a whole number and not below 0.0001 in
    magnitude is written as a decimal with no superfluous zero. *)
Lemma repr_trimmed (s : bool) (m : positive) (e : Z) :
  normal (Zpos m) (e + 1074) ->
  float_eq_int (S754_finite s m e) (trunc_finite s m e) = false ->
  ten_thousandth_or_more (S754_finite s m e) = true ->
  trimmed_decimal (float_repr_finite s m e) = true.
Proof.
  intros Hnorm Hni Hbig.
  destruct (not_integral _ _ _ Hni) as (He & Ea & Eb & _).
  pose proof (shortest_digits_spec m e) as [Hdig Hgap].
  pose proof (shortest_digits_shape m e) as [Hpt Hlast].
  pose proof (shortest_digits_nonempty m e) as Hne.
  pose proof (in_gap_fraction s m e _ _ Hni Hgap) as Hx.
  cbv zeta in Hpt, Hlast.
  pose proof (pow2_positive e) as Ha. pose proof (pow2_positive (- e)) as Hb.
  assert (Hk16 : floor_log10_ratio (4 * Zpos m * pow2 e) (4 * pow2 (- e)) < 16).
  { apply floor_log10_ratio_lt; [nia | lia | lia |].
    destruct Hnorm as (_ & [_ Hm] & _).
    rewrite Ea, Eb.
    assert (2 ^ 1 <= 2 ^ (- e)) by (apply Z.pow_le_mono_r; lia).
    change (2 ^ 1) with 2 in *. change (2 ^ 53) with 9007199254740992 in Hm.
    change (10 ^ 16) with 10000000000000000. nia. }
  assert (Hk4 : - 4 <= floor_log10_ratio (4 * Zpos m * pow2 e) (4 * pow2 (- e))).
  { apply (floor_log10_ratio_ge _ _ 4); [nia | lia | lia |].
    cbn [ten_thousandth_or_more] in Hbig. apply Z.leb_le in Hbig. lia. }
  set (k := floor_log10_ratio _ _) in *. clearbody k.
  rewrite float_repr_sign. unfold float_repr_finite.
  destruct (shortest_digits m e) as [ds decpt]. cbn [fst snd] in *.
  assert (Hrange : -4 < decpt <= 16).
  { destruct Hpt as [-> | [-> Hone]]; [lia |]. rewrite Hone in Hx. cbn [length] in Hx. lia. }
  assert (Hlastd : digit_value (last (map digit_of_Z ds) D0) <> 0).
  { rewrite last_map_digit, digit_value_of_Z by (apply last_digit, Hdig). exact Hlast. }
  rewrite <- (map_map digit_of_Z Digit).
  set (dd := map digit_of_Z ds) in *.
  assert (Hlen : length dd = length ds) by (subst dd; apply length_map).
  assert (Hdd : dd <> []) by (subst dd; destruct ds; [contradiction | discriminate]).
  rewrite <- Hlen in *. clearbody dd.
  destruct (Z.leb_spec decpt (-4)) as [C1 | _]; [lia |].
  destruct (Z.ltb_spec 16 decpt) as [C2 | _]; [lia |].
  cbn [orb].
  assert (Hgoal : forall ip fp : list digit,
            ip <> [] -> digit_value (last fp D0) <> 0 ->
            trimmed_decimal
              (if s then Hyphen :: map Digit ip ++ Dot :: map Digit fp
               else map Digit ip ++ Dot :: map Digit fp) = true).
  { intros ip fp Hip Hfp.
    destruct (trimmed_decimal_point ip fp Hip Hfp) as [H1 H2].
    destruct s; assumption. }
  destruct (Z.leb_spec decpt 0) as [C0 | C0].
  - rewrite <- map_repeat, <- map_app.
    apply (Hgoal [D0]); [discriminate |].
    rewrite last_app_nonempty by exact Hdd. exact Hlastd.
  - destruct (Z.ltb_spec decpt (Z.of_nat (length dd))) as [_ | Cn]; [| lia].
    rewrite firstn_map, skipn_map.
    apply Hgoal.
    + destruct dd as [| d rest]; [contradiction |].
      destruct (Z.to_nat decpt) eqn:E; [lia | discriminate].
    + rewrite last_skipn by lia. exact Hlastd.
Qed.

(** ** Formatting *)

Lemma plain_decimal_uint (u : Decimal.uint) : plain_decimal (chars_of_uint u) = true.
Proof. induction u; simpl; auto. Qed.

Lemma plain_decimal_int (n : Z) : plain_decimal (str_of_int n) = true.
Proof. destruct n; simpl; auto using plain_decimal_uint. Qed.

Lemma no_point_uint (u : Decimal.uint) : existsb (char_eqb Dot) (chars_of_uint u) = false.
Proof. induction u; simpl; auto. Qed.

Lemma no_point_int (n : Z) : existsb (char_eqb Dot) (str_of_int n) = false.
Proof. destruct n; simpl; auto using no_point_uint. Qed.

Lemma float_round_normal (x : float) (s : bool) (m : positive) (e : Z) :
  float_round x 10 = Return (S754_finite s m e) ->
  normal (Zpos m) (e + 1074) /\ e + 1074 <= 2045.
Proof.
  intros H.
  destruct (float_round_finite_inv _ _ _ _ _ H) as (mx & ex & _ & R).
  apply round_ratio_finite_inv in R; [| reflexivity].
  destruct R as (_ & _ & Hsh & Hnorm & _). split; assumption.
Qed.

(** A rounded result that is not a whole number is a finite double, and its
    text reads back as it. *)
Lemma fraction_reads_back (x r : float) (n : Z) (s : str) :
  float_round x 10 = Return r ->
  int_of_float r = Return n ->
  float_eq_int r n = false ->
  str_of_float r = Return s ->
  py_eval (calculation (showing s)) = Return (PyFloat r) /\
  (ten_thousandth_or_more r = true -> trimmed_decimal s = true).
Proof.
  intros Hr Hn Hq Hs.
  destruct r as [sr | sr | | sr m e]; cbn [int_of_float] in Hn; try discriminate.
  - injection Hn as <-. cbn in Hq. discriminate.
  - injection Hn as <-. cbn [str_of_float] in Hs. injection Hs as <-.
    destruct (float_round_normal _ _ _ _ Hr) as [Hnorm Hsh].
    split; [apply py_eval_repr; assumption |].
    intros Hbig. apply repr_trimmed; assumption.
Qed.




(** ** Idempotence *)

Lemma calculate_float (self : Calculator) (r : float) (n : Z) (s : str) :
  py_eval (calculation self) = Return (PyFloat r) ->
  SFeqb r pos_inf = false ->
  float_round r 10 = Return r ->
  int_of_float r = Return n ->
  float_eq_int r n = false ->
  str_of_float r = Return s ->
  calculate self = Return (showing s, None).
Proof.
  intros He Hinf Hr Hn Hq Hs. apply calculate_Return.
  unfold calculate_try. rewrite He. cbn [bind]. rewrite Hinf, Hr. cbn [bind].
  rewrite Hn. cbn [bind]. rewrite Hq, Hs. reflexivity.
Qed.

Lemma calculate_printed_int (n : Z) :
  printable n = true ->
  calculate (showing (str_of_int n)) = Return (showing (str_of_int n), None).
Proof.
  intros Hp. rewrite (calculate_int _ n (py_eval_int n Hp)), Hp. reflexivity.
Qed.

(** The text of a result, evaluated, is written as itself. *)
Lemma result_text_fixed (v : value) (s : str) :
  result_text v = Return s -> calculate (showing s) = Return (showing s, None).
Proof.
  destruct v as [n | x |]; cbn [result_text py_str]; intros H.
  - rewrite int_str_printable in H.
    destruct (printable n) eqn:Hp; [| discriminate].
    injection H as <-. apply calculate_printed_int, Hp.
  - apply bind_Return_inv in H. destruct H as [r [Hr H]].
    apply bind_Return_inv in H. destruct H as [n [Hn H]].
    destruct (float_eq_int r n) eqn:Hq.
    + rewrite int_str_printable in H.
      destruct (printable n) eqn:Hp; [| discriminate].
      injection H as <-. apply calculate_printed_int, Hp.
    + destruct r as [sr | sr | | sr m e]; cbn [int_of_float] in Hn; try discriminate.
      * injection Hn as <-. cbn in Hq. discriminate.
      * injection Hn as <-. cbn [str_of_float] in H. injection H as <-.
        destruct (float_round_finite_inv _ _ _ _ _ Hr) as (mx & ex & _ & R).
        apply round_ratio_finite_inv in R; [| reflexivity].
        destruct R as (_ & _ & Hsh & Hnorm & _).
        apply (calculate_float _ (S754_finite sr m e) (trunc_finite sr m e)).
        -- apply py_eval_repr; assumption.
        -- destruct sr; reflexivity.
        -- apply (float_round_idempotent x); assumption.
        -- reflexivity.
        -- exact Hq.
        -- reflexivity.
  - injection H as <-. vm_compute. reflexivity.
Qed.



(** ** Every run of an evaluation *)

Lemma always_bind {A B : Type} (P1 : A -> Prop) (P2 : B -> Prop) (Q : exn -> Prop)
    (m : outcome A) (k : A -> outcome B) :
  always P1 Q m -> (forall a, P1 a -> always P2 Q (k a)) -> always P2 Q (bind m k).
Proof.
  intros Hm Hk. induction m as [a | e | | x y f IH]; cbn [bind always] in *.
  - apply Hk, Hm.
  - exact Hm.
  - exact Hm.
  - intros r. apply IH, Hm.
Qed.

Lemma always_catch {A : Type} (P : A -> Prop) (Q1 Q2 : exn -> Prop)
    (m : outcome A) (h : exn -> outcome A) :
  always P Q1 m -> (forall e, Q1 e -> always P Q2 (h e)) -> always P Q2 (catch m h).
Proof.
  intros Hm Hh. induction m as [a | e | | x y f IH]; cbn [catch always] in *.
  - exact Hm.
  - apply Hh, Hm.
  - exact Hm.
  - intros r. apply IH, Hm.
Qed.

Lemma always_weaken {A : Type} (P1 P2 : A -> Prop) (Q1 Q2 : exn -> Prop)
    (m : outcome A) :
  always P1 Q1 m -> (forall a, P1 a -> P2 a) -> (forall e, Q1 e -> Q2 e) ->
  always P2 Q2 m.
Proof.
  intros Hm HP HQ. induction m as [a | e | | x y f IH]; cbn [always] in *; auto.
Qed.

(** With any C library, an outcome that [always] ends well does. *)
Lemma always_run {A : Type} (P : A -> Prop) (Q : exn -> Prop) (m : outcome A)
    (libm_pow : float -> float -> float * errno) :
  always P Q m ->
  (exists a, run libm_pow m = Return a /\ P a) \/
  (exists e, run libm_pow m = Raise e /\ Q e).
Proof.
  intros Hm. induction m as [a | e | | x y f IH]; cbn [run always] in *.
  - left. exists a. split; [reflexivity | exact Hm].
  - right. exists e. split; [reflexivity | exact Hm].
  - contradiction.
  - apply IH, Hm.
Qed.

(** An outcome that calls no library and returns or raises. *)
Lemma always_Return {A : Type} (P : A -> Prop) (Q : exn -> Prop) (a : A) :
  P a -> always P Q (Return a).
Proof. intros H. exact H. Qed.

Lemma round_ratio_nonneg (n d : Z) : SFltb (round_ratio false n d) pos_zero = false.
Proof.
  unfold round_ratio. destruct (n <=? 0); [reflexivity |].
  destruct (round_units (n * 2 ^ 1074) d) as [m sh].
  destruct m; try reflexivity. destruct (sh <=? 2045); reflexivity.
Qed.

Lemma float_of_decimal_nonneg (D k : Z) :
  SFltb (float_of_decimal false D k) pos_zero = false.
Proof. unfold float_of_decimal. destruct (0 <=? k); apply round_ratio_nonneg. Qed.

Lemma float_of_int_always (n : Z) :
  always (fun x => 0 <= n -> SFltb x pos_zero = false) (fun _ => True) (float_of_int n).
Proof.
  unfold float_of_int.
  destruct (round_ratio (n <? 0) (Z.abs n) 1) eqn:E; cbn [always]; auto;
    intros Hn; rewrite <- E;
    replace (n <? 0) with false by (symmetry; apply Z.ltb_ge, Hn);
    apply round_ratio_nonneg.
Qed.

Lemma as_float_always (v : value) :
  always (fun x => nonneg v = true -> SFltb x pos_zero = false) (fun _ => True)
         (as_float v).
Proof.
  destruct v as [n | x |]; cbn [as_float nonneg].
  - apply (always_weaken _ _ _ _ _ (float_of_int_always n)); [| auto].
    intros x H Hn. apply H, Z.leb_le, Hn.
  - cbn [always]. intros H. destruct (SFltb x pos_zero); [discriminate | reflexivity].
  - exact I.
Qed.

Lemma call_pow_always (negate_result : bool) (iv iw : float) :
  always (fun _ => True) (fun _ => True) (call_pow negate_result iv iw).
Proof.
  unfold call_pow. cbn [always]. intros [ix err].
  destruct (adjust_erange ix err); exact I.
Qed.

(** A power whose base is not below zero is a real number, or an error. *)
Lemma float_pow_always (iv iw : float) :
  SFltb iv pos_zero = false ->
  always (fun _ => True) (fun _ => True) (float_pow iv iw).
Proof.
  intros Hv. unfold float_pow. rewrite Hv.
  repeat match goal with
         | |- always _ _ (if ?c then _ else _) => destruct c
         | |- always _ _ (let a := _ in _) => cbv zeta
         end;
    try exact I; apply call_pow_always.
Qed.

Lemma float_binop_always (op : operator) (x y : float) :
  (op = Pow -> SFltb x pos_zero = false) ->
  always (fun _ => True) (fun _ => True) (float_binop op x y).
Proof.
  intros Hp. destruct op; cbn [float_binop]; try exact I.
  - destruct (float_is_zero y); exact I.
  - unfold float_floor_div. destruct (float_is_zero y); exact I.
  - unfold float_rem. destruct (float_is_zero y); exact I.
  - apply float_pow_always, Hp. reflexivity.
Qed.

Lemma int_binop_always (op : operator) (a b : Z) :
  (op = Pow -> 0 <= a) ->
  always (fun _ => True) (fun _ => True) (int_binop op a b).
Proof.
  intros Hp. destruct op; cbn [int_binop]; try exact I.
  - destruct (b =? 0); [exact I |].
    destruct (round_ratio _ _ _); exact I.
  - destruct (b =? 0); exact I.
  - destruct (b =? 0); exact I.
  - destruct (b <? 0); [| exact I].
    apply (always_bind _ _ _ _ _ (float_of_int_always a)). intros x Hx.
    apply (always_bind _ _ _ _ _ (float_of_int_always b)). intros y _.
    apply (always_bind (fun _ => True)); [| intros; exact I].
    apply float_pow_always, Hx, Hp. reflexivity.
Qed.

Lemma binary_op_always (op : operator) (v w : value) :
  (op = Pow -> nonneg v = true) ->
  always (fun _ => True) (fun _ => True) (binary_op op v w).
Proof.
  intros Hp.
  assert (Hf : always (fun _ => True) (fun _ => True)
                 (x <- as_float v ;; y <- as_float w ;;
                  z <- float_binop op x y ;; Return (PyFloat z))).
  { apply (always_bind _ _ _ _ _ (as_float_always v)). intros x Hx.
    apply (always_bind _ _ _ _ _ (as_float_always w)). intros y _.
    apply (always_bind (fun _ => True)); [| intros; exact I].
    apply float_binop_always. intros E. apply Hx, Hp, E. }
  destruct v as [a | x |], w as [b | y |]; try exact I; try exact Hf.
  cbn [binary_op]. apply int_binop_always. intros E. apply Z.leb_le, (Hp E).
Qed.

Lemma unary_op_always (op : unaryop) (v : value) :
  always (fun _ => True) (fun _ => True) (unary_op op v).
Proof. destruct v, op; exact I. Qed.

(** The evaluation of a tree of the parser returns or raises; the value of
    a primary is not below zero. *)
Lemma eval_expr_always (e : expr) :
  well_parsed e = true ->
  always (fun v => pow_base e = true -> nonneg v = true) (fun _ => True)
         (eval_expr e).
Proof.
  induction e as [v | id | a IH attr | op a IH | a IHa op b IHb];
    cbn [well_parsed eval_expr pow_base]; intros Hw.
  - cbn [always]. auto.
  - destruct (str_eqb id Ellipsis_name); cbn [always]; auto.
  - apply (always_bind _ _ _ _ _ (IH Hw)). intros v _. exact I.
  - apply (always_bind _ _ _ _ _ (IH Hw)). intros v _.
    apply (always_weaken _ _ _ _ _ (unary_op_always op v)); [discriminate | auto].
  - apply andb_prop in Hw. destruct Hw as [Hw Hop].
    apply andb_prop in Hw. destruct Hw as [Ha Hb].
    apply (always_bind _ _ _ _ _ (IHa Ha)). intros va Hva.
    apply (always_bind _ _ _ _ _ (IHb Hb)). intros vb _.
    apply (always_weaken (fun _ => True) _ (fun _ => True));
      [| discriminate | auto].
    apply binary_op_always. intros ->. apply Hva, Hop.
Qed.

(** ** The trees of the parser *)

Lemma consumes_literal (ts r : list token) :
  ts = r \/ consumes ts r ->
  forallb literal_token ts = true -> forallb literal_token r = true.
Proof.
  intros [-> | [pre [u [-> _]]]] H; [exact H |].
  rewrite forallb_app in H. apply andb_prop in H. destruct H as [_ H].
  cbn [forallb] in H. apply andb_prop in H. apply H.
Qed.

Lemma parse_atom_parsed (ts r : list token) (e : expr) :
  forallb literal_token ts = true ->
  parse_atom ts = Return (e, r) -> pow_base e = true /\ well_parsed e = true.
Proof.
  intros Hl. destruct ts as [| t ts]; [discriminate |].
  cbn [forallb] in Hl. apply andb_prop in Hl. destruct Hl as [Ht _].
  destruct t; simpl; intros H; try discriminate; injection H as <- _;
    split; try reflexivity. exact Ht.
Qed.

Lemma parse_trailers_parsed (n : nat) :
  forall (ts r : list token) (e e' : expr),
    (length ts <= n)%nat ->
    pow_base e = true -> well_parsed e = true ->
    parse_trailers e ts = Return (e', r) ->
    pow_base e' = true /\ well_parsed e' = true.
Proof.
  induction n as [| n IH]; intros ts r e e' Hn Hb Hw H.
  - destruct ts; [| simpl in Hn; lia]. injection H as <- _. split; assumption.
  - destruct ts as [| t ts]; [injection H as <- _; split; assumption |].
    destruct t; try (injection H as <- _; split; assumption).
    destruct ts as [| u ts]; [discriminate |].
    destruct u; try discriminate.
    cbn [parse_trailers] in H. cbn [length] in Hn.
    apply (IH ts r (Attribute e id) e'); [lia | reflexivity | exact Hw | exact H].
Qed.

Lemma parse_primary_parsed (ts r : list token) (e : expr) :
  forallb literal_token ts = true ->
  parse_primary ts = Return (e, r) -> pow_base e = true /\ well_parsed e = true.
Proof.
  unfold parse_primary. intros Hl H.
  apply bind_Return_inv in H. destruct H as [[a r0] [Ha H]].
  destruct (parse_atom_parsed _ _ _ Hl Ha) as [Hb Hw].
  apply (parse_trailers_parsed (length r0) _ _ _ _ (le_n _) Hb Hw H).
Qed.

Lemma parse_factor_parsed (fuel : nat) :
  forall (ts r : list token) (e : expr),
    forallb literal_token ts = true ->
    parse_factor fuel ts = Return (e, r) -> well_parsed e = true.
Proof.
  induction fuel as [| f IH]; intros ts r e Hl H; [discriminate |].
  cbn [parse_factor] in H.
  assert (Hpow : bind (parse_primary ts)
                   (fun x => let '(e0, r0) := x in
                      match r0 with
                      | DOUBLESTAR :: r1 =>
                          bind (parse_factor f r1)
                               (fun y => let '(x0, r2) := y in Return (BinOp e0 Pow x0, r2))
                      | _ => Return (e0, r0)
                      end) = Return (e, r) -> well_parsed e = true).
  { intros Hp. apply bind_Return_inv in Hp. destruct Hp as [[e0 r0] [Hp Hq]].
    destruct (parse_primary_parsed _ _ _ Hl Hp) as [Hb Hw].
    apply parse_primary_consumes in Hp.
    pose proof (consumes_literal _ _ (or_intror Hp) Hl) as Hl0.
    destruct r0 as [| t r0]; [injection Hq as <- _; exact Hw |].
    destruct t; try (injection Hq as <- _; exact Hw).
    apply bind_Return_inv in Hq. destruct Hq as [[x0 r2] [Hq Hr]].
    injection Hr as <- _. cbn [forallb] in Hl0.
    apply IH in Hq; [| apply andb_prop in Hl0; apply Hl0].
    cbn [well_parsed]. rewrite Hw, Hq, Hb. reflexivity. }
  destruct ts as [| t ts]; [apply Hpow, H |].
  assert (Hts : forallb literal_token ts = true)
    by (cbn [forallb] in Hl; apply andb_prop in Hl; apply Hl).
  destruct t; try (apply Hpow, H).
  - apply bind_Return_inv in H. destruct H as [[e0 r0] [H Hr]].
    injection Hr as <- _. apply (IH _ _ _ Hts H).
  - apply bind_Return_inv in H. destruct H as [[e0 r0] [H Hr]].
    injection Hr as <- _. apply (IH _ _ _ Hts H).
Qed.

Lemma term_operator_not_pow (t : token) (op : operator) :
  term_operator t = Some op -> op <> Pow.
Proof. destruct t; simpl; intros H; try discriminate; injection H as <-; discriminate. Qed.

Lemma sum_operator_not_pow (t : token) (op : operator) :
  sum_operator t = Some op -> op <> Pow.
Proof. destruct t; simpl; intros H; try discriminate; injection H as <-; discriminate. Qed.

Lemma well_parsed_BinOp (a b : expr) (op : operator) :
  op <> Pow -> well_parsed a = true -> well_parsed b = true ->
  well_parsed (BinOp a op b) = true.
Proof.
  intros Hop Ha Hb. cbn [well_parsed]. rewrite Ha, Hb.
  destruct op; try reflexivity. congruence.
Qed.

Lemma parse_term_rest_parsed (fuel : nat) :
  forall (lhs : expr) (ts r : list token) (e : expr),
    well_parsed lhs = true -> forallb literal_token ts = true ->
    parse_term_rest fuel lhs ts = Return (e, r) -> well_parsed e = true.
Proof.
  induction fuel as [| f IH]; intros lhs ts r e Hw Hl H; [discriminate |].
  destruct ts as [| t ts]; [injection H as <- _; exact Hw |].
  rewrite parse_term_rest_cons in H.
  destruct (term_operator t) as [op |] eqn:Hop; [| injection H as <- _; exact Hw].
  apply bind_Return_inv in H. destruct H as [[rhs r'] [Hf H]].
  cbn [forallb] in Hl. apply andb_prop in Hl. destruct Hl as [_ Hl].
  apply (IH _ _ _ _) in H; [exact H | |].
  - apply well_parsed_BinOp;
      [apply (term_operator_not_pow t), Hop | exact Hw
      | apply (parse_factor_parsed _ _ _ _ Hl Hf)].
  - apply (consumes_literal ts); [| exact Hl].
    right. apply (parse_factor_consumes _ _ _ _ Hf).
Qed.

Lemma parse_term_parsed (fuel : nat) (ts r : list token) (e : expr) :
  forallb literal_token ts = true ->
  parse_term fuel ts = Return (e, r) -> well_parsed e = true.
Proof.
  unfold parse_term. intros Hl H.
  apply bind_Return_inv in H. destruct H as [[e0 r0] [Hf H]].
  apply (parse_term_rest_parsed _ _ _ _ _) in H; [exact H | |].
  - apply (parse_factor_parsed _ _ _ _ Hl Hf).
  - apply (consumes_literal ts); [| exact Hl].
    right. apply (parse_factor_consumes _ _ _ _ Hf).
Qed.

Lemma parse_sum_rest_parsed (fuel : nat) :
  forall (lhs : expr) (ts r : list token) (e : expr),
    well_parsed lhs = true -> forallb literal_token ts = true ->
    parse_sum_rest fuel lhs ts = Return (e, r) -> well_parsed e = true.
Proof.
  induction fuel as [| f IH]; intros lhs ts r e Hw Hl H; [discriminate |].
  destruct ts as [| t ts]; [injection H as <- _; exact Hw |].
  rewrite parse_sum_rest_cons in H.
  destruct (sum_operator t) as [op |] eqn:Hop; [| injection H as <- _; exact Hw].
  apply bind_Return_inv in H. destruct H as [[rhs r'] [Hf H]].
  cbn [forallb] in Hl. apply andb_prop in Hl. destruct Hl as [_ Hl].
  apply (IH _ _ _ _) in H; [exact H | |].
  - apply well_parsed_BinOp;
      [apply (sum_operator_not_pow t), Hop | exact Hw
      | apply (parse_term_parsed _ _ _ _ Hl Hf)].
  - apply (consumes_literal ts); [| exact Hl].
    right. apply (parse_term_consumes _ _ _ _ Hf).
Qed.

Lemma parse_sum_parsed (fuel : nat) (ts r : list token) (e : expr) :
  forallb literal_token ts = true ->
  parse_sum fuel ts = Return (e, r) -> well_parsed e = true.
Proof.
  unfold parse_sum. intros Hl H.
  apply bind_Return_inv in H. destruct H as [[e0 r0] [Hf H]].
  apply (parse_sum_rest_parsed _ _ _ _ _) in H; [exact H | |].
  - apply (parse_term_parsed _ _ _ _ Hl Hf).
  - apply (consumes_literal ts); [| exact Hl].
    right. apply (parse_term_consumes _ _ _ _ Hf).
Qed.

(** ** The tokens of any text *)

Lemma proper_suffix_cons (s r : str) (c : char) :
  proper_suffix s (c :: r) -> proper_suffix s r.
Proof.
  intros [pre [-> _]]. exists (pre ++ [c]). split.
  - rewrite <- app_assoc. reflexivity.
  - destruct pre; discriminate.
Qed.

Lemma proper_suffix_app (s r : str) (a : str) :
  proper_suffix s (a ++ r) -> proper_suffix s r.
Proof.
  intros [pre [-> Hp]]. exists (pre ++ a). split.
  - rewrite <- app_assoc. reflexivity.
  - destruct pre; [congruence | discriminate].
Qed.

Lemma proper_suffix_length (s r : str) :
  proper_suffix s r -> (length r < length s)%nat.
Proof.
  intros [pre [-> Hp]]. rewrite length_app.
  destruct pre; [congruence | simpl; lia].
Qed.

Lemma proper_suffix_forallb (p : char -> bool) (s r : str) :
  proper_suffix s r -> forallb p s = true -> forallb p r = true.
Proof.
  intros [pre [-> _]] H. rewrite forallb_app in H.
  apply andb_prop in H. apply H.
Qed.

Lemma digits_value_nonneg (ds : list digit) : (0 <=? digits_value ds) = true.
Proof. apply Z.leb_le, digits_value_range. Qed.

Lemma lex_number_finish (s r : str) (v : value) :
  nonneg v = true -> proper_suffix s r ->
  lex_number_good s (if verify_end_of_number r
                     then Return (NUMBER v, r) else Raise SyntaxError).
Proof.
  intros Hv Hr. destruct (verify_end_of_number r); [| reflexivity].
  split; [exact Hv | split; [reflexivity | exact Hr]].
Qed.

Ltac lex_cases :=
  repeat match goal with
         | |- lex_number_good _ (match span_digits ?r with _ => _ end) =>
             let E := fresh "E" in
             destruct (span_digits r) as [[| ? ?] ?] eqn:E;
             apply span_digits_spec in E; destruct E as [E _];
             try (rewrite E in *; clear E)
         | |- lex_number_good _ (if verify_end_of_number _ then _ else _) =>
             apply lex_number_finish
         | |- lex_number_good _ (if ?c then _ else _) => destruct c
         | |- lex_number_good _ (match ?x with _ => _ end) => is_var x; destruct x
         end.

(** [lex_number] on any text that starts a number. *)
Lemma lex_number_any (s : str) :
  number_start s = true -> lex_number_good s (lex_number s).
Proof.
  intros Hs. unfold lex_number.
  destruct (span_digits s) as [ip r1] eqn:E1.
  apply span_digits_spec in E1. destruct E1 as [E1 Hd1].
  assert (H1 : ip <> [] -> proper_suffix s r1).
  { intros Hip. exists (map Digit ip). split; [exact E1 |].
    destruct ip; [congruence | discriminate]. }
  assert (Hfrac : forall r fp r2,
             r1 = Dot :: r -> r = map Digit fp ++ r2 -> proper_suffix s r2).
  { intros r fp r2 -> ->. exists (map Digit ip ++ Dot :: map Digit fp). split.
    - rewrite E1, <- app_assoc. reflexivity.
    - destruct ip; discriminate. }
  assert (Hwhole : (forall r, r1 <> Dot :: r) -> proper_suffix s r1).
  { intros Hr. apply H1. intros ->. cbn [map app] in E1. subst r1.
    destruct s as [| [] [| [] s]]; try discriminate Hs; try discriminate Hd1.
    apply (Hr _ eq_refl). }
  destruct r1 as [| c1 r1'].
  - specialize (Hwhole ltac:(discriminate)). cbv beta iota zeta.
    lex_cases; first [reflexivity | apply digits_value_nonneg | exact Hwhole].
  - destruct c1;
      try (specialize (Hwhole ltac:(discriminate)); cbv beta iota zeta;
           lex_cases;
           first [ reflexivity
                 | apply digits_value_nonneg
                 | cbn [nonneg]; rewrite float_of_decimal_nonneg; reflexivity
                 | eauto 6 using proper_suffix_cons, proper_suffix_app ]).
    destruct (span_digits r1') as [fp r2] eqn:E2.
    apply span_digits_spec in E2. destruct E2 as [E2 _].
    pose proof (Hfrac r1' fp r2 eq_refl E2) as H2.
    cbv beta iota zeta.
    lex_cases;
      first [ reflexivity
            | cbn [nonneg]; rewrite float_of_decimal_nonneg; reflexivity
            | eauto 6 using proper_suffix_cons, proper_suffix_app ].
Qed.

Lemma span_identifier_spec (s : str) :
  forall (id r : str), span_identifier s = (id, r) -> s = id ++ r.
Proof.
  induction s as [| c s IH]; intros id r H; cbn [span_identifier] in H.
  - injection H as <- <-. reflexivity.
  - destruct (is_identifier_char c); [| injection H as <- <-; reflexivity].
    destruct (span_identifier s) as [id' r']. injection H as <- <-.
    rewrite (IH id' r' eq_refl). reflexivity.
Qed.

Lemma no_letter_i_name (id : str) :
  no_letter_i id = true -> is_kw_is (name_token id) = false.
Proof.
  intros H. unfold name_token.
  assert (E : str_eqb id keyword_is = false).
  { destruct id as [| c id]; [reflexivity |].
    cbn [no_letter_i forallb] in H. apply andb_prop in H. destruct H as [Hc _].
    destruct c as [d | | | | | | | | | | | | | | |]; try discriminate Hc;
      try reflexivity.
    destruct d; reflexivity. }
  rewrite E. destruct (str_eqb id keyword_else); reflexivity.
Qed.

Lemma tokenize_emit (s r : str) (t : token) (f : nat) :
  tokenize_good r (tokenize f r) ->
  literal_token t = true ->
  (no_letter_i s = true -> is_kw_is t = false /\ no_letter_i r = true) ->
  tokenize_good s (bind (tokenize f r) (fun ts => Return (t :: ts))).
Proof.
  intros Hr Ht Hi.
  destruct (tokenize f r) as [ts | e | | px py pk]; cbn [bind tokenize_good] in *;
    try assumption.
  destruct Hr as [Hl Hk]. split.
  - cbn [forallb]. rewrite Ht, Hl. reflexivity.
  - intros Hs. destruct (Hi Hs) as [Ht' Hr']. cbn [existsb].
    rewrite Ht', (Hk Hr'). reflexivity.
Qed.

Ltac suffix_side :=
  first [ exists [Dot]; split; [reflexivity | discriminate]
        | eexists [_]; split; [reflexivity | discriminate]
        | eexists [_; _]; split; [reflexivity | discriminate]
        | eexists [_; _; _]; split; [reflexivity | discriminate] ].

(** The tokenizer on any text: tokens that hold literals, and no keyword
    [is] when the text has no letter [i]; or a [SyntaxError]. *)
Lemma tokenize_any (fuel : nat) :
  forall s : str, (length s < fuel)%nat -> tokenize_good s (tokenize fuel s).
Proof.
  induction fuel as [| f IH]; intros s Hf; [inversion Hf |].
  assert (Hemit : forall (t : token) (r : str),
             proper_suffix s r -> literal_token t = true -> is_kw_is t = false ->
             tokenize_good s (bind (tokenize f r) (fun ts => Return (t :: ts)))).
  { intros t r Hr Ht Hk. apply tokenize_emit; [| exact Ht |].
    - apply IH. apply proper_suffix_length in Hr. lia.
    - intros Hs. split; [exact Hk |]. apply (proper_suffix_forallb _ s r Hr Hs). }
  assert (Hnum : number_start s = true -> tokenize_good s (tokenize (S f) s)).
  { intros Hs. rewrite tokenize_number_start by exact Hs.
    pose proof (lex_number_any s Hs) as Hl.
    destruct (lex_number s) as [[t r] | e | | px py pk];
      cbn [bind lex_number_good tokenize_good] in *; try assumption.
    destruct Hl as [Hlit [Hk Hr]]. apply Hemit; assumption. }
  assert (Hname : forall id r : str,
             span_identifier s = (id, r) -> id <> [] ->
             tokenize_good s
               (bind (tokenize f r) (fun ts => Return (name_token id :: ts)))).
  { intros id r E Hid. apply span_identifier_spec in E.
    assert (Hr : proper_suffix s r) by (exists id; split; assumption).
    apply tokenize_emit.
    - apply IH. apply proper_suffix_length in Hr. lia.
    - unfold name_token.
      destruct (str_eqb id keyword_is); [reflexivity |].
      destruct (str_eqb id keyword_else); reflexivity.
    - intros Hs. split; [| apply (proper_suffix_forallb _ s r Hr Hs)].
      apply no_letter_i_name. unfold no_letter_i in *. rewrite E, forallb_app in Hs.
      apply andb_prop in Hs. apply Hs. }
  assert (Hletter : forall (c : char) (s' : str),
             s = c :: s' -> is_identifier_char c = true ->
             tokenize_good s
               (let '(id, r) := span_identifier s in
                bind (tokenize f r) (fun ts => Return (name_token id :: ts)))).
  { intros c s' E Hc. destruct (span_identifier s) as [id r] eqn:Es.
    apply Hname; [reflexivity |]. subst s. cbn [span_identifier] in Es.
    rewrite Hc in Es. destruct (span_identifier s'). injection Es as <- _.
    discriminate. }
  destruct s as [| c s]; [split; reflexivity |].
  destruct c.
  - apply Hnum. reflexivity.
  - (* a dot *)
    destruct s as [| c2 s2]; [apply (Hemit DOT []); [suffix_side | reflexivity ..] |].
    destruct c2;
      try (apply (Hemit DOT (_ :: s2)); [suffix_side | reflexivity ..]; fail).
    + apply Hnum. reflexivity.
    + destruct s2 as [| c3 s3];
        [apply (Hemit DOT [Dot]); [suffix_side | reflexivity ..] |].
      destruct c3;
        try (apply (Hemit DOT (Dot :: _ :: s3)); [suffix_side | reflexivity ..]; fail).
      apply (Hemit ELLIPSIS s3); [suffix_side | reflexivity ..].
  - apply (Hemit PLUS s); [suffix_side | reflexivity ..].
  - apply (Hemit PERCENT s); [suffix_side | reflexivity ..].
  - reflexivity.
  - reflexivity.
  - reflexivity.
  - apply (Hemit MINUS s); [suffix_side | reflexivity ..].
  - destruct s as [| c2 s2]; [apply (Hemit STAR []); [suffix_side | reflexivity ..] |].
    destruct c2;
      try (apply (Hemit STAR (_ :: s2)); [suffix_side | reflexivity ..]; fail).
    apply (Hemit DOUBLESTAR s2); [suffix_side | reflexivity ..].
  - destruct s as [| c2 s2]; [apply (Hemit SLASH []); [suffix_side | reflexivity ..] |].
    destruct c2;
      try (apply (Hemit SLASH (_ :: s2)); [suffix_side | reflexivity ..]; fail).
    apply (Hemit DOUBLESLASH s2); [suffix_side | reflexivity ..].
  - apply (Hletter LowerE s); reflexivity.
  - apply (Hletter UpperE s); reflexivity.
  - apply (Hletter LowerL s); reflexivity.
  - apply (Hletter LowerI s); reflexivity.
  - apply (Hletter LowerP s); reflexivity.
  - apply (Hletter LowerS s); reflexivity.
Qed.

(** ** The expressions of a session *)

Lemma no_letter_i_digits (ds : list digit) : no_letter_i (map Digit ds) = true.
Proof. induction ds as [| d ds IH]; [reflexivity | exact IH]. Qed.

Lemma no_letter_i_app (a b : str) :
  no_letter_i (a ++ b) = no_letter_i a && no_letter_i b.
Proof. apply forallb_app. Qed.

Lemma no_letter_i_prefix (a b : str) :
  no_letter_i (a ++ b) = true -> no_letter_i a = true.
Proof.
  rewrite no_letter_i_app. intros H. apply andb_prop in H. apply H.
Qed.

Lemma no_letter_i_suffix (a b : str) :
  no_letter_i (a ++ b) = true -> no_letter_i b = true.
Proof.
  rewrite no_letter_i_app. intros H. apply andb_prop in H. apply H.
Qed.

Lemma no_letter_i_int (n : Z) : no_letter_i (str_of_int n) = true.
Proof.
  destruct n as [| p | p]; cbn [str_of_int]; [reflexivity | |];
    rewrite chars_of_uint_digits; [| cbn [no_letter_i forallb andb]];
    apply no_letter_i_digits.
Qed.

Lemma no_letter_i_repr (s : bool) (m : positive) (e : Z) :
  no_letter_i (float_repr_finite s m e) = true.
Proof.
  rewrite float_repr_sign.
  assert (H : no_letter_i (float_repr_finite false m e) = true);
    [| destruct s; exact H].
  unfold float_repr_finite.
  destruct (shortest_digits m e) as [ds decpt].
  rewrite <- (map_map digit_of_Z Digit).
  set (dd := map digit_of_Z ds). clearbody dd.
  destruct ((decpt <=? -4) || (16 <? decpt)).
  - destruct (exponent_chars_spec (decpt - 1)) as (xs & _ & -> & _).
    destruct dd as [| d [| d' rest]]; [reflexivity | |].
    + cbn [map app]. destruct (decpt - 1 <? 0);
        cbn [no_letter_i forallb andb]; apply no_letter_i_digits.
    + cbn [map app]. change (no_letter_i (?c :: ?l)) with (no_letter_i l).
      cbn [no_letter_i forallb andb].
      change (forallb _ ?l) with (no_letter_i l).
      rewrite no_letter_i_app, no_letter_i_digits. cbn [andb].
      destruct (decpt - 1 <? 0); cbn [no_letter_i forallb andb];
        apply no_letter_i_digits.
  - destruct (decpt <=? 0).
    + cbn [no_letter_i forallb andb]. change (forallb _ ?l) with (no_letter_i l).
      rewrite <- map_repeat, no_letter_i_app, !no_letter_i_digits. reflexivity.
    + destruct (decpt <? Z.of_nat (length ds)).
      * rewrite firstn_map, skipn_map, no_letter_i_app.
        cbn [no_letter_i forallb andb]. change (forallb _ ?l) with (no_letter_i l).
        rewrite !no_letter_i_digits. reflexivity.
      * rewrite <- map_repeat, !no_letter_i_app, !no_letter_i_digits. reflexivity.
Qed.

Lemma float_round_cases (x : float) (nd : Z) :
  (exists r, float_round x nd = Return r) \/ (exists e, float_round x nd = Raise e).
Proof.
  unfold float_round. destruct x; eauto.
  destruct (round_ratio _ _ _); eauto.
Qed.

(** The text [calculate] writes for a result is a text of a session. *)
Lemma result_text_ok (v : value) (s : str) :
  result_text v = Return s -> expression_ok s.
Proof.
  destruct v as [n | x |]; cbn [result_text py_str]; intros H.
  - apply int_str_Return in H. destruct H as [-> _]. left. apply no_letter_i_int.
  - apply bind_Return_inv in H. destruct H as [r [Hr H]].
    apply bind_Return_inv in H. destruct H as [n [Hn H]].
    destruct (float_eq_int r n).
    + apply int_str_Return in H. destruct H as [-> _]. left. apply no_letter_i_int.
    + destruct r as [sr | sr | | sr m e]; cbn [str_of_float] in H; try discriminate;
        injection H as <-; left; [destruct sr; reflexivity | apply no_letter_i_repr].
  - injection H as <-. right. exists 8%nat, []. split; reflexivity.
Qed.

(** What lines 183 to 198 do with the result of [eval]. *)
Lemma calculate_result_always (self : Calculator) (result : value) :
  always reported (fun _ => True)
    (' (self', shown) <-
       match result with
       | PyFloat x =>
           if SFeqb x pos_inf
           then Return (set_expression self [], Some DivisionByZeroIsNotAllowed)
           else
             r <- float_round x 10 ;;
             n <- int_of_float r ;;
             if float_eq_int r n
             then s <- int_str n ;; Return (set_expression self s, None)
             else s <- str_of_float r ;; Return (set_expression self s, None)
       | _ => s <- py_str result ;; Return (set_expression self s, None)
       end ;;
     Return (update_display self', shown)).
Proof.
  assert (Hint : forall (n : Z) (v : value),
             (forall s, int_str n = Return s -> result_text v = Return s) ->
             always reported (fun _ => True)
               (' (self', shown) <-
                  (s <- int_str n ;; Return (set_expression self s, None)) ;;
                Return (update_display self', shown))).
  { intros n v Hv. destruct (int_str n) as [s | e | | px py pk] eqn:E;
      try exact I; try (rewrite int_str_printable in E; destruct (printable n); discriminate).
    exists v, s. split; [apply Hv; reflexivity | reflexivity]. }
  destruct result as [n | x |].
  - apply (Hint n (PyInt n)). intros s Hs. exact Hs.
  - destruct (SFeqb x pos_inf); [reflexivity |].
    destruct (float_round_cases x 10) as [[r Hr] | [e Hr]]; rewrite Hr; [| exact I].
    cbn [bind].
    assert (Hv : forall n s,
               int_of_float r = Return n ->
               (if float_eq_int r n then int_str n else str_of_float r) = Return s ->
               result_text (PyFloat x) = Return s).
    { intros n s Hn Hs. cbn [result_text]. rewrite Hr. cbn [bind].
      rewrite Hn. cbn [bind]. exact Hs. }
    destruct r as [sr | sr | | sr m e]; cbn [int_of_float bind]; try exact I.
    + destruct (float_eq_int (S754_zero sr) 0) eqn:Hq.
      * apply (Hint 0 (PyFloat x)). intros s Hs.
        apply (Hv 0 s eq_refl). rewrite Hq. exact Hs.
      * exists (PyFloat x). eexists. split; [| reflexivity].
        apply (Hv 0 _ eq_refl). rewrite Hq. reflexivity.
    + destruct (float_eq_int (S754_finite sr m e) (trunc_finite sr m e)) eqn:Hq.
      * apply (Hint (trunc_finite sr m e) (PyFloat x)). intros s Hs.
        apply (Hv _ s eq_refl). rewrite Hq. exact Hs.
      * exists (PyFloat x). eexists. split; [| reflexivity].
        apply (Hv _ _ eq_refl). rewrite Hq. reflexivity.
  - exists PyEllipsis, Ellipsis_name. split; reflexivity.
Qed.

Lemma to_ascii_no_letter_i (s : str) :
  no_letter_i (map to_ascii s) = no_letter_i s.
Proof.
  induction s as [| c s IH]; [reflexivity |].
  cbn [map no_letter_i forallb]. unfold no_letter_i in IH. rewrite IH.
  destruct c; reflexivity.
Qed.

Lemma keys_no_letter_i (keys : str) :
  forallb is_key keys = true -> no_letter_i keys = true.
Proof.
  induction keys as [| c keys IH]; [reflexivity |].
  cbn [forallb no_letter_i]. intros H. apply andb_prop in H. destruct H as [Hc Hk].
  unfold no_letter_i in IH. rewrite (IH Hk).
  destruct c; try discriminate Hc; reflexivity.
Qed.

Lemma span_identifier_app (l p : str) :
  forallb is_identifier_char l = true ->
  span_identifier (l ++ p)
  = (l ++ fst (span_identifier p), snd (span_identifier p)).
Proof.
  induction l as [| c l IH]; intros H.
  - cbn [app]. destruct (span_identifier p). reflexivity.
  - cbn [forallb] in H. apply andb_prop in H. destruct H as [Hc Hl].
    cbn [app span_identifier]. rewrite Hc, (IH Hl). reflexivity.
Qed.

Lemma Ellipsis_prefix (k : nat) :
  firstn k Ellipsis_name = [] \/
  exists l, firstn k Ellipsis_name = UpperE :: l /\
            forallb is_identifier_char l = true /\
            map to_ascii l = l.
Proof.
  do 9 (destruct k as [| k]; [cbn; eauto 6 |]).
  cbn. eauto 6.
Qed.

(** The tokens of the expression of a session hold no keyword [is]. *)
Lemma expression_ok_tokens (s : str) (ts : list token) :
  expression_ok s ->
  tokenize (S (length (map to_ascii s))) (map to_ascii s) = Return ts ->
  existsb is_kw_is ts = false.
Proof.
  intros Hs Ht.
  pose proof (tokenize_any (S (length (map to_ascii s))) (map to_ascii s) (le_n _)) as Hg.
  destruct Hs as [Hi | (k & keys & -> & Hk)].
  - rewrite Ht in Hg. apply Hg. rewrite to_ascii_no_letter_i. exact Hi.
  - assert (Hkeys : no_letter_i (map to_ascii keys) = true)
      by (rewrite to_ascii_no_letter_i; apply keys_no_letter_i, Hk).
    destruct (Ellipsis_prefix k) as [E | (l & E & Hl & Ha)]; rewrite E in *.
    + rewrite Ht in Hg. apply Hg. exact Hkeys.
    + clear Hg. rewrite map_app in Ht. cbn [map to_ascii app length] in Ht.
      rewrite Ha in Ht.
      set (f := S (length (l ++ map to_ascii keys))) in Ht.
      change (tokenize (S f) (UpperE :: l ++ map to_ascii keys))
        with (let '(id, r) := span_identifier (UpperE :: l ++ map to_ascii keys) in
              bind (tokenize f r) (fun ts => Return (name_token id :: ts))) in Ht.
      change (UpperE :: l ++ map to_ascii keys)
        with ((UpperE :: l) ++ map to_ascii keys) in Ht.
      rewrite span_identifier_app in Ht by (cbn [forallb]; rewrite Hl; reflexivity).
      destruct (span_identifier (map to_ascii keys)) as [ds r] eqn:Es.
      cbn [fst snd] in Ht.
      apply span_identifier_spec in Es.
      pose proof (tokenize_any f r) as Hr.
      assert (Hlen : (length r < f)%nat).
      { unfold f. rewrite Es, !length_app. lia. }
      specialize (Hr Hlen).
      destruct (tokenize f r) as [ts' | e | | px py pk]; cbn [bind] in Ht;
        try discriminate.
      injection Ht as <-. cbn [existsb]. destruct Hr as [_ Hr].
      rewrite Es in Hkeys. rewrite (Hr (no_letter_i_suffix ds r Hkeys)).
      unfold name_token.
      assert (Ekw : forall id, str_eqb (UpperE :: id) keyword_is = false)
        by reflexivity.
      cbn [app]. rewrite Ekw, orb_false_r.
      match goal with |- is_kw_is (if ?c then _ else _) = false => destruct c end;
        reflexivity.
Qed.

(** [compile] on the expression of a session: a tree of the parser, or a
    [SyntaxError]. *)
Lemma py_compile_always (self : Calculator) :
  expression_ok (expression self) ->
  always (fun e => well_parsed e = true) (fun e => e = SyntaxError)
         (py_compile (calculation self)).
Proof.
  intros Hs. rewrite calculation_map. unfold py_compile.
  pose proof (tokenize_any (S (length (map to_ascii (expression self)))) _ (le_n _)) as Hg.
  pose proof (expression_ok_tokens (expression self)) as Hk.
  destruct (tokenize _ (map to_ascii (expression self))) as [ts | e | | px py pk];
    cbn [tokenize_good bind always] in *; try assumption; try contradiction.
  rewrite (Hk ts Hs eq_refl). destruct Hg as [Hl _].
  pose proof (parse_sum_syntactic (S (length ts)) ts (le_n _)) as Hp.
  destruct (parse_sum (S (length ts)) ts) as [[e r] | e | | px py pk] eqn:E;
    cbn [syntactic bind always] in *; try assumption; try contradiction.
  destruct r; cbn [always]; [| reflexivity].
  apply (parse_sum_parsed _ _ _ _ Hl E).
Qed.

(** Whatever the C library answers, [calculate] on the expression of a
    session returns, with a result or with a report. *)
Lemma calculate_always (self : Calculator) :
  expression_ok (expression self) ->
  always reported (fun _ => False) (calculate self).
Proof.
  intros Hs. unfold calculate.
  apply (always_catch _ (fun _ => True)).
  - unfold calculate_try, py_eval.
    apply (always_bind (fun _ => True)).
    + apply (always_bind _ _ _ _ _
               (always_weaken _ _ _ (fun _ => True) _ (py_compile_always self Hs)
                  (fun e H => H) (fun _ _ => I))).
      intros e He.
      apply (always_weaken _ _ _ _ _ (eval_expr_always e He)); auto.
    + intros result _. apply calculate_result_always.
  - intros e _. destruct e; reflexivity.
Qed.

Lemma removelast_keys (keys : str) :
  forallb is_key keys = true -> forallb is_key (removelast keys) = true.
Proof.
  induction keys as [| c [| c' keys] IH]; [reflexivity | reflexivity |].
  intros H. cbn [forallb] in H. apply andb_prop in H. destruct H as [Hc H].
  change (removelast (c :: c' :: keys)) with (c :: removelast (c' :: keys)).
  cbn [forallb]. rewrite Hc. apply IH, H.
Qed.

Lemma removelast_no_letter_i (s : str) :
  no_letter_i s = true -> no_letter_i (removelast s) = true.
Proof.
  destruct s as [| c s] using rev_ind; [reflexivity |].
  rewrite removelast_last. apply no_letter_i_prefix.
Qed.

Lemma removelast_Ellipsis (k : nat) :
  exists k', removelast (firstn k Ellipsis_name) = firstn k' Ellipsis_name.
Proof.
  do 9 (destruct k as [| k];
        [first [ exists 0%nat; reflexivity | exists 1%nat; reflexivity
               | exists 2%nat; reflexivity | exists 3%nat; reflexivity
               | exists 4%nat; reflexivity | exists 5%nat; reflexivity
               | exists 6%nat; reflexivity | exists 7%nat; reflexivity ] |]).
  exists 7%nat. reflexivity.
Qed.

Lemma expression_ok_removelast (s : str) :
  expression_ok s -> expression_ok (removelast s).
Proof.
  intros [Hi | (k & keys & -> & Hk)].
  - left. apply removelast_no_letter_i, Hi.
  - right. destruct keys as [| c keys].
    + rewrite app_nil_r. destruct (removelast_Ellipsis k) as [k' ->].
      exists k', []. rewrite app_nil_r. split; reflexivity.
    + rewrite removelast_app by discriminate.
      exists k, (removelast (c :: keys)). split; [reflexivity |].
      apply removelast_keys, Hk.
Qed.

Lemma expression_ok_key (s : str) (c : char) :
  is_key c = true -> expression_ok s -> expression_ok (s ++ [c]).
Proof.
  intros Hc [Hi | (k & keys & -> & Hk)].
  - left. rewrite no_letter_i_app, Hi.
    destruct c; try discriminate Hc; reflexivity.
  - right. exists k, (keys ++ [c]). split; [rewrite app_assoc; reflexivity |].
    rewrite forallb_app, Hk. cbn [forallb]. rewrite Hc. reflexivity.
Qed.

Lemma reported_ok (r : Calculator * option message) :
  reported r -> expression_ok (expression (fst r)).
Proof.
  destruct r as [c [m |]]; unfold reported; cbn [fst snd].
  - intros ->. left. reflexivity.
  - intros (v & s & Hv & ->). rewrite showing_expression.
    apply (result_text_ok v), Hv.
Qed.

(** With any C library, [calculate] on the expression of a session returns
    what it owes. *)
Lemma calculate_run (libm_pow : float -> float -> float * errno) (self : Calculator) :
  expression_ok (expression self) ->
  exists r, run libm_pow (calculate self) = Return r /\ reported r.
Proof.
  intros Hs.
  destruct (always_run _ _ _ libm_pow (calculate_always self Hs))
    as [[r Hr] | [e [_ []]]].
  exists r. exact Hr.
Qed.

Lemma click_ok (libm_pow : float -> float -> float * errno)
    (self : Calculator) (b : button) :
  on_keypad b = true -> expression_ok (expression self) ->
  exists self', click libm_pow self b = Return self' /\
                expression_ok (expression self').
Proof.
  intros Hb Hs. destruct b as [c | | |]; cbn [click].
  - eexists. split; [reflexivity |]. apply expression_ok_key; assumption.
  - eexists. split; [reflexivity |]. left. reflexivity.
  - eexists. split; [reflexivity |]. apply expression_ok_removelast, Hs.
  - destruct (calculate_run libm_pow self Hs) as [[self' shown] [-> Hr]].
    exists self'. split; [reflexivity |]. apply (reported_ok _ Hr).
Qed.

(** No session fails, and each leaves an expression of a session. *)
Lemma session_ok (libm_pow : float -> float -> float * errno) (bs : list button) :
  forall self : Calculator,
    forallb on_keypad bs = true -> expression_ok (expression self) ->
    exists self', session libm_pow self bs = Return self' /\
                  expression_ok (expression self').
Proof.
  induction bs as [| b bs IH]; intros self Hb Hs.
  - exists self. split; [reflexivity | exact Hs].
  - cbn [forallb] in Hb. apply andb_prop in Hb. destruct Hb as [Hb Hbs].
    destruct (click_ok libm_pow self b Hb Hs) as (self1 & E & H1).
    cbn [session]. rewrite E. cbn [bind]. apply IH; assumption.
Qed.

Lemma on_keypad_buttons (b : button) :
  on_keypad b = true <-> In b (concat buttons).
Proof.
  split.
  - destruct b as [c | | |]; cbn [on_keypad]; intros H;
      [| cbn; tauto ..].
    destruct c as [d | | | | | | | | | | | | | | |]; try discriminate H;
      [destruct d |..]; cbn; tauto.
  - cbn. intros H.
    repeat (destruct H as [<- | H]; [reflexivity |]). contradiction.
Qed.

(** ** Failures *)

(** C6: whatever buttons were clicked before, and whatever the C library
    answers when [pow] is called, [calculate] returns: no exception leaves
    it, so no error ends the process.  Either it succeeds and shows no
    message, or it shows a message, which belongs to one of the three error
    classes, and then, whichever the class, the calculator is left with the
    empty expression and a display of [0]. *)
Theorem calculate_failure_resets
    (libm_pow : float -> float -> float * errno) (bs : list button) :
  forallb on_keypad bs = true ->
  exists self : Calculator,
    session libm_pow initial bs = Return self /\
    exists (self' : Calculator) (shown : option message),
      run libm_pow (calculate self) = Return (self', shown) /\
      forall m : message,
        shown = Some m ->
        (classify m = DivisionByZero \/ classify m = InvalidExpression \/
         classify m = EvaluationError) /\
        self' = reset /\ expression self' = [] /\ display self' = [Digit D0].
Proof.
  intros Hb.
  destruct (session_ok libm_pow bs initial Hb) as (self & E & Hs);
    [left; reflexivity |].
  exists self. split; [exact E |].
  destruct (calculate_run libm_pow self Hs) as [[self' shown] [Hr Hrep]].
  exists self', shown. split; [exact Hr |].
  intros m ->. unfold reported in Hrep. cbn [fst snd] in Hrep. subst self'.
  split; [destruct m; auto |]. repeat split.
Qed.

(** "10.0××400" overflows in the C library and is reported as an evaluation
    error; "5÷0" and "5+" are reported in the two other classes; each time
    the calculator is reset. *)
Lemma calculate_failure_resets_witness :
  session overflowing_pow initial
    [Key (Digit D1); Key (Digit D0); Key Dot; Key (Digit D0); Key TimesSign;
     Key TimesSign; Key (Digit D4); Key (Digit D0); Key (Digit D0)]
    = Return (showing [Digit D1; Digit D0; Dot; Digit D0; TimesSign; TimesSign;
                       Digit D4; Digit D0; Digit D0]) /\
  run overflowing_pow
      (calculate (showing [Digit D1; Digit D0; Dot; Digit D0; TimesSign; TimesSign;
                           Digit D4; Digit D0; Digit D0]))
    = Return (reset, Some (AnErrorOccurred OverflowError)) /\
  (classify (AnErrorOccurred OverflowError) = DivisionByZero \/
   classify (AnErrorOccurred OverflowError) = InvalidExpression \/
   classify (AnErrorOccurred OverflowError) = EvaluationError) /\
  reset = reset /\ expression reset = [] /\ display reset = [Digit D0].
Proof.
  destruct (calculate_failure_resets overflowing_pow
              [Key (Digit D1); Key (Digit D0); Key Dot; Key (Digit D0); Key TimesSign;
               Key TimesSign; Key (Digit D4); Key (Digit D0); Key (Digit D0)]
              eq_refl)
    as (self & E & self' & shown & Hr & H).
  vm_compute in E. injection E as <-.
  vm_compute in Hr. injection Hr as <- <-.
  split; [vm_compute; reflexivity |].
  split; [vm_compute; reflexivity |].
  exact (H (AnErrorOccurred OverflowError) eq_refl).
Defined.
